(** * QuickTick: a virtual clock running at a multiple of real time

    Shallow embedding of [clock.go] (package [quicktick]) and the
    properties of its time-accumulation engine and of its life cycle
    under concurrent callers.

    Layout:
    - machine integers, [time.Duration], [time.Time] and the real clock;
    - [float64] arithmetic (binary64, round to nearest even) on
      [SpecFloat.spec_float];
    - the [QuickTick] record with its constructors and methods;
    - a small-step interleaving semantics of the background goroutine
      and of concurrent callers, at the granularity of the
      synchronisation operations the source performs;
    - invariants and the theorems. *)

From Stdlib Require Import ZArith Bool List Lia SpecFloat Reals Lra.
From stdpp Require Import base list.
Import ListNotations.

#[local] Open Scope Z_scope.

(** ** Machine integers and durations *)

Definition minInt64 : Z := - 2 ^ 63.
Definition maxInt64 : Z := 2 ^ 63 - 1.

Definition in_int64 (z : Z) : bool := (minInt64 <=? z) && (z <=? maxInt64).

(** Two's-complement wrap-around of 64-bit signed arithmetic. *)
Definition wrap64 (z : Z) : Z := (z + 2 ^ 63) mod 2 ^ 64 - 2 ^ 63.

(** [time.Duration] is an [int64] count of nanoseconds. *)
Definition Duration := Z.

Definition Nanosecond : Duration := 1.
Definition Microsecond : Duration := 1000 * Nanosecond.
Definition Millisecond : Duration := 1000 * Microsecond.
Definition Second : Duration := 1000 * Millisecond.

Definition minDuration : Duration := minInt64.
Definition maxDuration : Duration := maxInt64.

(** ** [time.Time] and the real clock

    A [Time] carries a wall-clock instant and, when it was obtained from
    [time.Now], a monotonic reading; both are counted in nanoseconds.
    The wall instant is kept as an unbounded integer (the range of Go's
    wall seconds exceeds any duration the clock can accumulate) and the
    location pointer, which no operation here inspects, is left out. *)

Record Time := mkTime { wall : Z; mono : option Z }.

(** The operating system's clocks as sampled by [time.Now]. *)
Record RealClock := mkReal { rwall : Z; rmono : Z }.

Definition time_Now (rc : RealClock) : Time :=
  {| wall := rwall rc; mono := Some (rmono rc) |}.

(** The monotonic readings are [int64] values. *)
Definition Time_wf (t : Time) : Prop :=
  match mono t with
  | Some ext => in_int64 ext = true
  | None => True
  end.

Definition RealClock_wf (rc : RealClock) : Prop := in_int64 (rmono rc) = true.

(** [Time.Add]: the wall instant moves by [d]; the monotonic reading
    moves too, and is dropped when it leaves the [int64] range.  (Go
    also drops it when the wall seconds leave the years 1885 to 2157 of
    its packed representation; no statement below depends on that.) *)
Definition Time_Add (t : Time) (d : Duration) : Time :=
  {| wall := wall t + d;
     mono := match mono t with
             | Some ext =>
                 let te := wrap64 (ext + d) in
                 if ((d <? 0) && (ext <? te)) || ((0 <? d) && (te <? ext))
                 then None else Some te
             | None => None
             end |}.

(** [subMono]: difference of two monotonic readings, saturated. *)
Definition subMono (t u : Z) : Duration :=
  let d := wrap64 (t - u) in
  if (d <? 0) && (u <? t) then maxDuration
  else if (0 <? d) && (t <? u) then minDuration
  else d.

(** [Time.Sub]: monotonic readings when both sides have one, otherwise
    the saturated difference of the wall instants. *)
Definition Time_Sub (t u : Time) : Duration :=
  match mono t, mono u with
  | Some tm, Some um => subMono tm um
  | _, _ =>
      let d := wall t - wall u in
      if d <? minDuration then minDuration
      else if maxDuration <? d then maxDuration
      else d
  end.

(** [time.Since t]. *)
Definition time_Since (rc : RealClock) (t : Time) : Duration :=
  match mono t with
  | Some ext => subMono (rmono rc) ext
  | None => Time_Sub (time_Now rc) t
  end.

(** ** [float64] *)

Definition float64 := spec_float.

Definition f64_prec : Z := 53.
Definition f64_emax : Z := 1024.

Definition f64_mul : float64 -> float64 -> float64 := SFmul f64_prec f64_emax.
Definition f64_add : float64 -> float64 -> float64 := SFadd f64_prec f64_emax.
Definition f64_div : float64 -> float64 -> float64 := SFdiv f64_prec f64_emax.

(** Conversion [float64(i)] of an integer, rounded to nearest even. *)
Definition f64_of_int (i : Z) : float64 :=
  binary_normalize f64_prec f64_emax i 0 false.

(** The float64 nearest to the fraction [num / den] of two integers that
    are themselves exact in float64; this is how a decimal constant such
    as [1.5] or [-0.5] reaches the program. *)
Definition f64_of_ratio (num den : Z) : float64 :=
  f64_div (f64_of_int num) (f64_of_int den).

Definition f64_is_finite (f : float64) : bool :=
  match f with
  | S754_zero _ | S754_finite _ _ _ => true
  | S754_infinity _ | S754_nan => false
  end.

Definition f64_is_zero (f : float64) : bool :=
  match f with
  | S754_zero _ => true
  | _ => false
  end.

(** [f < 0] as Go compares floats. *)
Definition f64_ltz (f : float64) : bool :=
  match f with
  | S754_infinity true | S754_finite true _ _ => true
  | _ => false
  end.

(** The integer part of a finite float, rounded toward zero. *)
Definition f64_trunc (f : float64) : option Z :=
  match f with
  | S754_zero _ => Some 0
  | S754_finite s m e =>
      let v := Z.shiftl (Zpos m) e in Some (if s then - v else v)
  | S754_infinity _ | S754_nan => None
  end.

(** Conversion [int64(f)].  The fraction is discarded; when the value
    does not fit (or is not a number) the conversion still succeeds and
    the result depends on the implementation: [arch] gives it. *)
Definition int64_of_float64 (arch : float64 -> Z) (f : float64) : Z :=
  match f64_trunc f with
  | Some z => if in_int64 z then z else wrap64 (arch f)
  | None => wrap64 (arch f)
  end.

(** [Duration.Seconds]. *)
Definition Duration_Seconds (d : Duration) : float64 :=
  let sec := Z.quot d Second in
  let nsec := Z.rem d Second in
  f64_add (f64_of_int sec) (f64_div (f64_of_int nsec) (f64_of_int 1000000000)).

(** ** Outcomes of a step

    A step of a goroutine either completes, cannot be taken yet (the
    goroutine is parked on a mutex or on a channel), or crashes the
    program (a run-time panic or fatal error). *)

Inductive outcome (A : Type) : Type :=
| Ok (a : A)
| Blocked
| Panic.

Arguments Ok {A} a.
Arguments Blocked {A}.
Arguments Panic {A}.

Definition obind {A B : Type} (o : outcome A) (k : A -> outcome B) : outcome B :=
  match o with
  | Ok a => k a
  | Blocked => Blocked
  | Panic => Panic
  end.

Notation "x <-- o ;; k" := (obind o (fun x => k))
  (at level 100, o at level 99, right associativity).

(** ** The clock *)

(** [sync.Once]: the done flag and the mutex of the slow path. *)
Record Once := mkOnce { once_done : bool; once_m : bool }.

Record QuickTick := mkQuickTick {
  multiplier : float64;
  tickerInterval : Duration;
  startTime : Time;
  startRealTime : Time;
  currentDuration : Z;
  done : bool;          (* [chan struct{}]: [true] once closed *)
  mu : bool;            (* [sync.Mutex]: [true] while held *)
  once : Once
}.

Definition set_startRealTime (t : Time) (ac : QuickTick) : QuickTick :=
  mkQuickTick (multiplier ac) (tickerInterval ac) (startTime ac) t
    (currentDuration ac) (done ac) (mu ac) (once ac).

(** [atomic.StoreInt64(&ac.currentDuration, v)]. *)
Definition store_currentDuration (v : Z) (ac : QuickTick) : QuickTick :=
  mkQuickTick (multiplier ac) (tickerInterval ac) (startTime ac) (startRealTime ac)
    v (done ac) (mu ac) (once ac).

Definition set_done (b : bool) (ac : QuickTick) : QuickTick :=
  mkQuickTick (multiplier ac) (tickerInterval ac) (startTime ac) (startRealTime ac)
    (currentDuration ac) b (mu ac) (once ac).

Definition set_mu (b : bool) (ac : QuickTick) : QuickTick :=
  mkQuickTick (multiplier ac) (tickerInterval ac) (startTime ac) (startRealTime ac)
    (currentDuration ac) (done ac) b (once ac).

Definition set_once (o : Once) (ac : QuickTick) : QuickTick :=
  mkQuickTick (multiplier ac) (tickerInterval ac) (startTime ac) (startRealTime ac)
    (currentDuration ac) (done ac) (mu ac) o.

(** *** Synchronisation primitives *)

(** [ac.mu.Lock()]: parks while the mutex is held. *)
Definition mu_Lock (ac : QuickTick) : outcome QuickTick :=
  if mu ac then Blocked else Ok (set_mu true ac).

(** [ac.mu.Unlock()]: unlocking a free mutex is a fatal error. *)
Definition mu_Unlock (ac : QuickTick) : outcome QuickTick :=
  if mu ac then Ok (set_mu false ac) else Panic.

Definition once_m_Lock (ac : QuickTick) : outcome QuickTick :=
  if once_m (once ac) then Blocked
  else Ok (set_once (mkOnce (once_done (once ac)) true) ac).

Definition once_m_Unlock (ac : QuickTick) : outcome QuickTick :=
  if once_m (once ac) then Ok (set_once (mkOnce (once_done (once ac)) false) ac)
  else Panic.

Definition once_done_Store (ac : QuickTick) : QuickTick :=
  set_once (mkOnce true (once_m (once ac))) ac.

(** [close(ac.done)]: closing a closed channel panics. *)
Definition close_done (ac : QuickTick) : outcome QuickTick :=
  if done ac then Panic else Ok (set_done true ac).

(** [sync.Once.Do f]: the fast path reads the flag; the slow path takes
    the mutex, reads the flag again, runs [f], then (deferred, in this
    order) stores the flag and releases the mutex. *)
Definition Once_Do (f : QuickTick -> outcome QuickTick) (ac : QuickTick)
  : outcome QuickTick :=
  if once_done (once ac) then Ok ac
  else
    ac1 <-- once_m_Lock ac ;;
    if once_done (once ac1) then once_m_Unlock ac1
    else
      ac2 <-- f ac1 ;;
      once_m_Unlock (once_done_Store ac2).

(** *** Constructors

    Each constructor takes the reading [rc] of the real clock at the
    instant it samples [time.Now()]. *)

Definition New (rc : RealClock) (multiplier : float64) : QuickTick :=
  let startTime := time_Now rc in
  {| multiplier := multiplier;
     tickerInterval := Millisecond;
     startTime := startTime;
     startRealTime := startTime;
     currentDuration := 0;
     done := false;
     mu := false;
     once := mkOnce false false |}.

Definition NewCustom (rc : RealClock) (startTime : Time) (multiplier : float64)
  (updateInterval : Duration) : QuickTick :=
  {| multiplier := multiplier;
     tickerInterval := updateInterval;
     startTime := startTime;
     startRealTime := time_Now rc;
     currentDuration := 0;
     done := false;
     mu := false;
     once := mkOnce false false |}.

Definition NewCtx (rc : RealClock) (multiplier : float64) : QuickTick :=
  let startTime := time_Now rc in
  {| multiplier := multiplier;
     tickerInterval := Millisecond;
     startTime := startTime;
     startRealTime := startTime;
     currentDuration := 0;
     done := false;
     mu := false;
     once := mkOnce false false |}.

Definition NewCustomCtx (rc : RealClock) (startTime : Time) (multiplier : float64)
  (updateInterval : Duration) : QuickTick :=
  {| multiplier := multiplier;
     tickerInterval := updateInterval;
     startTime := startTime;
     startRealTime := time_Now rc;
     currentDuration := 0;
     done := false;
     mu := false;
     once := mkOnce false false |}.

(** *** Methods, run by one goroutine without interference *)

Section Methods.

(** Result of [int64(f)] where the Go specification leaves it to the
    implementation. *)
Variable arch : float64 -> Z.

(** The value [updateClock] publishes for an elapsed real duration. *)
Definition accelerated (multiplier : float64) (elapsedRealTime : Duration) : Z :=
  let acceleratedElapsedTime := f64_mul (Duration_Seconds elapsedRealTime) multiplier in
  int64_of_float64 arch (f64_mul acceleratedElapsedTime (f64_of_int Second)).

Definition updateClock (rc : RealClock) (ac : QuickTick) : outcome QuickTick :=
  ac1 <-- mu_Lock ac ;;
  let elapsedRealTime := time_Since rc (startRealTime ac1) in
  ac2 <-- mu_Unlock ac1 ;;
  Ok (store_currentDuration (accelerated (multiplier ac2) elapsedRealTime) ac2).

Definition Now (ac : QuickTick) : Time :=
  let currentDuration := currentDuration ac in
  let accumulatedDuration : Duration := currentDuration in
  let acceleratedTime := Time_Add (startTime ac) accumulatedDuration in
  acceleratedTime.

Definition Stop (ac : QuickTick) : outcome QuickTick :=
  Once_Do close_done ac.

Definition Reset (rc : RealClock) (ac : QuickTick) : outcome QuickTick :=
  ac1 <-- mu_Lock ac ;;
  let ac2 := set_startRealTime (time_Now rc) ac1 in
  let ac3 := store_currentDuration 0 ac2 in
  mu_Unlock ac3.

End Methods.

(** ** Goroutines, step by step

    Between two synchronisation operations a goroutine touches only its
    own locals and fields that are never written after construction, so
    the program counters below stop exactly at the operations on [mu],
    [once], [done], [startRealTime] and [currentDuration].  [Now] is one
    atomic load followed by pure arithmetic on a field that is never
    written: it is read off a state rather than scheduled. *)

(** Program points of [Stop] (that is, of [once.Do]). *)
Inductive StopPC :=
| SFast         (* before the fast-path load of the flag *)
| SLock         (* before [o.m.Lock()] *)
| SCheck        (* holding [o.m], before the second load *)
| SClose        (* holding [o.m], before [close(ac.done)] *)
| SStoreDone    (* holding [o.m], before the deferred [o.done.Store(1)] *)
| SUnlock.      (* holding [o.m], before the deferred [o.m.Unlock()] *)

(** Program points of [Reset]. *)
Inductive ResetPC :=
| RLock         (* before [ac.mu.Lock()] *)
| RWrite        (* holding [mu], before [ac.startRealTime = time.Now()] *)
| RStore        (* holding [mu], before the store of 0 *)
| RUnlock.      (* holding [mu], before the deferred unlock *)

(** Program points of [updateClock]; the elapsed time is a local. *)
Inductive UpdPC :=
| ULock                                   (* before [ac.mu.Lock()] *)
| USince                                  (* holding [mu], before [time.Since] *)
| UUnlock (elapsedRealTime : Duration)    (* holding [mu], before the unlock *)
| UStore (elapsedRealTime : Duration).    (* before the atomic store *)

(** One step of a method: the next program point ([None] once the method
    has returned) and the clock after the step. *)
Definition Stop_step (pc : StopPC) (ac : QuickTick)
  : outcome (option StopPC * QuickTick) :=
  match pc with
  | SFast => Ok (if once_done (once ac) then None else Some SLock, ac)
  | SLock => ac1 <-- once_m_Lock ac ;; Ok (Some SCheck, ac1)
  | SCheck => Ok (Some (if once_done (once ac) then SUnlock else SClose), ac)
  | SClose => ac1 <-- close_done ac ;; Ok (Some SStoreDone, ac1)
  | SStoreDone => Ok (Some SUnlock, once_done_Store ac)
  | SUnlock => ac1 <-- once_m_Unlock ac ;; Ok (None, ac1)
  end.

Definition Reset_step (rc : RealClock) (pc : ResetPC) (ac : QuickTick)
  : outcome (option ResetPC * QuickTick) :=
  match pc with
  | RLock => ac1 <-- mu_Lock ac ;; Ok (Some RWrite, ac1)
  | RWrite => Ok (Some RStore, set_startRealTime (time_Now rc) ac)
  | RStore => Ok (Some RUnlock, store_currentDuration 0 ac)
  | RUnlock => ac1 <-- mu_Unlock ac ;; Ok (None, ac1)
  end.

Definition updateClock_step (arch : float64 -> Z) (rc : RealClock) (pc : UpdPC)
  (ac : QuickTick) : outcome (option UpdPC * QuickTick) :=
  match pc with
  | ULock => ac1 <-- mu_Lock ac ;; Ok (Some USince, ac1)
  | USince => Ok (Some (UUnlock (time_Since rc (startRealTime ac))), ac)
  | UUnlock elapsedRealTime =>
      ac1 <-- mu_Unlock ac ;; Ok (Some (UStore elapsedRealTime), ac1)
  | UStore elapsedRealTime =>
      Ok (None, store_currentDuration (accelerated arch (multiplier ac) elapsedRealTime) ac)
  end.

(** *** The ticker *)

(** A [time.Ticker]: its period, the monotonic instant of the next tick,
    and whether a tick waits in its channel (of capacity one). *)
Record Ticker := mkTicker { period : Duration; next : Z; pending : bool }.

(** [time.NewTicker d] panics when [d] is not positive. *)
Definition NewTicker (rc : RealClock) (d : Duration) : outcome Ticker :=
  if d <=? 0 then Panic
  else Ok {| period := d; next := rmono rc + d; pending := false |}.

(** The runtime timer fires once its instant is reached: the tick is
    dropped when one is still waiting, and the next instant is the first
    multiple of the period after now. *)
Definition Ticker_fire (rc : RealClock) (t : Ticker) : outcome Ticker :=
  if rmono rc <? next t then Blocked
  else Ok {| period := period t;
             next := next t + period t * (1 + (rmono rc - next t) / period t);
             pending := true |}.

(** *** The system *)

(** Which loop the constructor started. *)
Inductive LoopKind := Run | RunWithContext.

(** Program points of the background goroutine. *)
Inductive LoopPC :=
| LStart                  (* spawned, before [time.NewTicker] *)
| LSelect                 (* at the [select] *)
| LUpdate (pc : UpdPC)    (* inside [ac.updateClock()] *)
| LStop (pc : StopPC)     (* inside [ac.Stop()], context branch *)
| LExit.                  (* returned; the ticker is stopped *)

Inductive Op := OpStop | OpReset.

(** A call of a caller goroutine: in flight, or returned. *)
Inductive CallPC :=
| CStop (pc : StopPC)
| CReset (pc : ResetPC)
| CReturned (op : Op).

Inductive SelectCase := CaseTick | CaseCtx | CaseDone.

Record World := mkWorld {
  clock : QuickTick;           (* the shared [*QuickTick] *)
  real : RealClock;            (* the real clocks now *)
  kind : LoopKind;
  ctx_done : bool;             (* [ctx.Done()] is closed *)
  ticker : option Ticker;      (* the loop's ticker while it runs *)
  loop : LoopPC;
  calls : list CallPC          (* calls made so far, in order of invocation *)
}.

Definition with_clock (w : World) (ac : QuickTick) : World :=
  mkWorld ac (real w) (kind w) (ctx_done w) (ticker w) (loop w) (calls w).

Definition with_loop (w : World) (pc : LoopPC) (ac : QuickTick) : World :=
  mkWorld ac (real w) (kind w) (ctx_done w) (ticker w) pc (calls w).

Definition with_calls (w : World) (cs : list CallPC) (ac : QuickTick) : World :=
  mkWorld ac (real w) (kind w) (ctx_done w) (ticker w) (loop w) cs.

(** The loop returns: the deferred [ticker.Stop()] runs. *)
Definition loop_return (w : World) (ac : QuickTick) : World :=
  mkWorld ac (real w) (kind w) (ctx_done w) None LExit (calls w).

Inductive Event :=
| EvTime (rc : RealClock)     (* real time passes; the new readings, of
                                 which the monotonic one never decreases *)
| EvTicker                    (* the runtime timer of the ticker fires *)
| EvCancel                    (* the context is cancelled *)
| EvLoop (c : SelectCase)     (* the background goroutine moves; [c] is
                                 the case taken when it is at [select] *)
| EvCall (op : Op)            (* a caller goroutine enters [Stop] or [Reset] *)
| EvStep (i : nat).           (* the [i]-th call moves *)

Section Semantics.

Variable arch : float64 -> Z.

(** The goroutine has its ticker and reaches the [select]. *)
Definition loop_started (w : World) (t : Ticker) : World :=
  mkWorld (clock w) (real w) (kind w) (ctx_done w) (Some t) LSelect (calls w).

(** [case <-ticker.C]: takes the waiting tick and enters [updateClock]. *)
Definition case_ticker (w : World) : outcome World :=
  match ticker w with
  | Some t =>
      if pending t
      then Ok (mkWorld (clock w) (real w) (kind w) (ctx_done w)
                 (Some (mkTicker (period t) (next t) false))
                 (LUpdate ULock) (calls w))
      else Blocked
  | None => Blocked
  end.

(** [case <-ac.done]: ready once the channel is closed; the loop returns. *)
Definition case_done (w : World) : outcome World :=
  if done (clock w) then Ok (loop_return w (clock w)) else Blocked.

(** [case <-ctx.Done()]: ready once the context is cancelled; the loop
    enters [ac.Stop()]. *)
Definition case_ctx (w : World) : outcome World :=
  if ctx_done w then Ok (with_loop w (LStop SFast) (clock w)) else Blocked.

(** The loop inside [ac.updateClock()], back at the [select] afterwards. *)
Definition in_updateClock (pc : UpdPC) (w : World) : outcome World :=
  r <-- updateClock_step arch (real w) pc (clock w) ;;
  match r with
  | (Some pc', ac) => Ok (with_loop w (LUpdate pc') ac)
  | (None, ac) => Ok (with_loop w LSelect ac)
  end.

(** The loop inside [ac.Stop()], returning afterwards. *)
Definition in_Stop (pc : StopPC) (w : World) : outcome World :=
  r <-- Stop_step pc (clock w) ;;
  match r with
  | (Some pc', ac) => Ok (with_loop w (LStop pc') ac)
  | (None, ac) => Ok (loop_return w ac)
  end.

(** [run], one step; [c] is the case its [select] takes. *)
Definition run (c : SelectCase) (w : World) : outcome World :=
  match loop w with
  | LStart =>
      ticker <-- NewTicker (real w) Millisecond ;;
      Ok (loop_started w ticker)
  | LSelect =>
      match c with
      | CaseTick => case_ticker w
      | CaseDone => case_done w
      | CaseCtx => Blocked
      end
  | LUpdate pc => in_updateClock pc w
  | LStop _ | LExit => Blocked
  end.

(** [runWithContext], one step. *)
Definition runWithContext (c : SelectCase) (w : World) : outcome World :=
  match loop w with
  | LStart =>
      ticker <-- NewTicker (real w) Millisecond ;;
      Ok (loop_started w ticker)
  | LSelect =>
      match c with
      | CaseTick => case_ticker w
      | CaseCtx => case_ctx w
      | CaseDone => case_done w
      end
  | LUpdate pc => in_updateClock pc w
  | LStop pc => in_Stop pc w
  | LExit => Blocked
  end.

(** The background goroutine runs the loop its constructor started. *)
Definition loop_step (c : SelectCase) (w : World) : outcome World :=
  match kind w with
  | Run => run c w
  | RunWithContext => runWithContext c w
  end.

Definition call_step (i : nat) (w : World) : outcome World :=
  match calls w !! i with
  | Some (CStop pc) =>
      r <-- Stop_step pc (clock w) ;;
      match r with
      | (Some pc', ac) => Ok (with_calls w (<[i := CStop pc']> (calls w)) ac)
      | (None, ac) => Ok (with_calls w (<[i := CReturned OpStop]> (calls w)) ac)
      end
  | Some (CReset pc) =>
      r <-- Reset_step (real w) pc (clock w) ;;
      match r with
      | (Some pc', ac) => Ok (with_calls w (<[i := CReset pc']> (calls w)) ac)
      | (None, ac) => Ok (with_calls w (<[i := CReturned OpReset]> (calls w)) ac)
      end
  | Some (CReturned _) | None => Blocked
  end.

Definition step (e : Event) (w : World) : outcome World :=
  match e with
  | EvTime rc =>
      if (rmono (real w) <=? rmono rc) && in_int64 (rmono rc)
      then Ok (mkWorld (clock w) rc (kind w) (ctx_done w) (ticker w) (loop w) (calls w))
      else Blocked
  | EvTicker =>
      match ticker w with
      | Some t =>
          t' <-- Ticker_fire (real w) t ;;
          Ok (mkWorld (clock w) (real w) (kind w) (ctx_done w) (Some t') (loop w) (calls w))
      | None => Blocked
      end
  | EvCancel =>
      match kind w with
      | RunWithContext =>
          Ok (mkWorld (clock w) (real w) (kind w) true (ticker w) (loop w) (calls w))
      | Run => Blocked
      end
  | EvLoop c => loop_step c w
  | EvCall OpStop => Ok (with_calls w (calls w ++ [CStop SFast]) (clock w))
  | EvCall OpReset => Ok (with_calls w (calls w ++ [CReset RLock]) (clock w))
  | EvStep i => call_step i w
  end.

(** A schedule, event after event. *)
Fixpoint exec (es : list Event) (w : World) : outcome World :=
  match es with
  | [] => Ok w
  | e :: es' => w' <-- step e w ;; exec es' w'
  end.

End Semantics.

(** [go ac.run()] / [go ac.runWithContext(ctx)]: the world right after a
    constructor returned. *)
Definition spawn (k : LoopKind) (cancelled : bool) (rc : RealClock) (ac : QuickTick)
  : World :=
  {| clock := ac; real := rc; kind := k; ctx_done := cancelled;
     ticker := None; loop := LStart; calls := [] |}.

Definition go_New (rc : RealClock) (m : float64) : World :=
  spawn Run false rc (New rc m).

Definition go_NewCustom (rc : RealClock) (st : Time) (m : float64) (d : Duration)
  : World :=
  spawn Run false rc (NewCustom rc st m d).

Definition go_NewCtx (cancelled : bool) (rc : RealClock) (m : float64) : World :=
  spawn RunWithContext cancelled rc (NewCtx rc m).

Definition go_NewCustomCtx (cancelled : bool) (rc : RealClock) (st : Time)
  (m : float64) (d : Duration) : World :=
  spawn RunWithContext cancelled rc (NewCustomCtx rc st m d).

(** The world a constructor leaves behind. *)
Inductive Initial : World -> Prop :=
| Initial_New rc m :
    RealClock_wf rc -> Initial (go_New rc m)
| Initial_NewCustom rc st m d :
    RealClock_wf rc -> Time_wf st -> Initial (go_NewCustom rc st m d)
| Initial_NewCtx cancelled rc m :
    RealClock_wf rc -> Initial (go_NewCtx cancelled rc m)
| Initial_NewCustomCtx cancelled rc st m d :
    RealClock_wf rc -> Time_wf st -> Initial (go_NewCustomCtx cancelled rc st m d).

(** ** Invariants of the interleaving semantics *)

Definition b2n (b : bool) : nat := if b then 1%nat else 0%nat.

(** Whether a goroutine at this point holds the mutex of [once]. *)
Definition holds_once (pc : StopPC) : nat :=
  match pc with
  | SFast | SLock => 0
  | SCheck | SClose | SStoreDone | SUnlock => 1
  end.

Definition call_holds_once (c : CallPC) : nat :=
  match c with
  | CStop pc => holds_once pc
  | _ => 0
  end.

Definition loop_holds_once (l : LoopPC) : nat :=
  match l with
  | LStop pc => holds_once pc
  | _ => 0
  end.

Definition opt_holds_once (pc : option StopPC) : nat :=
  match pc with Some p => holds_once p | None => 0%nat end.

Definition once_holders (w : World) : nat :=
  (loop_holds_once (loop w) + sum_list_with call_holds_once (calls w))%nat.

(** Whether a goroutine at this point holds [mu]. *)
Definition call_holds_mu (c : CallPC) : nat :=
  match c with
  | CReset (RWrite | RStore | RUnlock) => 1
  | _ => 0
  end.

Definition loop_holds_mu (l : LoopPC) : nat :=
  match l with
  | LUpdate (USince | UUnlock _) => 1
  | _ => 0
  end.

Definition opt_call_holds_mu (pc : option ResetPC) : nat :=
  match pc with Some p => call_holds_mu (CReset p) | None => 0%nat end.

Definition opt_loop_holds_mu (pc : option UpdPC) : nat :=
  match pc with Some p => loop_holds_mu (LUpdate p) | None => 0%nat end.

Definition mu_holders (w : World) : nat :=
  (loop_holds_mu (loop w) + sum_list_with call_holds_mu (calls w))%nat.

(** What a goroutine inside [once.Do] knows about the channel and the
    flag at each program point. *)
Definition stop_pc_ok (ac : QuickTick) (pc : StopPC) : Prop :=
  match pc with
  | SFast | SLock => True
  | SCheck => done ac = once_done (once ac)
  | SClose => done ac = false /\ once_done (once ac) = false
  | SStoreDone => done ac = true /\ once_done (once ac) = false
  | SUnlock => done ac = true /\ once_done (once ac) = true
  end.

(** The part of the clock [once.Do] works on. *)
Record OnceInv (w : World) : Prop := {
  once_count : once_holders w = b2n (once_m (once (clock w)));
  once_free : once_m (once (clock w)) = false ->
              done (clock w) = once_done (once (clock w));
  once_closed : once_done (once (clock w)) = true -> done (clock w) = true;
  once_loop : forall pc, loop w = LStop pc -> stop_pc_ok (clock w) pc;
  once_call : forall i pc, calls w !! i = Some (CStop pc) -> stop_pc_ok (clock w) pc;
  once_ret : forall i, calls w !! i = Some (CReturned OpStop) ->
             once_done (once (clock w)) = true
}.

(** The loop and its ticker. *)
Record LoopInv (w : World) : Prop := {
  loop_exit_done : loop w = LExit -> done (clock w) = true;
  loop_ticker : match loop w with
                | LStart | LExit => ticker w = None
                | _ => exists t, ticker w = Some t /\ period t = Millisecond
                end
}.

(** The real epoch always carries a monotonic reading of the past. *)
Definition EpochInv (w : World) : Prop :=
  exists ext,
    mono (startRealTime (clock w)) = Some ext /\
    ext <= rmono (real w) /\
    in_int64 ext = true /\
    RealClock_wf (real w).

Record Inv (w : World) : Prop := {
  inv_once : OnceInv w;
  inv_mu : mu_holders w = b2n (mu (clock w));
  inv_loop : LoopInv w;
  inv_epoch : EpochInv w
}.

(** The configuration, which no step may touch. *)
Definition same_config (ac ac' : QuickTick) : Prop :=
  multiplier ac' = multiplier ac /\
  tickerInterval ac' = tickerInterval ac /\
  startTime ac' = startTime ac.

(** Whether the event is the ticker firing. *)
Definition is_ticker (e : Event) : bool :=
  match e with EvTicker => true | _ => false end.

(** Whether the event is a caller entering [Reset()]. *)
Definition is_reset_call (e : Event) : bool :=
  match e with EvCall OpReset => true | _ => false end.

(** Calls of [Reset] that have not performed their store yet. *)
Definition reset_before_store (c : CallPC) : bool :=
  match c with
  | CReset (RLock | RWrite | RStore) => true
  | _ => false
  end.

(** Calls of [Reset] that have performed their store. *)
Definition reset_after_store (c : CallPC) : bool :=
  match c with
  | CReset RUnlock | CReturned OpReset => true
  | _ => false
  end.

(** ** Properties of floats used in the statements *)

(** [f] is a zero, or a finite number of sign [s] and of magnitude below
    [2^M]. *)
Definition f64_below (M : Z) (s : bool) (f : float64) : Prop :=
  match f with
  | S754_zero _ => True
  | S754_finite s' m e => s' = s /\ Zpos (digits2_pos m) + e <= M
  | S754_infinity _ | S754_nan => False
  end.

(** [f] is a zero, or a number or an infinity of sign [s]; not a NaN. *)
Definition f64_signed (s : bool) (f : float64) : Prop :=
  match f with
  | S754_zero _ => True
  | S754_finite s' _ _ | S754_infinity s' => s' = s
  | S754_nan => False
  end.

(** The integer part of [f] is an [int64]. *)
Definition f64_fits_int64 (f : float64) : bool :=
  match f64_trunc f with
  | Some z => in_int64 z
  | None => false
  end.


(** The product [updateClock] converts to [int64]. *)
Definition accelerated_float (multiplier : float64) (elapsedRealTime : Duration)
  : float64 :=
  f64_mul (f64_mul (Duration_Seconds elapsedRealTime) multiplier) (f64_of_int Second).

(** ** Observations on steps and schedules *)

(** The ways a step may leave the published duration: untouched, written
    by the store of [updateClock], or zeroed by the store of [Reset]. *)
Definition published_by (arch : float64 -> Z) (e : Event) (w w' : World) : Prop :=
  currentDuration (clock w') = currentDuration (clock w) \/
  (exists el c, e = EvLoop c /\ loop w = LUpdate (UStore el) /\
     currentDuration (clock w') = accelerated arch (multiplier (clock w)) el) \/
  (exists i, e = EvStep i /\ calls w !! i = Some (CReset RStore) /\
     calls w' = <[i := CReset RUnlock]> (calls w) /\
     currentDuration (clock w') = 0).

(** The published duration is still the constructor's zero and no tick
    is under way. *)
Definition no_tick_yet (w : World) : Prop :=
  currentDuration (clock w) = 0 /\
  (forall pc, loop w <> LUpdate pc) /\
  (forall t, ticker w = Some t -> pending t = false).

(** The goroutine moved by [e] is about to run [close(ac.done)]. *)
Definition closing (e : Event) (w : World) : bool :=
  match e with
  | EvLoop _ => match loop w with LStop SClose => true | _ => false end
  | EvStep i => match calls w !! i with Some (CStop SClose) => true | _ => false end
  | _ => false
  end.

(** How many times [close(ac.done)] ran along a schedule. *)
Fixpoint closes (arch : float64 -> Z) (es : list Event) (w : World) : nat :=
  match es with
  | [] => 0
  | e :: es' =>
      match step arch e w with
      | Ok w' => ((if closing e w then 1 else 0) + closes arch es' w')%nat
      | _ => 0
      end
  end.

(** How one step of a call changes its program point and the published
    duration: only the store of [Reset] writes it. *)
Definition call_moves (c c' : CallPC) (cd cd' : Z) : Prop :=
  match c, c' with
  | CStop _, (CStop _ | CReturned OpStop) => cd' = cd
  | CReset RLock, CReset RWrite => cd' = cd
  | CReset RWrite, CReset RStore => cd' = cd
  | CReset RStore, CReset RUnlock => cd' = 0
  | CReset RUnlock, CReturned OpReset => cd' = cd
  | _, _ => False
  end.

(** The schedule of one call run from its invocation, alone, for [n]
    steps, when [k] calls were made before. *)
Definition call_alone (op : Op) (k n : nat) : list Event :=
  EvCall op :: repeat (EvStep k) n.

(** Calls from the [n0]-th on that have passed the store of [Reset]. *)
Definition no_late_Reset_stored (n0 : nat) (w : World) : Prop :=
  forall j c, (n0 <= j)%nat -> calls w !! j = Some c -> reset_after_store c = false.

(** ** Sample clocks and schedules *)

(** On amd64 an out-of-range conversion yields the "integer indefinite"
    value [0x8000000000000000]. *)
Definition arch_amd64 (f : float64) : Z := minInt64.

(** A real clock reading, and the readings 1 ms, 1 s and 1 h later. *)
Definition rc_0 : RealClock := mkReal 1700000000000000000 1000.
Definition rc_1ms : RealClock := mkReal 1700000000001000000 1001000.
Definition rc_1s : RealClock := mkReal 1700000001000000000 1000001000.
Definition rc_1h : RealClock := mkReal 1700003600000000000 3600000001000.

(** A virtual epoch one hour before [rc_0], without monotonic reading. *)
Definition epoch_0 : Time := mkTime 1699996400000000000 None.

Definition f64_1_5 : float64 := f64_of_ratio 3 2.
Definition f64_2 : float64 := f64_of_int 2.

(** [NewCustom(epoch, 1.5, 500*time.Millisecond)]. *)
Definition custom_500ms : World :=
  go_NewCustom rc_0 epoch_0 f64_1_5 (500 * Millisecond).

(** The goroutine starts, one millisecond passes, the ticker fires and
    the loop runs [updateClock] to its end. *)
Definition one_tick : list Event :=
  [EvLoop CaseTick; EvTime rc_1ms; EvTicker;
   EvLoop CaseTick; EvLoop CaseTick; EvLoop CaseTick; EvLoop CaseTick;
   EvLoop CaseTick].

(** [New(2.0)]. *)
Definition twice_as_fast : World := go_New rc_0 f64_2.

(** After one second a tick reads the epoch and releases [mu]; a caller
    then runs [Reset()] from start to end; only then does the tick store
    its value. *)
Definition tick_overtaken_by_Reset : list Event :=
  [EvLoop CaseTick; EvTime rc_1s; EvTicker;
   EvLoop CaseTick;               (* select: the tick *)
   EvLoop CaseTick;               (* ac.mu.Lock() *)
   EvLoop CaseTick;               (* time.Since(ac.startRealTime) *)
   EvLoop CaseTick;               (* ac.mu.Unlock() *)
   EvCall OpReset;
   EvStep 0; EvStep 0; EvStep 0; EvStep 0;   (* Reset(), complete *)
   EvLoop CaseTick].              (* atomic.StoreInt64 *)

(** The world after [one_tick] on [custom_500ms]. *)
Definition ticked_500ms : World :=
  {| clock := {| multiplier := f64_1_5;
                 tickerInterval := 500 * Millisecond;
                 startTime := epoch_0;
                 startRealTime := time_Now rc_0;
                 currentDuration := 1500000;
                 done := false;
                 mu := false;
                 once := mkOnce false false |};
     real := rc_1ms;
     kind := Run;
     ctx_done := false;
     ticker := Some {| period := Millisecond; next := 2001000; pending := false |};
     loop := LSelect;
     calls := [] |}.

(** The world after [tick_overtaken_by_Reset] on [twice_as_fast]. *)
Definition overtaken : World :=
  {| clock := {| multiplier := f64_2;
                 tickerInterval := Millisecond;
                 startTime := time_Now rc_0;
                 startRealTime := time_Now rc_1s;
                 currentDuration := 2 * Second;
                 done := false;
                 mu := false;
                 once := mkOnce false false |};
     real := rc_1s;
     kind := Run;
     ctx_done := false;
     ticker := Some {| period := Millisecond; next := 1001001000; pending := false |};
     loop := LSelect;
     calls := [CReturned OpReset] |}.

(** Two callers race in [Stop()] on [twice_as_fast]: both pass the fast
    path before either closes the channel; then the loop sees the closed
    channel and returns. *)
Definition two_racing_Stops : list Event :=
  [EvLoop CaseTick; EvCall OpStop; EvCall OpStop;
   EvStep 0; EvStep 1;
   EvStep 0; EvStep 0; EvStep 0; EvStep 0; EvStep 0;
   EvStep 1; EvStep 1; EvStep 1;
   EvLoop CaseDone].

Definition stopped_twice : World :=
  {| clock := {| multiplier := f64_2;
                 tickerInterval := Millisecond;
                 startTime := time_Now rc_0;
                 startRealTime := time_Now rc_0;
                 currentDuration := 0;
                 done := true;
                 mu := false;
                 once := mkOnce true false |};
     real := rc_0;
     kind := Run;
     ctx_done := false;
     ticker := None;
     loop := LExit;
     calls := [CReturned OpStop; CReturned OpStop] |}.

(** One tick on [custom_500ms], then [Stop()], then the loop returns. *)
Definition tick_then_Stop : list Event :=
  one_tick ++ call_alone OpStop 0 6 ++ [EvLoop CaseDone].

Definition stopped_500ms : World :=
  {| clock := {| multiplier := f64_1_5;
                 tickerInterval := 500 * Millisecond;
                 startTime := epoch_0;
                 startRealTime := time_Now rc_0;
                 currentDuration := 1500000;
                 done := true;
                 mu := false;
                 once := mkOnce true false |};
     real := rc_1ms;
     kind := Run;
     ctx_done := false;
     ticker := None;
     loop := LExit;
     calls := [CReturned OpStop] |}.

(** An hour passes and another [Stop()] runs. *)
Definition an_hour_later : list Event :=
  EvTime rc_1h :: call_alone OpStop 1 1.

Definition stopped_500ms_later : World :=
  {| clock := clock stopped_500ms;
     real := rc_1h;
     kind := Run;
     ctx_done := false;
     ticker := None;
     loop := LExit;
     calls := [CReturned OpStop; CReturned OpStop] |}.

(** An hour passes and a caller runs [Reset()]; then come a [Stop()] and
    one more [Reset()]. *)
Definition Reset_an_hour_later : list Event :=
  EvTime rc_1h :: call_alone OpReset 1 4.

Definition and_more_calls : list Event :=
  call_alone OpStop 2 1 ++ call_alone OpReset 3 4.

Definition reset_500ms (cs : list CallPC) : World :=
  {| clock := {| multiplier := f64_1_5;
                 tickerInterval := 500 * Millisecond;
                 startTime := epoch_0;
                 startRealTime := time_Now rc_1h;
                 currentDuration := 0;
                 done := true;
                 mu := false;
                 once := mkOnce true false |};
     real := rc_1h;
     kind := Run;
     ctx_done := false;
     ticker := None;
     loop := LExit;
     calls := cs |}.

(** [NewCtx(ctx, 2.0)]: the goroutine starts and [ctx] is cancelled. *)
Definition with_context : World := go_NewCtx false rc_0 f64_2.

Definition start_then_cancel : list Event := [EvLoop CaseTick; EvCancel].

Definition cancelled : World :=
  {| clock := NewCtx rc_0 f64_2;
     real := rc_0;
     kind := RunWithContext;
     ctx_done := true;
     ticker := Some {| period := Millisecond; next := 1001000; pending := false |};
     loop := LSelect;
     calls := [] |}.

(** ** Observations used by the further properties *)

(** [Time.Before]: on the monotonic readings when both sides have one,
    otherwise on the wall instants. *)
Definition Time_Before (t u : Time) : bool :=
  match mono t, mono u with
  | Some tm, Some um => tm <? um
  | _, _ => wall t <? wall u
  end.

(** Events that move a goroutine already there: nobody calls, no time
    passes, the ticker does not fire, the context is left alone. *)
Definition is_move (e : Event) : bool :=
  match e with EvLoop _ | EvStep _ => true | _ => false end.

(** Whether the event is a caller entering [Stop()]. *)
Definition is_stop_call (e : Event) : bool :=
  match e with EvCall OpStop => true | _ => false end.

(** Whether the event is the cancellation of the context. *)
Definition is_cancel (e : Event) : bool :=
  match e with EvCancel => true | _ => false end.

(** Whether a goroutine at this point is between [Lock] and [Unlock] of
    [mu]. *)
Definition call_in_mu (c : CallPC) : bool :=
  match call_holds_mu c with O => false | _ => true end.

Definition loop_in_mu (l : LoopPC) : bool :=
  match loop_holds_mu l with O => false | _ => true end.

(** The elapsed times the loop holds in a local are readings of a
    monotonic clock against an epoch of the past. *)
Definition loop_elapsed_ok (w : World) : Prop :=
  forall el, loop w = LUpdate (UUnlock el) \/ loop w = LUpdate (UStore el) ->
             0 <= el <= maxInt64.

(** Where a published duration comes from: the zero of a constructor or
    of [Reset], or the product a tick computed for an elapsed time. *)
Definition published_from (arch : float64 -> Z) (m : float64) (cd : Z) : Prop :=
  cd = 0 \/ exists el, 0 <= el <= maxInt64 /\ cd = accelerated arch m el.



(** The same world with the other loop. *)
Definition with_kind (k : LoopKind) (w : World) : World :=
  mkWorld (clock w) (real w) k (ctx_done w) (ticker w) (loop w) (calls w).

Definition outcome_map {A B : Type} (f : A -> B) (o : outcome A) : outcome B :=
  match o with
  | Ok a => Ok (f a)
  | Blocked => Blocked
  | Panic => Panic
  end.

(** The published duration is the result of a conversion [int64(f)] out
    of range: the product of a tick did not fit. *)
Definition overflowed (arch : float64 -> Z) (m : float64) (cd : Z) : Prop :=
  exists el, 0 <= el <= maxInt64 /\
             f64_fits_int64 (accelerated_float m el) = false /\
             cd = wrap64 (arch (accelerated_float m el)).

(** Nobody has asked the clock to stop: the context is live, the channel
    open, the loop neither returned nor inside [Stop], and no call of
    [Stop] was made. *)
Definition never_stopped (w : World) : Prop :=
  ctx_done w = false /\ done (clock w) = false /\
  loop w <> LExit /\ (forall pc, loop w <> LStop pc) /\
  (forall i pc, calls w !! i <> Some (CStop pc)).

(** Whether a goroutine at this point of [Reset], of [updateClock] or of
    [Stop] can run on to the end of the method without waiting: it holds
    the mutex it needs, or the mutex is free. *)
Definition reset_ready (pc : ResetPC) (ac : QuickTick) : Prop :=
  match pc with
  | RLock => mu ac = false
  | RWrite | RStore | RUnlock => mu ac = true
  end.

Definition update_ready (pc : UpdPC) (ac : QuickTick) : Prop :=
  match pc with
  | ULock => mu ac = false
  | USince | UUnlock _ => mu ac = true
  | UStore _ => True
  end.

Definition stop_ready (pc : StopPC) (ac : QuickTick) : Prop :=
  match pc with
  | SFast =>
      (once_done (once ac) = true /\ done ac = true) \/
      (once_m (once ac) = false /\ done ac = once_done (once ac))
  | SLock => once_m (once ac) = false /\ done ac = once_done (once ac)
  | SCheck | SClose | SStoreDone | SUnlock =>
      once_m (once ac) = true /\ stop_pc_ok ac pc
  end.

(** The clock has been asked to stop: the channel is closed, or the
    context of [runWithContext] is cancelled. *)
Definition stop_requested (w : World) : Prop :=
  done (clock w) = true \/ (kind w = RunWithContext /\ ctx_done w = true).

(** Only [runWithContext] calls [ac.Stop()]. *)
Definition kind_ok (w : World) : Prop :=
  forall pc, loop w = LStop pc -> kind w = RunWithContext.

(** The loop is about to publish the result of a tick. *)
Definition publishing (e : Event) (w : World) : bool :=
  match e, loop w with
  | EvLoop _, LUpdate (UStore _) => true
  | _, _ => false
  end.

(** How many times the loop published along a schedule. *)
Fixpoint publications (arch : float64 -> Z) (es : list Event) (w : World) : nat :=
  match es with
  | [] => 0
  | e :: es' =>
      match step arch e w with
      | Ok w' => ((if publishing e w then 1 else 0) + publications arch es' w')%nat
      | _ => 0
      end
  end.

(** Ticks on their way: the one waiting in the channel of the ticker and
    the one [updateClock] is working on. *)
Definition ticks_in_flight (w : World) : Z :=
  (match ticker w with Some t => if pending t then 1 else 0 | None => 0 end) +
  (match loop w with LUpdate _ => 1 | _ => 0 end).

(** The ticker keeps pace with the monotonic clock: with [n] ticks
    published since the clock read [t0], every tick published or on its
    way accounts for one period that has passed, and the next tick is
    due no later than one period from now. *)
Definition ticker_pace (t0 : Z) (n : nat) (w : World) : Prop :=
  t0 <= rmono (real w) /\
  (Z.of_nat n + ticks_in_flight w) * Millisecond <= rmono (real w) - t0 /\
  (loop w = LStart -> n = 0%nat) /\
  (forall t, ticker w = Some t ->
     period t = Millisecond /\
     (Z.of_nat n + ticks_in_flight w + 1) * Millisecond <= next t - t0 /\
     next t <= rmono (real w) + Millisecond).

(** The loop is neither inside [Stop] nor returned. *)
Definition loop_runs (l : LoopPC) : bool :=
  match l with
  | LStart | LSelect | LUpdate _ => true
  | LStop _ | LExit => false
  end.

(** *** More sample clocks *)

(** On [twice_as_fast]: a [Reset()] stops short of its store, holding
    [mu], and a second one waits for it; a [Stop()] stops short of
    [close(ac.done)], holding the mutex of [once], and a second one
    waits for it. *)
Definition contention : list Event :=
  [EvLoop CaseTick; EvCall OpReset; EvStep 0; EvStep 0; EvCall OpReset;
   EvCall OpStop; EvStep 2; EvStep 2; EvStep 2; EvCall OpStop; EvStep 3].

Definition contended : World :=
  {| clock := {| multiplier := f64_2;
                 tickerInterval := Millisecond;
                 startTime := time_Now rc_0;
                 startRealTime := time_Now rc_0;
                 currentDuration := 0;
                 done := false;
                 mu := true;
                 once := mkOnce false true |};
     real := rc_0;
     kind := Run;
     ctx_done := false;
     ticker := Some {| period := Millisecond; next := 1001000; pending := false |};
     loop := LSelect;
     calls := [CReset RStore; CReset RLock; CStop SClose; CStop SLock] |}.

(** [New(0)] and [New(NaN)], and the worlds after [one_tick] on each. *)
Definition paused : World := go_New rc_0 (f64_of_int 0).

Definition not_a_number : World := go_New rc_0 S754_nan.

Definition ticked (m : float64) (cd : Z) : World :=
  {| clock := {| multiplier := m;
                 tickerInterval := Millisecond;
                 startTime := time_Now rc_0;
                 startRealTime := time_Now rc_0;
                 currentDuration := cd;
                 done := false;
                 mu := false;
                 once := mkOnce false false |};
     real := rc_1ms;
     kind := Run;
     ctx_done := false;
     ticker := Some {| period := Millisecond; next := 2001000; pending := false |};
     loop := LSelect;
     calls := [] |}.

(** ** Floats as real numbers *)

(** [2^e] as a real number, for any integer [e]. *)
Definition pow2 (e : Z) : R := powerRZ 2 e.

(** The real number a finite float stands for; zero for the others. *)
Definition f64_value (f : float64) : R :=
  match f with
  | S754_finite s m e => ((if s then -1 else 1) * IZR (Zpos m) * pow2 e)%R
  | _ => 0%R
  end.

(** A normal binary64 number whose exponent is well inside the range:
    a mantissa of exactly 53 bits, and a magnitude between [2^-548] and
    [2^453]. *)
Definition f64_is_ordinary (f : float64) : bool :=
  match f with
  | S754_finite _ m e =>
      (Zpos (digits2_pos m) =? 53) && (-600 <=? e) && (e <=? 400)
  | _ => false
  end.

(** The published duration is the zero of a constructor or of [Reset],
    or the product of a tick for an elapsed time no longer than the time
    that has passed since the clock read [t0]. *)
Definition published_since (arch : float64 -> Z) (m : float64) (t0 now cd : Z)
  : Prop :=
  cd = 0 \/
  exists el, 0 <= el <= now - t0 /\ el <= maxInt64 /\ cd = accelerated arch m el.

(** Nothing the clock holds is older than the reading [t0]: the real
    epoch, the elapsed time the loop carries to its store, and the
    published duration. *)
Definition since_ok (arch : float64 -> Z) (t0 : Z) (w : World) : Prop :=
  t0 <= rmono (real w) /\ RealClock_wf (real w) /\
  (exists ext, mono (startRealTime (clock w)) = Some ext /\
               in_int64 ext = true /\ t0 <= ext <= rmono (real w)) /\
  (forall el, loop w = LUpdate (UUnlock el) \/ loop w = LUpdate (UStore el) ->
              0 <= el <= rmono (real w) - t0 /\ el <= maxInt64) /\
  published_since arch (multiplier (clock w)) t0 (rmono (real w))
    (currentDuration (clock w)).

(** *** A tick and a [Reset], stopped before their stores *)




(** After [one_tick] on [custom_500ms] a caller runs [Reset()] up to
    its store. *)
Definition Reset_up_to_store : list Event :=
  one_tick ++ [EvCall OpReset; EvStep 0; EvStep 0].

Definition resetting_500ms : World :=
  {| clock := {| multiplier := f64_1_5;
                 tickerInterval := 500 * Millisecond;
                 startTime := epoch_0;
                 startRealTime := time_Now rc_1ms;
                 currentDuration := 1500000;
                 done := false;
                 mu := true;
                 once := mkOnce false false |};
     real := rc_1ms;
     kind := Run;
     ctx_done := false;
     ticker := Some {| period := Millisecond; next := 2001000; pending := false |};
     loop := LSelect;
     calls := [CReset RStore] |}.

(** ** Proof automation *)

Ltac inv_split :=
  split; [split | | split | ];
  unfold once_holders, mu_holders, with_loop, with_calls, loop_return, EpochInv;
  simpl.

(** * Proofs *)

(** ** Counting goroutines *)

Section Counting.

Context {A : Type} (f : A -> nat).

Lemma sum_list_with_snoc (l : list A) (x : A) :
  sum_list_with f (l ++ [x]) = (sum_list_with f l + f x)%nat.
Proof. rewrite sum_list_with_app. simpl. lia. Qed.

Lemma sum_list_with_lookup (l : list A) (i : nat) (x : A) :
  l !! i = Some x -> (f x <= sum_list_with f l)%nat.
Proof.
  revert i. induction l as [|y l IH]; intros [|i] Hi; simpl in *; try discriminate.
  - injection Hi as ->. lia.
  - specialize (IH _ Hi). lia.
Qed.

Lemma sum_list_with_insert (l : list A) (i : nat) (x y : A) :
  l !! i = Some x ->
  (sum_list_with f (<[i := y]> l) + f x = sum_list_with f l + f y)%nat.
Proof.
  revert i. induction l as [|z l IH]; intros [|i] Hi; simpl in *; try discriminate.
  - injection Hi as ->. lia.
  - specialize (IH _ Hi). lia.
Qed.

Lemma sum_list_with_two (l : list A) (i j : nat) (x y : A) :
  i <> j -> l !! i = Some x -> l !! j = Some y ->
  (f x + f y <= sum_list_with f l)%nat.
Proof.
  revert i j. induction l as [|z l IH]; intros [|i] [|j] Hij Hi Hj;
    simpl in *; try discriminate; try congruence.
  - injection Hi as ->. pose proof (sum_list_with_lookup _ _ _ Hj). lia.
  - injection Hj as ->. pose proof (sum_list_with_lookup _ _ _ Hi). lia.
  - assert (i <> j) by congruence. specialize (IH _ _ H Hi Hj). lia.
Qed.

End Counting.

(** ** The methods, one step at a time *)

Lemma Stop_step_sound (pc : StopPC) (ac : QuickTick) (others : nat) :
  (others + holds_once pc)%nat = b2n (once_m (once ac)) ->
  (once_m (once ac) = false -> done ac = once_done (once ac)) ->
  (once_done (once ac) = true -> done ac = true) ->
  stop_pc_ok ac pc ->
  match Stop_step pc ac with
  | Panic => False
  | Blocked => pc = SLock /\ once_m (once ac) = true
  | Ok (pc', ac') =>
      (others + opt_holds_once pc')%nat = b2n (once_m (once ac')) /\
      (once_m (once ac') = false -> done ac' = once_done (once ac')) /\
      (once_done (once ac') = true -> done ac' = true) /\
      match pc' with
      | Some p => stop_pc_ok ac' p
      | None => once_done (once ac') = true
      end /\
      ((done ac' = done ac /\ once_done (once ac') = once_done (once ac))
       \/ others = 0%nat) /\
      (done ac = true -> done ac' = true) /\
      (once_done (once ac) = true -> once_done (once ac') = true)
  end.
Proof.
  destruct ac as [m ti st srt cd dn mx [od om]].
  destruct pc, od, om, dn; simpl; intros Hc Hf Hd Hok;
    repeat split; intros; try tauto; try congruence; try lia;
    try (left; split; reflexivity); try (right; lia).
  all: try (destruct Hok; congruence).
  all: try (specialize (Hf eq_refl); congruence).
Qed.

Lemma Stop_step_frame (pc : StopPC) (ac ac' : QuickTick) (pc' : option StopPC) :
  Stop_step pc ac = Ok (pc', ac') ->
  same_config ac ac' /\
  startRealTime ac' = startRealTime ac /\
  currentDuration ac' = currentDuration ac /\
  mu ac' = mu ac.
Proof.
  destruct ac as [m ti st srt cd dn mx [od om]].
  destruct pc, od, om, dn; simpl; intros H; inversion H; subst;
    unfold same_config; simpl; auto.
Qed.

Lemma Reset_step_sound (rc : RealClock) (pc : ResetPC) (ac : QuickTick) (others : nat) :
  (others + call_holds_mu (CReset pc))%nat = b2n (mu ac) ->
  match Reset_step rc pc ac with
  | Panic => False
  | Blocked => pc = RLock /\ mu ac = true
  | Ok (pc', ac') =>
      (others + opt_call_holds_mu pc')%nat = b2n (mu ac') /\
      same_config ac ac' /\
      done ac' = done ac /\ once ac' = once ac /\
      (startRealTime ac' = startRealTime ac \/ startRealTime ac' = time_Now rc) /\
      (currentDuration ac' = currentDuration ac \/
       (pc = RStore /\ currentDuration ac' = 0))
  end.
Proof.
  destruct ac as [m ti st srt cd dn mx o].
  destruct pc, mx; simpl; intros Hc; unfold same_config; simpl;
    repeat split; auto; try lia.
Qed.

Lemma updateClock_step_sound (arch : float64 -> Z) (rc : RealClock) (pc : UpdPC)
  (ac : QuickTick) (others : nat) :
  (others + loop_holds_mu (LUpdate pc))%nat = b2n (mu ac) ->
  match updateClock_step arch rc pc ac with
  | Panic => False
  | Blocked => pc = ULock /\ mu ac = true
  | Ok (pc', ac') =>
      (others + opt_loop_holds_mu pc')%nat = b2n (mu ac') /\
      same_config ac ac' /\
      done ac' = done ac /\ once ac' = once ac /\
      startRealTime ac' = startRealTime ac
  end.
Proof.
  destruct ac as [m ti st srt cd dn mx o].
  destruct pc, mx; simpl; intros Hc; unfold same_config; simpl;
    repeat split; auto; try lia.
Qed.

Lemma stop_pc_ok_idle (ac : QuickTick) (pc : StopPC) :
  holds_once pc = 0%nat -> stop_pc_ok ac pc.
Proof. destruct pc; simpl; intros H; try exact I; discriminate. Qed.

Lemma stop_pc_ok_same (ac ac' : QuickTick) (pc : StopPC) :
  done ac' = done ac -> once_done (once ac') = once_done (once ac) ->
  stop_pc_ok ac pc -> stop_pc_ok ac' pc.
Proof. intros Hd Ho. destruct pc; simpl; rewrite ?Hd, ?Ho; auto. Qed.

(** ** Every step keeps the invariant and never panics *)

Section Preservation.

Variable arch : float64 -> Z.

(** Both loops at once: they differ in the context case and in [Stop]. *)
Lemma loop_step_cases (c : SelectCase) (w : World) :
  loop_step arch c w =
  match loop w with
  | LStart =>
      t <-- NewTicker (real w) Millisecond ;;
      Ok (mkWorld (clock w) (real w) (kind w) (ctx_done w) (Some t) LSelect (calls w))
  | LSelect =>
      match c with
      | CaseTick =>
          match ticker w with
          | Some t =>
              if pending t
              then Ok (mkWorld (clock w) (real w) (kind w) (ctx_done w)
                         (Some (mkTicker (period t) (next t) false))
                         (LUpdate ULock) (calls w))
              else Blocked
          | None => Blocked
          end
      | CaseCtx =>
          match kind w with
          | RunWithContext =>
              if ctx_done w then Ok (with_loop w (LStop SFast) (clock w)) else Blocked
          | Run => Blocked
          end
      | CaseDone =>
          if done (clock w) then Ok (loop_return w (clock w)) else Blocked
      end
  | LUpdate pc =>
      r <-- updateClock_step arch (real w) pc (clock w) ;;
      match r with
      | (Some pc', ac) => Ok (with_loop w (LUpdate pc') ac)
      | (None, ac) => Ok (with_loop w LSelect ac)
      end
  | LStop pc =>
      match kind w with
      | RunWithContext =>
          r <-- Stop_step pc (clock w) ;;
          match r with
          | (Some pc', ac) => Ok (with_loop w (LStop pc') ac)
          | (None, ac) => Ok (loop_return w ac)
          end
      | Run => Blocked
      end
  | LExit => Blocked
  end.
Proof.
  unfold loop_step, run, runWithContext, loop_started, case_ticker, case_done,
    case_ctx, in_updateClock, in_Stop.
  destruct (kind w), (loop w), c; reflexivity.
Qed.

Lemma Initial_Inv (w : World) : Initial w -> Inv w.
Proof.
  intros []; (split; [split | | split | ]); simpl; try reflexivity;
    try discriminate; try (intros; discriminate).
  all: eexists; split; [reflexivity | simpl; repeat split; auto; lia].
Qed.

Lemma time_step_Inv (rc : RealClock) (w w' : World) :
  Inv w -> step arch (EvTime rc) w = Ok w' -> Inv w'.
Proof.
  intros [[] Hmu [] (ext & He & Hle & Hr & Hwf)]. simpl.
  destruct ((rmono (real w) <=? rmono rc) && in_int64 (rmono rc)) eqn:E;
    [|discriminate].
  intros [= <-]. apply andb_true_iff in E as [E Ew]. apply Z.leb_le in E.
  split; [split | | split | ]; simpl; auto.
  exists ext. simpl. repeat split; auto. lia.
Qed.

Lemma ticker_step_Inv (w w' : World) :
  Inv w -> step arch EvTicker w = Ok w' -> Inv w'.
Proof.
  intros [[] Hmu [Hx Ht] Hep]. simpl.
  destruct (ticker w) as [t|] eqn:Et; [|discriminate].
  unfold Ticker_fire. destruct (rmono (real w) <? next t); [discriminate|].
  simpl. intros [= <-].
  split; [split | | split | ]; simpl; auto.
  destruct (loop w); try discriminate; destruct Ht as (t0 & Ht0 & Hp);
    eexists; (split; [reflexivity|]); simpl; congruence.
Qed.

Lemma cancel_step_Inv (w w' : World) :
  Inv w -> step arch EvCancel w = Ok w' -> Inv w'.
Proof.
  intros [[] Hmu [] Hep]. simpl.
  destruct (kind w); [discriminate|]. intros [= <-].
  split; [split | | split | ]; simpl; auto.
Qed.

Lemma call_Inv (op : Op) (w w' : World) :
  Inv w -> step arch (EvCall op) w = Ok w' -> Inv w'.
Proof.
  intros [[Hc Hf Hd Hl Hcs Hr] Hmu [] Hep]. simpl.
  destruct op; intros [= <-].
  all: split; [split | | split | ]; simpl; auto.
  all: unfold once_holders, mu_holders in *; simpl;
    rewrite ?sum_list_with_snoc; simpl; try lia.
  all: intros i; intros;
    match goal with
    | H : (_ ++ _) !! _ = _ |- _ => apply lookup_app_Some in H as [H | [_ H]]
    end; eauto.
  all: match goal with
       | H : [_] !! ?k = _ |- _ => destruct k; simpl in H; try discriminate
       end.
  all: match goal with H : Some _ = Some _ |- _ => injection H as <- end;
    exact I.
Qed.

Lemma loop_step_sound (c : SelectCase) (w : World) :
  Inv w ->
  match loop_step arch c w with
  | Panic => False
  | Blocked => True
  | Ok w' => Inv w'
  end.
Proof.
  intros [[Hc Hf Hd Hl Hcs Hr] Hmu [Hx Ht] Hep].
  rewrite loop_step_cases. unfold once_holders, mu_holders in *.
  destruct (loop w) as [| |pc|pc|] eqn:El;
    [simpl in * | simpl in * | | | simpl in *].
  - (* the goroutine creates its ticker *)
    split; [split | | split | ]; simpl; auto; try discriminate.
    eexists; split; reflexivity.
  - (* select *)
    destruct Ht as (t & Ht & Hp). rewrite Ht.
    destruct c.
    + destruct (pending t); [|exact I].
      split; [split | | split | ]; simpl; auto; try discriminate.
      eexists; split; [reflexivity | assumption].
    + destruct (kind w); [exact I|]. destruct (ctx_done w); [|exact I].
      split; [split | | split | ]; simpl; auto; try discriminate.
      * intros pc [= <-]. exact I.
      * eauto.
    + destruct (done (clock w)) eqn:Edone; [|exact I].
      split; [split | | split | ]; simpl; rewrite ?Edone; auto; try discriminate.
  - (* inside updateClock *)
    pose proof (updateClock_step_sound arch (real w) pc (clock w)
                  (sum_list_with call_holds_mu (calls w))) as Hs.
    destruct (updateClock_step arch (real w) pc (clock w))
      as [[pc' ac']| |] eqn:Es; simpl.
    + destruct Hs as (Hmu' & Hcfg & Hdn & Ho & Hsrt); [lia|].
      assert (Inv (with_loop w match pc' with Some p => LUpdate p | None => LSelect end ac')).
      { inv_split; rewrite ?Ho, ?Hdn.
        - destruct pc'; simpl; assumption.
        - assumption.
        - assumption.
        - destruct pc'; discriminate.
        - intros i p Hi. apply (stop_pc_ok_same (clock w)); eauto; congruence.
        - assumption.
        - destruct pc' as [[]|]; simpl in *; lia.
        - destruct pc'; discriminate.
        - destruct pc'; assumption.
        - rewrite Hsrt. exact Hep. }
      destruct pc'; assumption.
    + exact I.
    + apply Hs. lia.
  - (* inside Stop, on the context branch *)
    destruct (kind w); [exact I|].
    change (loop_holds_once (LStop pc)) with (holds_once pc) in Hc.
    pose proof (Stop_step_sound pc (clock w)
                  (sum_list_with call_holds_once (calls w))) as Hs.
    pose proof (Stop_step_frame pc (clock w)) as Hfr.
    destruct (Stop_step pc (clock w)) as [[pc' ac']| |] eqn:Es; simpl.
    + destruct Hs as (Hc' & Hf' & Hd' & Hok' & Hoth & Hdm & Hom);
        [lia | auto | auto | auto |].
      destruct (Hfr _ _ eq_refl) as (_ & Hsrt & _ & Hmx).
      assert (Hcalls : forall i p, calls w !! i = Some (CStop p) -> stop_pc_ok ac' p).
      { intros i p Hi. destruct Hoth as [[E1 E2] | Hz].
        - eapply stop_pc_ok_same; eauto.
        - apply stop_pc_ok_idle.
          pose proof (sum_list_with_lookup call_holds_once _ _ _ Hi) as Hle.
          simpl in Hle. lia. }
      assert (Hep' : EpochInv (with_clock w ac')).
      { unfold EpochInv. simpl. rewrite Hsrt. exact Hep. }
      destruct pc' as [p|].
      * inv_split; rewrite ?Hmx.
        -- simpl in Hc'. lia.
        -- assumption.
        -- assumption.
        -- intros p' [= <-]. assumption.
        -- assumption.
        -- intros i Hi. eauto.
        -- exact Hmu.
        -- discriminate.
        -- exact Ht.
        -- exact Hep'.
      * inv_split; rewrite ?Hmx.
        -- simpl in Hc'. lia.
        -- assumption.
        -- assumption.
        -- discriminate.
        -- assumption.
        -- intros i Hi. eauto.
        -- exact Hmu.
        -- intros _. auto.
        -- reflexivity.
        -- exact Hep'.
    + exact I.
    + apply Hs; auto. lia.
  - exact I.
Qed.

Lemma lookup_insert_cases {A : Type} (l : list A) (i j : nat) (x y z : A) :
  l !! i = Some x -> <[i := y]> l !! j = Some z ->
  (j = i /\ z = y) \/ (j <> i /\ l !! j = Some z).
Proof.
  intros Hi Hj. destruct (decide (j = i)) as [->|Hne].
  - left. split; [reflexivity|].
    rewrite list_lookup_insert_eq in Hj by (eapply lookup_lt_Some; eauto).
    congruence.
  - right. split; [assumption|].
    rewrite list_lookup_insert_ne in Hj by congruence. assumption.
Qed.

Lemma call_step_sound (i : nat) (w : World) :
  Inv w ->
  match call_step i w with
  | Panic => False
  | Blocked => True
  | Ok w' => Inv w'
  end.
Proof.
  intros [[Hc Hf Hd Hl Hcs Hr] Hmu [Hx Ht] Hep].
  unfold call_step, once_holders, mu_holders in *.
  destruct (calls w !! i) as [[pc|pc|op]|] eqn:Ei; try exact I.
  - (* a step of Stop *)
    pose proof (sum_list_with_lookup call_holds_once _ _ _ Ei) as Hle.
    change (call_holds_once (CStop pc)) with (holds_once pc) in Hle.
    pose proof (Stop_step_sound pc (clock w)
      (loop_holds_once (loop w) + sum_list_with call_holds_once (calls w)
       - holds_once pc)) as Hs.
    pose proof (Stop_step_frame pc (clock w)) as Hfr.
    destruct (Stop_step pc (clock w)) as [[pc' ac']| |] eqn:Es; simpl;
      [| exact I | apply Hs; [lia | auto | auto | eauto]].
    destruct Hs as (Hc' & Hf' & Hd' & Hok' & Hoth & Hdm & Hom);
      [lia | auto | auto | eauto |].
    destruct (Hfr _ _ eq_refl) as (_ & Hsrt & _ & Hmx).
    set (c' := match pc' with Some p => CStop p | None => CReturned OpStop end).
    assert (Hw : Inv (with_calls w (<[i := c']> (calls w)) ac')).
    { pose proof (sum_list_with_insert call_holds_once _ _ _ c' Ei) as Hins.
      pose proof (sum_list_with_insert call_holds_mu _ _ _ c' Ei) as Hinm.
      assert (Hc'0 : call_holds_once c' = opt_holds_once pc')
        by (subst c'; destruct pc'; reflexivity).
      assert (Hm'0 : call_holds_mu c' = 0%nat)
        by (subst c'; destruct pc'; reflexivity).
      change (call_holds_once (CStop pc)) with (holds_once pc) in Hins.
      change (call_holds_mu (CStop pc)) with 0%nat in Hinm.
      inv_split; rewrite ?Hmx.
      - lia.
      - assumption.
      - assumption.
      - intros p Hp. destruct Hoth as [[E1 E2]|Hz].
        + eapply stop_pc_ok_same; eauto.
        + apply stop_pc_ok_idle. rewrite Hp in Hz. simpl in Hz. lia.
      - intros j p Hj.
        destruct (lookup_insert_cases _ _ _ _ _ _ Ei Hj) as [[-> E]|[Hne Hj']].
        + subst c'. destruct pc'; [|discriminate]. injection E as ->. assumption.
        + destruct Hoth as [[E1 E2]|Hz].
          * eapply stop_pc_ok_same; eauto.
          * apply stop_pc_ok_idle.
            pose proof (sum_list_with_two call_holds_once _ _ _ _ _ Hne Hj' Ei) as H2.
            simpl in H2. lia.
      - intros j Hj.
        destruct (lookup_insert_cases _ _ _ _ _ _ Ei Hj) as [[-> E]|[Hne Hj']].
        + subst c'. destruct pc'; [discriminate|]. assumption.
        + eauto.
      - lia.
      - auto.
      - exact Ht.
      - rewrite Hsrt. exact Hep. }
    subst c'. destruct pc'; exact Hw.
  - (* a step of Reset *)
    pose proof (sum_list_with_lookup call_holds_mu _ _ _ Ei) as Hle.
    pose proof (Reset_step_sound (real w) pc (clock w)
      (loop_holds_mu (loop w) + sum_list_with call_holds_mu (calls w)
       - call_holds_mu (CReset pc))) as Hs.
    destruct (Reset_step (real w) pc (clock w)) as [[pc' ac']| |] eqn:Es; simpl;
      [| exact I | apply Hs; lia].
    destruct Hs as (Hmu' & Hcfg & Hdn & Ho & Hsrt & Hcd); [lia|].
    set (c' := match pc' with Some p => CReset p | None => CReturned OpReset end).
    assert (Hw : Inv (with_calls w (<[i := c']> (calls w)) ac')).
    { pose proof (sum_list_with_insert call_holds_once _ _ _ c' Ei) as Hins.
      pose proof (sum_list_with_insert call_holds_mu _ _ _ c' Ei) as Hinm.
      assert (Hc'0 : call_holds_once c' = 0%nat)
        by (subst c'; destruct pc'; reflexivity).
      assert (Hm'0 : call_holds_mu c' = opt_call_holds_mu pc')
        by (subst c'; destruct pc'; reflexivity).
      change (call_holds_once (CReset pc)) with 0%nat in Hins.
      inv_split; rewrite ?Ho, ?Hdn.
      - lia.
      - assumption.
      - assumption.
      - intros p Hp. apply (stop_pc_ok_same (clock w)); eauto; congruence.
      - intros j p Hj.
        destruct (lookup_insert_cases _ _ _ _ _ _ Ei Hj) as [[-> E]|[Hne Hj']].
        + subst c'. destruct pc'; discriminate.
        + apply (stop_pc_ok_same (clock w)); eauto; congruence.
      - intros j Hj.
        destruct (lookup_insert_cases _ _ _ _ _ _ Ei Hj) as [[-> E]|[Hne Hj']].
        + subst c'. destruct pc'; discriminate.
        + eauto.
      - lia.
      - assumption.
      - exact Ht.
      - destruct Hsrt as [-> | ->]; [exact Hep|].
        destruct Hep as (ext & _ & _ & _ & Hwf).
        exists (rmono (real w)). simpl. repeat split; auto. lia. }
    subst c'. destruct pc'; exact Hw.
Qed.

Theorem step_sound (e : Event) (w : World) :
  Inv w ->
  match step arch e w with
  | Panic => False
  | Blocked => True
  | Ok w' => Inv w'
  end.
Proof.
  intros HI. destruct e as [rc| | |c|op|i].
  - destruct (step arch (EvTime rc) w) eqn:E; try exact I.
    + eapply time_step_Inv; eauto.
    + simpl in E. destruct (_ && _); discriminate.
  - destruct (step arch EvTicker w) eqn:E; try exact I.
    + eapply ticker_step_Inv; eauto.
    + simpl in E. destruct (ticker w); [|discriminate].
      unfold Ticker_fire in E. destruct (_ <? _); discriminate.
  - destruct (step arch EvCancel w) eqn:E; try exact I.
    + eapply cancel_step_Inv; eauto.
    + simpl in E. destruct (kind w); discriminate.
  - apply loop_step_sound; assumption.
  - destruct (step arch (EvCall op) w) eqn:E; try exact I.
    + eapply call_Inv; eauto.
    + destruct op; discriminate.
  - apply call_step_sound; assumption.
Qed.

Theorem exec_sound (es : list Event) (w : World) :
  Inv w ->
  match exec arch es w with
  | Panic => False
  | Blocked => True
  | Ok w' => Inv w'
  end.
Proof.
  revert w. induction es as [|e es IH]; intros w HI; simpl; [assumption|].
  pose proof (step_sound e w HI) as Hs.
  destruct (step arch e w) as [w1| |]; simpl;
    [apply IH; exact Hs | exact I | exact Hs].
Qed.

End Preservation.

(** ** Machine arithmetic and time *)

Lemma in_int64_spec (z : Z) : in_int64 z = true <-> minInt64 <= z <= maxInt64.
Proof. unfold in_int64. rewrite andb_true_iff, !Z.leb_le. tauto. Qed.

Lemma wrap64_small (z : Z) : in_int64 z = true -> wrap64 z = z.
Proof.
  rewrite in_int64_spec. unfold wrap64, minInt64, maxInt64. intros H.
  rewrite Z.mod_small; lia.
Qed.

Lemma wrap64_range (z : Z) : in_int64 (wrap64 z) = true.
Proof.
  rewrite in_int64_spec. unfold wrap64, minInt64, maxInt64.
  pose proof (Z.mod_pos_bound (z + 2 ^ 63) (2 ^ 64) ltac:(lia)). lia.
Qed.

Lemma Time_Add_zero (t : Time) : Time_wf t -> Time_Add t 0 = t.
Proof.
  destruct t as [wl [ext|]]; unfold Time_wf, Time_Add; simpl; intros H.
  - rewrite !Z.add_0_r, (wrap64_small _ H). reflexivity.
  - rewrite Z.add_0_r. reflexivity.
Qed.

Lemma subMono_nonneg (t u : Z) :
  in_int64 t = true -> in_int64 u = true -> u <= t ->
  0 <= subMono t u <= maxInt64.
Proof.
  rewrite !in_int64_spec. unfold subMono, maxDuration, minDuration, minInt64, maxInt64.
  intros Ht Hu Hle.
  destruct (Z_le_gt_dec (t - u) (2 ^ 63 - 1)) as [Hs|Hb].
  - rewrite wrap64_small by (rewrite in_int64_spec; unfold minInt64, maxInt64; lia).
    destruct (t - u <? 0) eqn:E1; [apply Z.ltb_lt in E1; lia|]. simpl.
    destruct ((0 <? t - u) && (t <? u)) eqn:E2.
    + apply andb_true_iff in E2 as [_ E2]. apply Z.ltb_lt in E2. lia.
    + lia.
  - assert (Hw : wrap64 (t - u) = t - u - 2 ^ 64).
    { unfold wrap64.
      replace (t - u + 2 ^ 63) with ((t - u - 2 ^ 63) + 1 * 2 ^ 64) by lia.
      rewrite Z.mod_add by lia. rewrite Z.mod_small; lia. }
    rewrite Hw.
    destruct (t - u - 2 ^ 64 <? 0) eqn:E1; [|apply Z.ltb_ge in E1; lia].
    destruct (u <? t) eqn:E2; [|apply Z.ltb_ge in E2; lia].
    simpl. lia.
Qed.

(** ** The constructors *)

Lemma Now_wall (ac : QuickTick) :
  wall (Now ac) = wall (startTime ac) + currentDuration ac.
Proof. reflexivity. Qed.

Lemma Now_fresh (ac : QuickTick) :
  Time_wf (startTime ac) -> currentDuration ac = 0 -> Now ac = startTime ac.
Proof. intros Hwf H0. unfold Now. rewrite H0. apply Time_Add_zero, Hwf. Qed.

Lemma Initial_fresh (w : World) :
  Initial w ->
  Time_wf (startTime (clock w)) /\ currentDuration (clock w) = 0 /\
  loop w = LStart /\ ticker w = None /\ calls w = [] /\ done (clock w) = false.
Proof. intros []; simpl; repeat split; auto. Qed.

(** ** What a step may change *)

Lemma same_config_refl (ac : QuickTick) : same_config ac ac.
Proof. unfold same_config. auto. Qed.

Lemma same_config_trans (a b c : QuickTick) :
  same_config a b -> same_config b c -> same_config a c.
Proof. unfold same_config. intros (? & ? & ?) (? & ? & ?). repeat split; congruence. Qed.

Lemma Reset_step_frame (rc : RealClock) (pc : ResetPC) (ac ac' : QuickTick)
  (pc' : option ResetPC) :
  Reset_step rc pc ac = Ok (pc', ac') ->
  same_config ac ac' /\
  (currentDuration ac' = currentDuration ac \/
   (pc = RStore /\ pc' = Some RUnlock /\ currentDuration ac' = 0)) /\
  (pc' = Some RUnlock -> pc = RStore) /\
  (pc' = None -> pc = RUnlock).
Proof.
  destruct ac as [m ti st srt cd dn mx o].
  destruct pc, mx; simpl; intros H; inversion H; subst;
    unfold same_config; simpl; repeat split; auto; try discriminate.
Qed.

Lemma updateClock_step_frame (arch : float64 -> Z) (rc : RealClock) (pc : UpdPC)
  (ac ac' : QuickTick) (pc' : option UpdPC) :
  updateClock_step arch rc pc ac = Ok (pc', ac') ->
  same_config ac ac' /\
  (currentDuration ac' = currentDuration ac \/
   exists el, pc = UStore el /\
              currentDuration ac' = accelerated arch (multiplier ac) el).
Proof.
  destruct ac as [m ti st srt cd dn mx o].
  destruct pc, mx; simpl; intros H; inversion H; subst;
    unfold same_config; simpl; repeat split; eauto.
Qed.

Ltac frame_done :=
  simpl; repeat split; auto using same_config_refl;
  try (intros; discriminate); try (left; reflexivity); try congruence.

Section Frame.

Variable arch : float64 -> Z.

Lemma step_frame (e : Event) (w w' : World) :
  step arch e w = Ok w' ->
  same_config (clock w) (clock w') /\
  kind w' = kind w /\
  (loop w = LExit -> loop w' = LExit) /\
  published_by arch e w w'.
Proof.
  unfold published_by.
  destruct e as [rc| | |c|op|i]; simpl.
  - destruct (_ && _); [|discriminate]. intros [= <-]. simpl.
    frame_done.
  - destruct (ticker w) as [t|]; [|discriminate].
    destruct (Ticker_fire (real w) t); simpl; try discriminate.
    intros [= <-]. simpl. frame_done.
  - destruct (kind w) eqn:Ek; [discriminate|]. intros [= <-]. simpl.
    frame_done.
  - rewrite loop_step_cases. destruct (loop w) as [| |pc|pc|] eqn:El; simpl.
    + intros [= <-]. simpl. frame_done.
    + destruct c.
      * destruct (ticker w) as [t|]; [|discriminate].
        destruct (pending t); [|discriminate]. intros [= <-]. simpl.
        frame_done.
      * destruct (kind w) eqn:Ek; [discriminate|].
        destruct (ctx_done w) eqn:Ec; [|discriminate]. intros [= <-]. simpl.
        frame_done.
      * destruct (done (clock w)); [|discriminate]. intros [= <-]. simpl.
        frame_done.
    + destruct (updateClock_step arch (real w) pc (clock w))
        as [[pc' ac']| |] eqn:Es; simpl; try discriminate.
      destruct (updateClock_step_frame _ _ _ _ _ _ Es) as (Hcfg & Hcd).
      intros E.
      assert (clock w' = ac' /\ kind w' = kind w)
        as [-> ->] by (destruct pc'; injection E as <-; auto).
      repeat split; try apply Hcfg; try discriminate.
      destruct Hcd as [Hcd | (el & -> & Hcd)]; [left; assumption|].
      right; left. eauto.
    + destruct (kind w) eqn:Ek; [discriminate|].
      destruct (Stop_step pc (clock w)) as [[pc' ac']| |] eqn:Es; simpl;
        try discriminate.
      destruct (Stop_step_frame _ _ _ _ Es) as (Hcfg & _ & Hcd & _).
      intros E.
      assert (clock w' = ac' /\ kind w' = RunWithContext)
        as [-> ->] by (destruct pc'; injection E as <-; auto).
      repeat split; try apply Hcfg; try discriminate. left; assumption.
    + discriminate.
  - destruct op; intros [= <-]; simpl; frame_done.
  - unfold call_step. destruct (calls w !! i) as [[pc|pc|op]|] eqn:Ei;
      try discriminate.
    + destruct (Stop_step pc (clock w)) as [[pc' ac']| |] eqn:Es; simpl;
        try discriminate.
      destruct (Stop_step_frame _ _ _ _ Es) as (Hcfg & _ & Hcd & _).
      intros E.
      assert (clock w' = ac' /\ kind w' = kind w /\ loop w' = loop w)
        as (-> & -> & ->) by (destruct pc'; injection E as <-; auto).
      repeat split; try apply Hcfg; auto.
    + destruct (Reset_step (real w) pc (clock w)) as [[pc' ac']| |] eqn:Es;
        simpl; try discriminate.
      destruct (Reset_step_frame _ _ _ _ _ Es) as (Hcfg & Hcd & _).
      intros E.
      assert (clock w' = ac' /\ kind w' = kind w /\ loop w' = loop w)
        as (-> & -> & ->) by (destruct pc'; injection E as <-; auto).
      repeat split; try apply Hcfg; auto.
      destruct Hcd as [Hcd | (-> & -> & Hcd)]; [left; assumption|].
      right; right. exists i. injection E as <-. simpl. auto.
Qed.

Lemma exec_frame (es : list Event) (w w' : World) :
  exec arch es w = Ok w' ->
  same_config (clock w) (clock w') /\
  kind w' = kind w /\
  (loop w = LExit -> loop w' = LExit).
Proof.
  revert w. induction es as [|e es IH]; intros w; simpl.
  - intros [= <-]. auto using same_config_refl.
  - destruct (step arch e w) as [w1| |] eqn:Es; simpl; try discriminate.
    intros H. destruct (step_frame _ _ _ Es) as (C1 & K1 & L1 & _).
    destruct (IH _ H) as (C2 & K2 & L2).
    split; [eapply same_config_trans; eauto|].
    split; [congruence | auto].
Qed.

Lemma exec_app (es1 es2 : list Event) (w : World) :
  exec arch (es1 ++ es2) w = (w1 <-- exec arch es1 w ;; exec arch es2 w1).
Proof.
  revert w. induction es1 as [|e es1 IH]; intros w; simpl; [reflexivity|].
  destruct (step arch e w); simpl; auto.
Qed.

End Frame.

(** ** float64: digits, shifts and rounding *)

(** *** Number of binary digits *)

Lemma digits2_pos_size (p : positive) : digits2_pos p = Pos.size p.
Proof. induction p; simpl; congruence. Qed.

Lemma digits2_pos_bounds (p : positive) :
  2 ^ (Zpos (digits2_pos p) - 1) <= Zpos p < 2 ^ Zpos (digits2_pos p).
Proof.
  rewrite digits2_pos_size. split.
  - pose proof (Pos.size_le p) as H.
    assert (H' : 2 ^ Zpos (Pos.size p) <= 2 * Zpos p).
    { rewrite <- Pos2Z.inj_pow. exact H. }
    replace (Zpos (Pos.size p)) with ((Zpos (Pos.size p) - 1) + 1) in H' by lia.
    rewrite Z.pow_add_r in H' by lia. change (2 ^ 1) with 2 in H'. lia.
  - pose proof (Pos.size_gt p) as H.
    rewrite <- Pos2Z.inj_pow. exact H.
Qed.

Lemma Zdigits2_nonneg (m : Z) : 0 <= Zdigits2 m.
Proof. destruct m; simpl; lia. Qed.

Lemma Zdigits2_upper (m : Z) : 0 <= m -> m < 2 ^ Zdigits2 m.
Proof.
  destruct m as [|p|p]; simpl; intros H; try lia.
  apply digits2_pos_bounds.
Qed.

Lemma Zdigits2_le (m k : Z) : 0 <= m < 2 ^ k -> 0 <= k -> Zdigits2 m <= k.
Proof.
  destruct m as [|p|p]; simpl; intros [H0 H] Hk; try lia.
  pose proof (digits2_pos_bounds p) as [Hl _].
  assert (Hlt : 2 ^ (Zpos (digits2_pos p) - 1) < 2 ^ k) by lia.
  apply Z.pow_lt_mono_r_iff in Hlt; lia.
Qed.

(** *** Shifting right *)

Lemma shr_1_m (mrs : shr_record) :
  0 <= shr_m mrs -> shr_m (shr_1 mrs) = shr_m mrs / 2.
Proof.
  destruct mrs as [m r s]. simpl. intros H.
  destruct m as [|[p|p|]|p]; simpl; try lia;
    rewrite <- Z.div2_div; reflexivity.
Qed.

Lemma iter_pos_shr_1_m (p : positive) (mrs : shr_record) :
  0 <= shr_m mrs ->
  shr_m (SpecFloat.iter_pos shr_1 p mrs) = shr_m mrs / 2 ^ Zpos p.
Proof.
  revert mrs. induction p as [p IH|p IH|]; intros mrs H; simpl SpecFloat.iter_pos.
  - assert (H1 : 0 <= shr_m (shr_1 mrs)).
    { rewrite shr_1_m by assumption. apply Z.div_pos; lia. }
    assert (H2 : 0 <= shr_m (SpecFloat.iter_pos shr_1 p (shr_1 mrs))).
    { rewrite IH by assumption. apply Z.div_pos; [assumption|].
      apply Z.pow_pos_nonneg; lia. }
    rewrite IH, IH, shr_1_m by assumption.
    rewrite !Z.div_div by (try apply Z.pow_pos_nonneg; lia).
    f_equal. replace (Zpos p~1) with (1 + Zpos p + Zpos p) by lia.
    rewrite !Z.pow_add_r by lia. change (2 ^ 1) with 2. lia.
  - assert (H2 : 0 <= shr_m (SpecFloat.iter_pos shr_1 p mrs)).
    { rewrite IH by assumption. apply Z.div_pos; [assumption|].
      apply Z.pow_pos_nonneg; lia. }
    rewrite IH, IH by assumption.
    rewrite !Z.div_div by (try apply Z.pow_pos_nonneg; lia).
    f_equal. replace (Zpos p~0) with (Zpos p + Zpos p) by lia.
    rewrite !Z.pow_add_r by lia. reflexivity.
  - rewrite shr_1_m by assumption. reflexivity.
Qed.

(** [shr] divides the mantissa by [2^n] and adds [n] to the exponent,
    for positive [n]; otherwise it changes nothing. *)
Lemma shr_spec (mrs : shr_record) (e n : Z) :
  0 <= shr_m mrs ->
  shr_m (fst (shr mrs e n)) = shr_m mrs / 2 ^ Z.max n 0 /\
  snd (shr mrs e n) = e + Z.max n 0.
Proof.
  intros H. destruct n as [|p|p]; simpl.
  - rewrite Z.div_1_r. lia.
  - rewrite iter_pos_shr_1_m by assumption. split; [reflexivity | lia].
  - rewrite Z.div_1_r. lia.
Qed.

Lemma shr_record_of_loc_m (m : Z) (l : location) :
  shr_m (shr_record_of_loc m l) = m.
Proof. destruct l as [|[]]; reflexivity. Qed.

Lemma div_pow2_digits (m n : Z) :
  0 <= m -> 0 <= n ->
  0 <= m / 2 ^ n /\ Zdigits2 (m / 2 ^ n) <= Z.max (Zdigits2 m - n) 0.
Proof.
  intros Hm Hn.
  assert (Hp : 0 < 2 ^ n) by (apply Z.pow_pos_nonneg; lia).
  split; [apply Z.div_pos; lia|].
  pose proof (Zdigits2_upper m Hm) as Hu.
  pose proof (Zdigits2_nonneg m) as Hd.
  apply Zdigits2_le; [|lia].
  split; [apply Z.div_pos; lia|].
  apply Z.div_lt_upper_bound; [assumption|].
  rewrite <- Z.pow_add_r by lia.
  eapply Z.lt_le_trans; [exact Hu|].
  apply Z.pow_le_mono_r; lia.
Qed.

(** *** Rounding to nearest even *)

Lemma round_nearest_even_bounds (m : Z) (l : location) :
  m <= round_nearest_even m l <= m + 1.
Proof.
  destruct l as [|[]]; simpl; try lia.
  destruct (Z.even m); lia.
Qed.

Lemma Zdigits2_succ (m r : Z) :
  0 <= m -> m <= r <= m + 1 -> Zdigits2 r <= Zdigits2 m + 1.
Proof.
  intros Hm Hr.
  pose proof (Zdigits2_upper m Hm) as Hu.
  pose proof (Zdigits2_nonneg m) as Hd.
  apply Zdigits2_le; [|lia].
  split; [lia|].
  rewrite Z.pow_add_r by lia. change (2 ^ 1) with 2. lia.
Qed.

Lemma fexp_64 (e : Z) : fexp f64_prec f64_emax e = Z.max (e - 53) (-1074).
Proof. reflexivity. Qed.

Lemma shr_fexp_nonneg (mx ex : Z) (lx : location) :
  0 <= mx -> 0 <= shr_m (fst (shr_fexp f64_prec f64_emax mx ex lx)).
Proof.
  intros H. unfold shr_fexp.
  destruct (shr_spec (shr_record_of_loc mx lx) ex
              (fexp f64_prec f64_emax (Zdigits2 mx + ex) - ex)) as [Hm _].
  - rewrite shr_record_of_loc_m. assumption.
  - rewrite Hm, shr_record_of_loc_m. apply Z.div_pos; [assumption|].
    apply Z.pow_pos_nonneg; lia.
Qed.

Lemma shr_fexp_below (mx ex : Z) (lx : location) (K : Z) :
  0 <= mx -> Zdigits2 mx + ex <= K -> ex <= K -> -1074 <= K ->
  Zdigits2 (shr_m (fst (shr_fexp f64_prec f64_emax mx ex lx)))
  + snd (shr_fexp f64_prec f64_emax mx ex lx) <= K /\
  snd (shr_fexp f64_prec f64_emax mx ex lx) <= K.
Proof.
  intros Hm Hd He HK. unfold shr_fexp.
  destruct (shr_spec (shr_record_of_loc mx lx) ex
              (fexp f64_prec f64_emax (Zdigits2 mx + ex) - ex)) as [H1 H2].
  - rewrite shr_record_of_loc_m. assumption.
  - rewrite H1, H2, shr_record_of_loc_m, fexp_64.
    set (n := Z.max (Zdigits2 mx + ex - 53) (-1074) - ex).
    destruct (div_pow2_digits mx (Z.max n 0) Hm ltac:(lia)) as [_ Hdig].
    pose proof (Zdigits2_nonneg mx). subst n. lia.
Qed.

Lemma binary_round_aux_signed (sx : bool) (mx ex : Z) (lx : location) :
  0 <= mx -> f64_signed sx (binary_round_aux f64_prec f64_emax sx mx ex lx).
Proof.
  intros Hm. unfold binary_round_aux.
  pose proof (shr_fexp_nonneg mx ex lx Hm) as H1.
  destruct (shr_fexp f64_prec f64_emax mx ex lx) as [mrs' e']. simpl in H1.
  pose proof (round_nearest_even_bounds (shr_m mrs') (loc_of_shr_record mrs')) as Hr.
  pose proof (shr_fexp_nonneg
                (round_nearest_even (shr_m mrs') (loc_of_shr_record mrs'))
                e' loc_Exact ltac:(lia)) as H2.
  destruct (shr_fexp f64_prec f64_emax _ e' loc_Exact) as [mrs'' e'']. simpl in H2.
  destruct (shr_m mrs'') as [|m|m]; simpl; try lia; auto.
  destruct (e'' <=? f64_emax - f64_prec); reflexivity.
Qed.

Lemma binary_round_aux_below (sx : bool) (mx ex : Z) (lx : location) (M : Z) :
  0 <= mx -> Zdigits2 mx + ex <= M -> ex <= M -> -1074 <= M <= 900 ->
  f64_below (M + 1) sx (binary_round_aux f64_prec f64_emax sx mx ex lx).
Proof.
  intros Hm Hd He HM. unfold binary_round_aux.
  pose proof (shr_fexp_nonneg mx ex lx Hm) as H1.
  pose proof (shr_fexp_below mx ex lx M Hm Hd He ltac:(lia)) as [H1d H1e].
  destruct (shr_fexp f64_prec f64_emax mx ex lx) as [mrs' e']. simpl in *.
  pose proof (round_nearest_even_bounds (shr_m mrs') (loc_of_shr_record mrs')) as Hr.
  pose proof (Zdigits2_succ _ _ H1 Hr) as Hs.
  set (mr := round_nearest_even (shr_m mrs') (loc_of_shr_record mrs')) in *.
  pose proof (shr_fexp_nonneg mr e' loc_Exact ltac:(lia)) as H2.
  pose proof (shr_fexp_below mr e' loc_Exact (M + 1) ltac:(lia) ltac:(lia)
                ltac:(lia) ltac:(lia)) as [H2d H2e].
  destruct (shr_fexp f64_prec f64_emax mr e' loc_Exact) as [mrs'' e'']. simpl in *.
  destruct (shr_m mrs'') as [|m|m]; simpl; try lia; auto.
  assert (Hle : (e'' <=? f64_emax - f64_prec) = true).
  { apply Z.leb_le. unfold f64_emax, f64_prec. lia. }
  rewrite Hle. simpl. split; [reflexivity | exact H2d].
Qed.

(** *** Aligning to the left *)

Lemma digits2_pos_iter_xO (m d : positive) :
  Zpos (digits2_pos (Pos.iter xO m d)) = Zpos (digits2_pos m) + Zpos d.
Proof.
  induction d as [|d IH] using Pos.peano_ind.
  - simpl. lia.
  - rewrite Pos.iter_succ. simpl digits2_pos. lia.
Qed.

Lemma shl_align_digits (mx : positive) (ex ex' : Z) :
  Zpos (digits2_pos (fst (shl_align mx ex ex'))) + snd (shl_align mx ex ex')
  = Zpos (digits2_pos mx) + ex /\
  snd (shl_align mx ex ex') = Z.min ex ex'.
Proof.
  unfold shl_align. destruct (ex' - ex) as [|d|d] eqn:E; simpl; try lia.
  rewrite digits2_pos_iter_xO. lia.
Qed.

(** *** Rounding a scaled integer *)

Lemma binary_round_below (sx : bool) (mx : positive) (ex M : Z) :
  Zpos (digits2_pos mx) + ex <= M -> -1074 <= M <= 900 ->
  f64_below (M + 1) sx (binary_round f64_prec f64_emax sx mx ex).
Proof.
  intros Hd HM. unfold binary_round.
  pose proof (shl_align_digits mx ex
                (fexp f64_prec f64_emax (Zpos (digits2_pos mx) + ex))) as [H1 H2].
  destruct (shl_align mx ex _) as [mz ez]. simpl in *.
  apply binary_round_aux_below; simpl; try lia.
Qed.

Lemma binary_normalize_below (m e M : Z) (szero : bool) :
  Zdigits2 m + e <= M -> -1074 <= M <= 900 ->
  f64_below (M + 1) (m <? 0) (binary_normalize f64_prec f64_emax m e szero).
Proof.
  intros Hd HM. destruct m as [|p|p]; simpl in *.
  - exact I.
  - apply binary_round_below; assumption.
  - apply binary_round_below; assumption.
Qed.

Lemma f64_of_int_below (z : Z) :
  - 2 ^ 64 < z < 2 ^ 64 -> f64_below 65 (z <? 0) (f64_of_int z).
Proof.
  intros Hz. unfold f64_of_int.
  apply (binary_normalize_below z 0 64 false); [|lia].
  destruct z as [|p|p]; simpl.
  - lia.
  - pose proof (Zdigits2_le (Zpos p) 64). simpl in *. lia.
  - pose proof (Zdigits2_le (Zpos p) 64). simpl in *. lia.
Qed.

(** ** float64: the operations of [updateClock] *)

Lemma f64_below_mono (M M' : Z) (s : bool) (f : float64) :
  f64_below M s f -> M <= M' -> f64_below M' s f.
Proof. destruct f; simpl; intros H HM; try tauto. split; [tauto | lia]. Qed.

Lemma f64_below_signed (M : Z) (s : bool) (f : float64) :
  f64_below M s f -> f64_signed s f.
Proof. destruct f; simpl; tauto. Qed.

Lemma f64_below_finite (M : Z) (s : bool) (f : float64) :
  f64_below M s f -> f64_is_finite f = true.
Proof. destruct f; simpl; tauto. Qed.

(** *** Division *)

Lemma SFdiv_core_binary_below (m1 : positive) (e1 : Z) (m2 : positive) (e2 : Z) :
  let '(q, e', _) :=
    SFdiv_core_binary f64_prec f64_emax (Zpos m1) e1 (Zpos m2) e2 in
  0 <= q /\
  Zdigits2 q + e' <= Zpos (digits2_pos m1) + e1 - e2 /\
  e' <= e1 - e2.
Proof.
  unfold SFdiv_core_binary.
  set (d1 := Zdigits2 (Zpos m1)). set (d2 := Zdigits2 (Zpos m2)).
  set (e' := Z.min (fexp f64_prec f64_emax (d1 + e1 - (d2 + e2))) (e1 - e2)).
  set (s := e1 - e2 - e').
  set (m' := match s with
             | 0 => Zpos m1
             | Zpos _ => Z.shiftl (Zpos m1) s
             | Zneg _ => 0
             end).
  assert (Hs : 0 <= s) by (subst s e'; lia).
  assert (Hm' : m' = Zpos m1 * 2 ^ s).
  { subst m'. destruct s as [|p|p] eqn:Es; try lia.
    rewrite Z.shiftl_mul_pow2 by lia. reflexivity. }
  assert (Hq : Z.div_eucl m' (Zpos m2) = (m' / Zpos m2, m' mod Zpos m2)).
  { unfold Z.div, Z.modulo. destruct (Z.div_eucl m' (Zpos m2)). reflexivity. }
  rewrite Hq.
  assert (Hp : 0 < 2 ^ s) by (apply Z.pow_pos_nonneg; lia).
  assert (H0 : 0 <= m') by (rewrite Hm'; lia).
  assert (Hu : m' < 2 ^ (d1 + s)).
  { rewrite Hm', Z.pow_add_r by (subst d1; simpl; lia).
    apply Z.mul_lt_mono_pos_r; [assumption|].
    subst d1. apply (Zdigits2_upper (Zpos m1)). lia. }
  split; [apply Z.div_pos; lia|].
  split; [|subst s e'; lia].
  assert (Hdq : Zdigits2 (m' / Zpos m2) <= d1 + s).
  { apply Zdigits2_le; [|subst d1; simpl; lia].
    split; [apply Z.div_pos; lia|].
    eapply Z.le_lt_trans; [|exact Hu].
    apply Z.div_le_upper_bound; [lia|]. nia. }
  subst s d1. simpl in *. lia.
Qed.

Lemma f64_div_below (sx : bool) (x : float64) (sy : bool) (my : positive)
  (ey M : Z) :
  f64_below M sx x -> -1074 <= M - ey <= 900 ->
  f64_below (M - ey + 1) (xorb sx sy) (f64_div x (S754_finite sy my ey)).
Proof.
  destruct x as [s|s| |s mx ex]; simpl; try tauto.
  intros [-> Hd] HM.
  pose proof (SFdiv_core_binary_below mx ex my ey) as H.
  destruct (SFdiv_core_binary f64_prec f64_emax (Zpos mx) ex (Zpos my) ey)
    as [[q e'] l].
  destruct H as (Hq & Hdq & He).
  pose proof (Pos2Z.is_pos (digits2_pos mx)).
  apply binary_round_aux_below; lia.
Qed.

(** *** Addition of two numbers of one sign *)

Lemma f64_add_below (s : bool) (x y : float64) (M : Z) :
  f64_below M s x -> f64_below M s y -> -1074 <= M <= 898 ->
  f64_below (M + 2) s (f64_add x y).
Proof.
  intros Hx Hy HM.
  destruct x as [sx|sx| |sx mx ex], y as [sy|sy| |sy my ey]; simpl in *;
    try tauto.
  - destruct sx, sy; exact I.
  - split; [tauto | lia].
  - split; [tauto | lia].
  - destruct Hx as [-> Hx], Hy as [-> Hy].
    set (ez := Z.min ex ey).
    pose proof (shl_align_digits mx ex ez) as [Ha Hae].
    pose proof (shl_align_digits my ey ez) as [Hb Hbe].
    pose proof (digits2_pos_bounds (fst (shl_align mx ex ez))) as [_ Hua].
    pose proof (digits2_pos_bounds (fst (shl_align my ey ez))) as [_ Hub].
    set (ma := fst (shl_align mx ex ez)) in *.
    set (mb := fst (shl_align my ey ez)) in *.
    pose proof (Pos2Z.is_pos (digits2_pos mx)).
    pose proof (Pos2Z.is_pos (digits2_pos my)).
    assert (Hez : ez <= M) by (subst ez; lia).
    assert (Hpa : Zpos ma < 2 ^ (M - ez)).
    { eapply Z.lt_le_trans; [exact Hua|]. apply Z.pow_le_mono_r; lia. }
    assert (Hpb : Zpos mb < 2 ^ (M - ez)).
    { eapply Z.lt_le_trans; [exact Hub|]. apply Z.pow_le_mono_r; lia. }
    assert (Hpow : 2 ^ (M - ez + 1) = 2 * 2 ^ (M - ez)).
    { rewrite Z.pow_add_r by lia. change (2 ^ 1) with 2. lia. }
    assert (Hsum : Zdigits2 (Zpos ma + Zpos mb) <= M - ez + 1).
    { apply Zdigits2_le; lia. }
    assert (Hgoal : f64_below (M + 2) (cond_Zopp s (Zpos ma) + cond_Zopp s (Zpos mb) <? 0)
              (binary_normalize f64_prec f64_emax
                 (cond_Zopp s (Zpos ma) + cond_Zopp s (Zpos mb)) ez false)).
    { replace (M + 2) with (M + 1 + 1) by lia.
      apply (binary_normalize_below _ ez (M + 1) false); [|lia].
      destruct s; simpl cond_Zopp.
      - replace (- Zpos ma + - Zpos mb) with (- (Zpos ma + Zpos mb)) by lia.
        simpl Z.add in *. simpl Z.opp. simpl Zdigits2 in *. lia.
      - lia. }
    assert (Hsign : (cond_Zopp s (Zpos ma) + cond_Zopp s (Zpos mb) <? 0) = s).
    { destruct s; simpl cond_Zopp; [apply Z.ltb_lt | apply Z.ltb_ge]; lia. }
    rewrite Hsign in Hgoal. exact Hgoal.
Qed.

(** *** Multiplication *)

Lemma f64_mul_signed (sx : bool) (x : float64) (sy : bool) (my : positive) (ey : Z) :
  f64_signed sx x ->
  f64_signed (xorb sx sy) (f64_mul x (S754_finite sy my ey)).
Proof.
  destruct x as [s|s| |s mx ex]; simpl; try tauto.
  - intros ->. reflexivity.
  - intros ->. apply binary_round_aux_signed. lia.
Qed.

Lemma f64_mul_zero_r (x : float64) (sz : bool) :
  f64_is_finite x = true -> f64_is_zero (f64_mul x (S754_zero sz)) = true.
Proof. destruct x; simpl; intros H; try discriminate; reflexivity. Qed.

Lemma f64_mul_zero_l (x : float64) (sy : bool) (my : positive) (ey : Z) :
  f64_is_zero x = true -> f64_is_zero (f64_mul x (S754_finite sy my ey)) = true.
Proof. destruct x; simpl; intros H; try discriminate; reflexivity. Qed.

(** *** [Duration.Seconds] *)

Lemma f64_of_int_1e9 :
  f64_of_int 1000000000 = S754_finite false 8388608000000000 (-23).
Proof. vm_compute. reflexivity. Qed.

Lemma f64_of_int_Second :
  f64_of_int Second = S754_finite false 8388608000000000 (-23).
Proof. vm_compute. reflexivity. Qed.

Lemma f64_of_int_signed_below (z : Z) (s : bool) :
  - 2 ^ 64 < z < 2 ^ 64 -> (z = 0 \/ (z <? 0) = s) ->
  f64_below 65 s (f64_of_int z).
Proof.
  intros Hz [-> | <-]; [exact I|]. apply f64_of_int_below, Hz.
Qed.

Lemma Duration_Seconds_below (d : Duration) :
  in_int64 d = true -> f64_below 91 (d <? 0) (Duration_Seconds d).
Proof.
  intros Hd. unfold in_int64, minInt64, maxInt64 in Hd.
  apply andb_true_iff in Hd as [Hl Hu]. apply Z.leb_le in Hl, Hu.
  unfold Duration_Seconds. rewrite f64_of_int_1e9.
  assert (HS : Second = 1000000000) by reflexivity. rewrite HS.
  assert (Hqr : d = 1000000000 * Z.quot d 1000000000 + Z.rem d 1000000000)
    by apply Z.quot_rem'.
  assert (Hsign : (d <? 0) = true /\ Z.quot d 1000000000 <= 0
                  /\ -1000000000 < Z.rem d 1000000000 <= 0
                  \/ (d <? 0) = false /\ 0 <= Z.quot d 1000000000
                     /\ 0 <= Z.rem d 1000000000 < 1000000000).
  { destruct (d <? 0) eqn:E.
    - left. apply Z.ltb_lt in E. split; [reflexivity|].
      pose proof (Z.quot_opp_l d 1000000000 ltac:(lia)) as Ho.
      pose proof (Z.quot_pos (- d) 1000000000 ltac:(lia) ltac:(lia)) as Hp.
      pose proof (Z.rem_opp_l d 1000000000 ltac:(lia)) as Hro.
      pose proof (Z.rem_bound_pos (- d) 1000000000 ltac:(lia) ltac:(lia)) as Hrp.
      split; lia.
    - right. apply Z.ltb_ge in E. split; [reflexivity|].
      split; [apply Z.quot_pos; lia | apply Z.rem_bound_pos; lia]. }
  assert (Hq : - 2 ^ 64 < Z.quot d 1000000000 < 2 ^ 64) by lia.
  assert (Hr : - 2 ^ 64 < Z.rem d 1000000000 < 2 ^ 64) by lia.
  set (s := d <? 0) in *.
  assert (Ha : f64_below 65 s (f64_of_int (Z.quot d 1000000000))).
  { apply f64_of_int_signed_below; [assumption|].
    destruct Hsign as [(-> & H1 & _) | (-> & H1 & _)].
    - destruct (Z.eq_dec (Z.quot d 1000000000) 0); [left; assumption|].
      right. apply Z.ltb_lt. lia.
    - right. apply Z.ltb_ge. lia. }
  assert (Hb : f64_below 65 s (f64_of_int (Z.rem d 1000000000))).
  { apply f64_of_int_signed_below; [assumption|].
    destruct Hsign as [(-> & _ & H1) | (-> & _ & H1)].
    - destruct (Z.eq_dec (Z.rem d 1000000000) 0); [left; assumption|].
      right. apply Z.ltb_lt. lia.
    - right. apply Z.ltb_ge. lia. }
  pose proof (f64_div_below s _ false 8388608000000000 (-23) 65 Hb ltac:(lia)) as Hdiv.
  rewrite xorb_false_r in Hdiv.
  apply (f64_add_below s _ _ 89); [|exact Hdiv | lia].
  eapply f64_below_mono; [exact Ha | lia].
Qed.

(** ** The value a tick publishes *)

Lemma time_Since_range (rc : RealClock) (t : Time) :
  in_int64 (time_Since rc t) = true.
Proof.
  assert (Hsub : forall a b, in_int64 (subMono a b) = true).
  { intros a b. unfold subMono.
    destruct (_ && _); [reflexivity|]. destruct (_ && _); [reflexivity|].
    apply wrap64_range. }
  unfold time_Since, Time_Sub. destruct (mono t) as [ext|]; [apply Hsub|].
  simpl. unfold maxDuration, minDuration.
  destruct (rwall rc - wall t <? minInt64) eqn:E1; [reflexivity|].
  destruct (maxInt64 <? rwall rc - wall t) eqn:E2; [reflexivity|].
  apply in_int64_spec. apply Z.ltb_ge in E1, E2. lia.
Qed.

Lemma f64_trunc_signed_true (f : float64) (z : Z) :
  f64_signed true f -> f64_trunc f = Some z -> z <= 0.
Proof.
  destruct f as [s|s| |s m e]; simpl; try discriminate.
  - intros _ [= <-]. lia.
  - intros -> [= <-]. pose proof (proj2 (Z.shiftl_nonneg (Zpos m) e)). lia.
Qed.

Section Published.

Variable arch : float64 -> Z.

Lemma accelerated_eq (m : float64) (d : Duration) :
  accelerated arch m d = int64_of_float64 arch (accelerated_float m d).
Proof. reflexivity. Qed.

Lemma accelerated_zero (m : float64) (d : Duration) :
  f64_is_zero m = true -> in_int64 d = true -> accelerated arch m d = 0.
Proof.
  intros Hm Hd. rewrite accelerated_eq. unfold accelerated_float.
  destruct m as [sz| | |]; try discriminate.
  pose proof (f64_below_finite _ _ _ (Duration_Seconds_below d Hd)) as Hf.
  pose proof (f64_mul_zero_r _ sz Hf) as Hz.
  rewrite f64_of_int_Second.
  pose proof (f64_mul_zero_l _ false 8388608000000000 (-23) Hz) as Hz'.
  destruct (f64_mul (f64_mul (Duration_Seconds d) (S754_zero sz)) _);
    try discriminate.
  reflexivity.
Qed.

Lemma accelerated_float_negative (mm : positive) (em : Z) (d : Duration) :
  0 <= d -> in_int64 d = true ->
  f64_signed true (accelerated_float (S754_finite true mm em) d).
Proof.
  intros H0 Hd. unfold accelerated_float. rewrite f64_of_int_Second.
  pose proof (Duration_Seconds_below d Hd) as Hs.
  assert (E : (d <? 0) = false) by (apply Z.ltb_ge; lia). rewrite E in Hs.
  apply f64_below_signed in Hs.
  apply (f64_mul_signed true _ false).
  apply (f64_mul_signed false _ true). exact Hs.
Qed.

Lemma accelerated_negative (mm : positive) (em : Z) (d : Duration) :
  0 <= d -> in_int64 d = true ->
  f64_fits_int64 (accelerated_float (S754_finite true mm em) d) = true ->
  accelerated arch (S754_finite true mm em) d <= 0.
Proof.
  intros H0 Hd Hfit. rewrite accelerated_eq.
  pose proof (accelerated_float_negative mm em d H0 Hd) as Hs.
  unfold f64_fits_int64 in Hfit. unfold int64_of_float64.
  destruct (f64_trunc _) as [z|] eqn:Ez; [|discriminate].
  rewrite Hfit. eapply f64_trunc_signed_true; eauto.
Qed.

Lemma updateClock_sequential (rc : RealClock) (ac : QuickTick) :
  mu ac = false ->
  updateClock arch rc ac
  = Ok (store_currentDuration
          (accelerated arch (multiplier ac) (time_Since rc (startRealTime ac))) ac).
Proof.
  destruct ac as [m ti st srt cd dn mx o]. simpl. intros ->. reflexivity.
Qed.


End Published.

(** ** The constructors and [Now] *)

(** C10.  [New] and [NewCtx] store one sample of the real clock as both
    the virtual and the real epoch, so [Now()] starts at the real wall
    time.  [NewCustom] and [NewCustomCtx] store the caller's virtual
    epoch and sample the real epoch themselves: the two epochs agree
    only when the caller passes that very sample, and differ for
    instance for an epoch one hour in the past. *)
Theorem C10_default_and_custom_epochs
  (rc : RealClock) (st : Time) (m : float64) (d : Duration) :
  (startTime (New rc m) = time_Now rc /\
   startRealTime (New rc m) = startTime (New rc m)) /\
  (startTime (NewCtx rc m) = time_Now rc /\
   startRealTime (NewCtx rc m) = startTime (NewCtx rc m)) /\
  (wall (Now (New rc m)) = rwall rc /\ wall (Now (NewCtx rc m)) = rwall rc) /\
  (startTime (NewCustom rc st m d) = st /\
   startRealTime (NewCustom rc st m d) = time_Now rc) /\
  (startTime (NewCustomCtx rc st m d) = st /\
   startRealTime (NewCustomCtx rc st m d) = time_Now rc) /\
  (startTime (NewCustom rc st m d) = startRealTime (NewCustom rc st m d)
   <-> st = time_Now rc) /\
  (startTime (NewCustomCtx rc st m d) = startRealTime (NewCustomCtx rc st m d)
   <-> st = time_Now rc) /\
  startTime (NewCustom rc_0 epoch_0 m d)
    <> startRealTime (NewCustom rc_0 epoch_0 m d).
Proof.
  unfold Now; simpl. repeat split; auto; try lia; try discriminate.
Qed.

Section Claims.

Variable arch : float64 -> Z.

Lemma step_no_tick (e : Event) (w w' : World) :
  is_ticker e = false -> step arch e w = Ok w' ->
  no_tick_yet w -> no_tick_yet w'.
Proof.
  intros He Hs (H0 & Hl & Ht).
  destruct (step_frame arch _ _ _ Hs) as (_ & _ & _ & Hp).
  assert (Hcd : currentDuration (clock w') = 0).
  { destruct Hp as [Hp | [(el & c & _ & El & _) | (i & _ & _ & _ & Hp)]].
    - congruence.
    - exfalso. eapply Hl; eauto.
    - assumption. }
  split; [assumption|]. clear Hp Hcd.
  destruct e as [rc| | |c|op|i]; simpl in *; try discriminate.
  - destruct (_ && _); [|discriminate]. injection Hs as <-. simpl. auto.
  - destruct (kind w); [discriminate|]. injection Hs as <-. simpl. auto.
  - rewrite loop_step_cases in Hs.
    destruct (loop w) as [| |pc|pc|] eqn:El; simpl in Hs.
    + injection Hs as <-. simpl. split; [discriminate|].
      intros t [= <-]. reflexivity.
    + destruct c.
      * destruct (ticker w) as [t|] eqn:Et; [|discriminate].
        rewrite (Ht t eq_refl) in Hs. discriminate.
      * destruct (kind w); [discriminate|].
        destruct (ctx_done w); [|discriminate]. injection Hs as <-. simpl.
        split; [discriminate | assumption].
      * destruct (done (clock w)); [|discriminate]. injection Hs as <-. simpl.
        split; discriminate.
    + exfalso. eapply Hl; eauto.
    + destruct (kind w); [discriminate|].
      destruct (Stop_step pc (clock w)) as [[[pc'|] ac']| |]; simpl in Hs;
        try discriminate; injection Hs as <-; simpl;
        (split; [discriminate | first [assumption | discriminate]]).
    + discriminate.
  - destruct op; injection Hs as <-; simpl; auto.
  - unfold call_step in Hs. destruct (calls w !! i) as [[pc|pc|op]|]; try discriminate.
    + destruct (Stop_step pc (clock w)) as [[[pc'|] ac']| |]; simpl in Hs;
        try discriminate; injection Hs as <-; simpl; auto.
    + destruct (Reset_step (real w) pc (clock w)) as [[[pc'|] ac']| |];
        simpl in Hs; try discriminate; injection Hs as <-; simpl; auto.
Qed.

Lemma exec_no_tick (es : list Event) (w w' : World) :
  forallb (fun e => negb (is_ticker e)) es = true ->
  exec arch es w = Ok w' -> no_tick_yet w -> no_tick_yet w'.
Proof.
  revert w. induction es as [|e es IH]; intros w; simpl.
  - intros _ [= <-]. auto.
  - rewrite andb_true_iff, negb_true_iff. intros [He Hes].
    destruct (step arch e w) as [w1| |] eqn:Es; simpl; try discriminate.
    intros Hx Hn. eapply IH; eauto using step_no_tick.
Qed.

(** C2.  In every state a clock reaches from any of the four
    constructors, under any schedule of the background loop and of
    concurrent callers, [Now()] is the virtual epoch given at
    construction plus the published duration, and its wall instant is
    the sum of the two.  As long as the ticker has not fired, in
    particular right after construction, the published duration is zero
    and [Now()] is exactly the virtual epoch. *)
Theorem C2_Now_is_epoch_plus_published (w0 : World) (es : list Event) (w : World) :
  Initial w0 -> exec arch es w0 = Ok w ->
  Now (clock w) = Time_Add (startTime (clock w0)) (currentDuration (clock w)) /\
  wall (Now (clock w)) = wall (startTime (clock w0)) + currentDuration (clock w) /\
  (forallb (fun e => negb (is_ticker e)) es = true ->
   currentDuration (clock w) = 0 /\ Now (clock w) = startTime (clock w0)).
Proof.
  intros Hi He.
  destruct (exec_frame arch _ _ _ He) as ((_ & _ & Hst) & _).
  destruct (Initial_fresh _ Hi) as (Hwf & H0 & Hl & Ht & _).
  unfold Now. rewrite Hst.
  split; [reflexivity | split; [reflexivity|]].
  intros Hes.
  assert (Hn : no_tick_yet w0).
  { split; [assumption|]. rewrite Hl, Ht. split; intros; discriminate. }
  destruct (exec_no_tick _ _ _ Hes He Hn) as (Hcd & _).
  split; [exact Hcd|]. rewrite Hcd. apply Time_Add_zero, Hwf.
Qed.

End Claims.

(** ** [Stop] *)

Lemma Stop_step_done (pc : StopPC) (ac ac' : QuickTick) (pc' : option StopPC) :
  Stop_step pc ac = Ok (pc', ac') ->
  match pc with
  | SClose => done ac = false /\ done ac' = true
  | _ => done ac' = done ac
  end.
Proof.
  destruct ac as [m ti st srt cd dn mx [od om]].
  destruct pc, od, om, dn; simpl; intros H; inversion H; subst; auto.
Qed.

Lemma Reset_step_done (rc : RealClock) (pc : ResetPC) (ac ac' : QuickTick)
  (pc' : option ResetPC) :
  Reset_step rc pc ac = Ok (pc', ac') -> done ac' = done ac /\ once ac' = once ac.
Proof.
  destruct ac as [m ti st srt cd dn mx o].
  destruct pc, mx; simpl; intros H; inversion H; subst; auto.
Qed.

Lemma updateClock_step_done (arch : float64 -> Z) (rc : RealClock) (pc : UpdPC)
  (ac ac' : QuickTick) (pc' : option UpdPC) :
  updateClock_step arch rc pc ac = Ok (pc', ac') ->
  done ac' = done ac /\ once ac' = once ac.
Proof.
  destruct ac as [m ti st srt cd dn mx o].
  destruct pc, mx; simpl; intros H; inversion H; subst; auto.
Qed.

(** Run alone on a clock nobody is stopping, [Stop] closes the channel;
    on a stopped clock it changes nothing. *)
Lemma Stop_sequential (ac : QuickTick) :
  once_m (once ac) = false -> done ac = once_done (once ac) ->
  exists ac',
    Stop ac = Ok ac' /\ done ac' = true /\ once ac' = mkOnce true false /\
    same_config ac ac' /\ currentDuration ac' = currentDuration ac /\
    startRealTime ac' = startRealTime ac /\ mu ac' = mu ac /\
    Stop ac' = Ok ac'.
Proof.
  destruct ac as [m ti st srt cd dn mx [od om]]. simpl. intros -> ->.
  unfold Stop, Once_Do, same_config. destruct od; simpl; eexists; repeat split.
Qed.

Lemma Stop_stopped (ac : QuickTick) :
  once_done (once ac) = true ->
  Stop ac = Ok ac /\ Stop_step SFast ac = Ok (None, ac).
Proof. unfold Stop, Once_Do. simpl. intros ->. auto. Qed.

Section StopClaims.

Variable arch : float64 -> Z.

Lemma step_done (e : Event) (w w' : World) :
  step arch e w = Ok w' ->
  if closing e w
  then done (clock w) = false /\ done (clock w') = true
  else done (clock w') = done (clock w).
Proof.
  destruct e as [rc| | |c|op|i]; simpl.
  - destruct (_ && _); [|discriminate]. intros [= <-]. reflexivity.
  - destruct (ticker w) as [t|]; [|discriminate].
    destruct (Ticker_fire (real w) t); simpl; try discriminate.
    intros [= <-]. reflexivity.
  - destruct (kind w); [discriminate|]. intros [= <-]. reflexivity.
  - rewrite loop_step_cases. destruct (loop w) as [| |pc|pc|] eqn:El; simpl.
    + intros [= <-]. reflexivity.
    + destruct c.
      * destruct (ticker w) as [t|]; [|discriminate].
        destruct (pending t); [|discriminate]. intros [= <-]. reflexivity.
      * destruct (kind w); [discriminate|].
        destruct (ctx_done w); [|discriminate]. intros [= <-]. reflexivity.
      * destruct (done (clock w)) eqn:Ed; [|discriminate]. intros [= <-].
        simpl. congruence.
    + destruct (updateClock_step arch (real w) pc (clock w))
        as [[pc' ac']| |] eqn:Es; simpl; try discriminate.
      destruct (updateClock_step_done _ _ _ _ _ _ Es) as [Hd _].
      intros E. assert (clock w' = ac') as -> by (destruct pc'; injection E as <-; auto).
      assumption.
    + destruct (kind w); [destruct pc; discriminate|].
      destruct (Stop_step pc (clock w)) as [[pc' ac']| |] eqn:Es; simpl;
        try discriminate.
      pose proof (Stop_step_done _ _ _ _ Es) as Hd.
      intros E. assert (clock w' = ac') as -> by (destruct pc'; injection E as <-; auto).
      destruct pc; assumption.
    + discriminate.
  - destruct op; intros [= <-]; reflexivity.
  - unfold call_step. destruct (calls w !! i) as [[pc|pc|op]|] eqn:Ei;
      try discriminate.
    + destruct (Stop_step pc (clock w)) as [[pc' ac']| |] eqn:Es; simpl;
        try discriminate.
      pose proof (Stop_step_done _ _ _ _ Es) as Hd.
      intros E. assert (clock w' = ac') as -> by (destruct pc'; injection E as <-; auto).
      destruct pc; assumption.
    + destruct (Reset_step (real w) pc (clock w)) as [[pc' ac']| |] eqn:Es;
        simpl; try discriminate.
      destruct (Reset_step_done _ _ _ _ _ Es) as [Hd _].
      intros E. assert (clock w' = ac') as -> by (destruct pc'; injection E as <-; auto).
      assumption.
Qed.

Lemma closes_done (es : list Event) (w w' : World) :
  exec arch es w = Ok w' ->
  (closes arch es w + b2n (done (clock w)) = b2n (done (clock w')))%nat.
Proof.
  revert w. induction es as [|e es IH]; intros w; simpl.
  - intros [= <-]. reflexivity.
  - destruct (step arch e w) as [w1| |] eqn:Es; simpl; try discriminate.
    intros He. specialize (IH _ He). pose proof (step_done _ _ _ Es) as Hd.
    destruct (closing e w).
    + destruct Hd as [-> Hd]. rewrite Hd in IH. simpl in *. lia.
    + rewrite <- Hd. lia.
Qed.

Lemma reachable_Inv (w0 : World) (es : list Event) (w : World) :
  Initial w0 -> exec arch es w0 = Ok w -> Inv w.
Proof.
  intros Hi He. pose proof (exec_sound arch es w0 (Initial_Inv w0 Hi)) as H.
  rewrite He in H. exact H.
Qed.

(** Whenever a tick reads it, the elapsed real time is not negative. *)
Lemma Inv_elapsed_nonneg (w : World) :
  Inv w -> 0 <= time_Since (real w) (startRealTime (clock w)) <= maxInt64.
Proof.
  intros [_ _ _ (ext & He & Hle & Hr & Hwf)]. unfold time_Since. rewrite He.
  apply subMono_nonneg; assumption.
Qed.

Lemma Inv_no_panic (w : World) (es : list Event) :
  Inv w -> exec arch es w <> Panic.
Proof.
  intros HI E. pose proof (exec_sound arch es w HI) as H.
  rewrite E in H. exact H.
Qed.

Lemma ticker_period_Millisecond (w0 : World) (es : list Event) (w : World)
  (t : Ticker) :
  Initial w0 -> exec arch es w0 = Ok w -> ticker w = Some t ->
  period t = Millisecond.
Proof.
  intros Hi He Ht. destruct (reachable_Inv _ _ _ Hi He) as [_ _ [_ Hl] _].
  destruct (loop w); try congruence;
    destruct Hl as (t' & Ht' & Hp); congruence.
Qed.

(** C5.  In every reachable state, whatever the callers and the loop do
    next, nothing panics.  Along the schedule [close(ac.done)] has run
    at most once, and exactly once as soon as one [Stop()] has returned,
    the channel being closed then.  Once the flag of [once] is set,
    [Stop()] returns at its first step and leaves the clock as it is;
    and on a fresh clock a second [Stop()] after the first changes
    nothing. *)
Theorem C5_Stop_idempotent_exactly_once (w0 : World) (es : list Event) (w : World) :
  Initial w0 -> exec arch es w0 = Ok w ->
  (forall es', exec arch es' w <> Panic) /\
  (closes arch es w0 <= 1)%nat /\
  (forall i, calls w !! i = Some (CReturned OpStop) ->
     closes arch es w0 = 1%nat /\ done (clock w) = true) /\
  (once_done (once (clock w)) = true ->
     Stop (clock w) = Ok (clock w) /\
     Stop_step SFast (clock w) = Ok (None, clock w)) /\
  (exists ac1, Stop (clock w0) = Ok ac1 /\ done ac1 = true /\ Stop ac1 = Ok ac1).
Proof.
  intros Hi He.
  pose proof (reachable_Inv _ _ _ Hi He) as HI.
  pose proof (closes_done _ _ _ He) as Hc.
  destruct (Initial_fresh _ Hi) as (_ & _ & _ & _ & _ & Hd0).
  rewrite Hd0 in Hc. simpl in Hc.
  split; [intros es'; apply Inv_no_panic, HI|].
  split; [destruct (done (clock w)); simpl in Hc; lia|].
  split.
  { intros i Hr. destruct HI as [[_ _ Hcl _ _ Hret] _ _ _].
    specialize (Hcl (Hret _ Hr)). rewrite Hcl in Hc. simpl in Hc.
    split; [lia | assumption]. }
  split; [apply Stop_stopped|].
  destruct (Stop_sequential (clock w0)) as (ac1 & H1 & H2 & _ & _ & _ & _ & _ & H3).
  - destruct Hi; reflexivity.
  - destruct Hi; reflexivity.
  - eauto.
Qed.

End StopClaims.

(** ** Calls, seen from outside *)

Lemma lookup_last {A : Type} (l : list A) (x : A) :
  (l ++ [x]) !! length l = Some x.
Proof. induction l; simpl; auto. Qed.

Lemma insert_last {A : Type} (l : list A) (x y : A) :
  <[length l := y]> (l ++ [x]) = l ++ [y].
Proof. induction l; simpl; f_equal; auto. Qed.

Lemma forallb_lookup {A : Type} (f : A -> bool) (l : list A) (i : nat) (x : A) :
  forallb f l = true -> l !! i = Some x -> f x = true.
Proof.
  revert i. induction l as [|y l IH]; intros [|i]; simpl; try discriminate;
    rewrite andb_true_iff; intros [Hy Hl] Hi.
  - congruence.
  - eauto.
Qed.

Lemma forallb_insert {A : Type} (f : A -> bool) (l : list A) (i : nat) (y : A) :
  forallb f l = true -> f y = true -> forallb f (<[i := y]> l) = true.
Proof.
  revert i. induction l as [|z l IH]; intros [|i]; simpl; auto;
    rewrite !andb_true_iff; intros [Hz Hl] Hy; auto.
Qed.

Section Calls.

Variable arch : float64 -> Z.

Lemma call_step_inv (i : nat) (w w' : World) :
  step arch (EvStep i) w = Ok w' ->
  exists c c',
    calls w !! i = Some c /\
    calls w' = <[i := c']> (calls w) /\
    loop w' = loop w /\ ticker w' = ticker w /\ real w' = real w /\
    call_moves c c' (currentDuration (clock w)) (currentDuration (clock w')).
Proof.
  simpl. unfold call_step.
  destruct (calls w !! i) as [[pc|pc|op]|] eqn:Ei; try discriminate.
  - destruct (Stop_step pc (clock w)) as [[pc' ac']| |] eqn:Es; simpl;
      try discriminate.
    destruct (Stop_step_frame _ _ _ _ Es) as (_ & _ & Hcd & _).
    intros E. exists (CStop pc).
    destruct pc'; injection E as <-; eexists; simpl; repeat split; auto.
  - destruct (Reset_step (real w) pc (clock w)) as [[pc' ac']| |] eqn:Es;
      simpl; try discriminate.
    intros E. exists (CReset pc).
    destruct pc, (clock w) as [m ti st srt cd dn [] o]; simpl in Es;
      try discriminate; injection Es as <- <-; injection E as <-;
      eexists; simpl; repeat split; auto.
Qed.

End Calls.

(** ** After the loop has returned *)

Section AfterExit.

Variable arch : float64 -> Z.

Lemma step_after_exit (e : Event) (w w' : World) :
  loop w = LExit -> step arch e w = Ok w' ->
  loop w' = LExit /\
  (currentDuration (clock w') = currentDuration (clock w) \/
   currentDuration (clock w') = 0).
Proof.
  intros Hl Hs. destruct (step_frame arch _ _ _ Hs) as (_ & _ & Hx & Hp).
  split; [auto|].
  destruct Hp as [Hp | [(el & c & _ & El & _) | (i & _ & _ & _ & Hp)]]; auto.
  congruence.
Qed.

Lemma step_no_Reset (e : Event) (w w' : World) :
  loop w = LExit -> is_reset_call e = false ->
  forallb (fun c => negb (reset_before_store c)) (calls w) = true ->
  step arch e w = Ok w' ->
  currentDuration (clock w') = currentDuration (clock w) /\
  forallb (fun c => negb (reset_before_store c)) (calls w') = true.
Proof.
  intros Hl He Hr Hs.
  destruct e as [rc| | |c|op|i].
  - simpl in Hs. destruct (_ && _); [|discriminate]. injection Hs as <-. auto.
  - simpl in Hs. destruct (ticker w) as [t|]; [|discriminate].
    destruct (Ticker_fire (real w) t); simpl in Hs; try discriminate.
    injection Hs as <-. auto.
  - simpl in Hs. destruct (kind w); [discriminate|]. injection Hs as <-. auto.
  - simpl in Hs. rewrite loop_step_cases, Hl in Hs. discriminate.
  - destruct op; [|discriminate]. injection Hs as <-. simpl.
    split; [reflexivity|]. rewrite forallb_app, Hr. reflexivity.
  - destruct (call_step_inv arch _ _ _ Hs) as (c & c' & Hi & -> & _ & _ & _ & Hm).
    pose proof (forallb_lookup _ _ _ _ Hr Hi) as Hc.
    destruct c as [pc|[]|op]; try discriminate;
      destruct c' as [pc'|[]|[]]; simpl in Hm; try contradiction;
      (split; [assumption | apply forallb_insert; auto]).
Qed.

Lemma exec_after_exit (es : list Event) (w w' : World) :
  loop w = LExit -> exec arch es w = Ok w' ->
  loop w' = LExit /\
  (currentDuration (clock w') = currentDuration (clock w) \/
   currentDuration (clock w') = 0) /\
  (forallb (fun c => negb (reset_before_store c)) (calls w) = true ->
   forallb (fun e => negb (is_reset_call e)) es = true ->
   currentDuration (clock w') = currentDuration (clock w)).
Proof.
  revert w. induction es as [|e es IH]; intros w Hl; simpl.
  - intros [= <-]. auto.
  - destruct (step arch e w) as [w1| |] eqn:Es; simpl; try discriminate.
    intros He. destruct (step_after_exit _ _ _ Hl Es) as (Hl1 & Hcd1).
    destruct (IH _ Hl1 He) as (Hl' & Hcd' & Hfr).
    split; [assumption|]. split.
    + destruct Hcd' as [-> | ->]; auto.
    + rewrite andb_true_iff, negb_true_iff. intros Hr [He1 Hes].
      destruct (step_no_Reset _ _ _ Hl He1 Hr Es) as (E1 & Hr1).
      rewrite (Hfr Hr1 Hes). exact E1.
Qed.

(** C7, as amended.  Once the loop has returned it stays returned and
    its ticker is stopped, whatever happens next.  From then on the
    published duration is the value the loop left or the zero of a
    [Reset()].  As long as no [Reset()] stores (none is in flight ahead
    of its store, none is called), [Now()] keeps returning the same
    time, however far the real clocks advance. *)
Theorem C7_frozen_after_exit
  (w0 : World) (es0 : list Event) (w : World) (es : list Event) (w' : World) :
  Initial w0 -> exec arch es0 w0 = Ok w -> loop w = LExit ->
  exec arch es w = Ok w' ->
  (loop w' = LExit /\ ticker w' = None) /\
  (currentDuration (clock w') = currentDuration (clock w) \/
   currentDuration (clock w') = 0) /\
  (forallb (fun c => negb (reset_before_store c)) (calls w) = true ->
   forallb (fun e => negb (is_reset_call e)) es = true ->
   Now (clock w') = Now (clock w)).
Proof.
  intros Hi He0 Hl He.
  destruct (exec_after_exit _ _ _ Hl He) as (Hl' & Hcd & Hfr).
  destruct (exec_frame arch _ _ _ He) as ((_ & _ & Hst) & _).
  assert (HI : Inv w').
  { apply (reachable_Inv arch w0 (es0 ++ es)); [assumption|].
    rewrite exec_app, He0. exact He. }
  split.
  { split; [assumption|]. destruct HI as [_ _ [_ Ht] _]. rewrite Hl' in Ht. exact Ht. }
  split; [assumption|].
  intros Hr Hes. unfold Now. rewrite Hst, (Hfr Hr Hes). reflexivity.
Qed.

(** *** [Reset] on a clock whose loop has returned *)

Lemma Reset_sequential (rc : RealClock) (ac : QuickTick) :
  mu ac = false ->
  exists ac',
    Reset rc ac = Ok ac' /\
    startRealTime ac' = time_Now rc /\ currentDuration ac' = 0 /\
    same_config ac ac' /\
    done ac' = done ac /\ once ac' = once ac /\ mu ac' = mu ac.
Proof.
  destruct ac as [m ti st srt cd dn mx o]. simpl. intros ->.
  unfold Reset, same_config. simpl. eexists. repeat split.
Qed.

Lemma Reset_alone (w : World) (ac' : QuickTick) :
  Reset (real w) (clock w) = Ok ac' ->
  exec arch (call_alone OpReset (length (calls w)) 4) w
  = Ok (with_calls w (calls w ++ [CReturned OpReset]) ac').
Proof.
  destruct w as [[m ti st srt cd dn mx o] rc k cx tk lp cs].
  unfold Reset. simpl. destruct mx; simpl; [discriminate|]. intros [= <-].
  unfold call_step; simpl.
  rewrite lookup_last; simpl. rewrite insert_last.
  unfold call_step; simpl.
  rewrite lookup_last; simpl. rewrite insert_last.
  unfold call_step; simpl.
  rewrite lookup_last; simpl. rewrite insert_last.
  unfold call_step; simpl.
  rewrite lookup_last; simpl. rewrite insert_last.
  reflexivity.
Qed.

Lemma step_late_Reset (n0 : nat) (e : Event) (w w' : World) :
  loop w = LExit -> step arch e w = Ok w' ->
  currentDuration (clock w) = 0 \/ no_late_Reset_stored n0 w ->
  currentDuration (clock w') = 0 \/ no_late_Reset_stored n0 w'.
Proof.
  intros Hl Hs [H0 | Hn].
  - left. destruct (step_after_exit _ _ _ Hl Hs) as (_ & [-> | ->]); auto.
  - destruct e as [rc| | |c|op|i].
    + simpl in Hs. destruct (_ && _); [|discriminate]. injection Hs as <-. auto.
    + simpl in Hs. destruct (ticker w) as [t|]; [|discriminate].
      destruct (Ticker_fire (real w) t); simpl in Hs; try discriminate.
      injection Hs as <-. auto.
    + simpl in Hs. destruct (kind w); [discriminate|]. injection Hs as <-. auto.
    + simpl in Hs. rewrite loop_step_cases, Hl in Hs. discriminate.
    + right. intros j c Hj Hc.
      assert (Hc' : (calls w ++ [match op with OpStop => CStop SFast
                                 | OpReset => CReset RLock end]) !! j = Some c)
        by (destruct op; injection Hs as <-; exact Hc).
      apply lookup_app_Some in Hc' as [Hc' | [_ Hc']]; [eauto|].
      destruct (j - length (calls w))%nat; simpl in Hc'; [|discriminate].
      destruct op; injection Hc' as <-; reflexivity.
    + destruct (call_step_inv arch _ _ _ Hs) as (c & c' & Hi & Hcs & _ & _ & _ & Hm).
      destruct (decide (n0 <= i)%nat) as [Hle|Hlt].
      * pose proof (Hn _ _ Hle Hi) as Hc.
        destruct c as [pc|[]|[]]; try discriminate;
          destruct c' as [pc'|[]|[]]; simpl in Hm; try contradiction;
          try (left; assumption);
          (right; intros j c0 Hj Hc0; rewrite Hcs in Hc0;
           destruct (lookup_insert_cases _ _ _ _ _ _ Hi Hc0) as [[-> ->]|[_ Hc1]];
           [reflexivity | eauto]).
      * right. intros j c0 Hj Hc0. rewrite Hcs in Hc0.
        destruct (lookup_insert_cases _ _ _ _ _ _ Hi Hc0) as [[-> ->]|[_ Hc1]];
          [lia | eauto].
Qed.

Lemma exec_late_Reset (n0 : nat) (es : list Event) (w w' : World) :
  loop w = LExit -> exec arch es w = Ok w' ->
  currentDuration (clock w) = 0 \/ no_late_Reset_stored n0 w ->
  currentDuration (clock w') = 0 \/ no_late_Reset_stored n0 w'.
Proof.
  revert w. induction es as [|e es IH]; intros w Hl; simpl.
  - intros [= <-]. auto.
  - destruct (step arch e w) as [w1| |] eqn:Es; simpl; try discriminate.
    intros He H. destruct (step_after_exit _ _ _ Hl Es) as (Hl1 & _).
    eapply IH; eauto using step_late_Reset.
Qed.

(** C8.  On a clock whose loop has returned, [Reset()] runs to its end
    when [mu] is free, step by step as it does on its own.  In every
    later state in which a [Reset()] called after the loop returned has
    itself returned, whatever else happened, the published duration is
    zero and [Now()] is the virtual epoch given at construction. *)
Theorem C8_Reset_after_exit_is_permanent
  (w0 : World) (es0 : list Event) (w : World) :
  Initial w0 -> exec arch es0 w0 = Ok w -> loop w = LExit ->
  (mu (clock w) = false ->
   exists ac',
     Reset (real w) (clock w) = Ok ac' /\
     exec arch (call_alone OpReset (length (calls w)) 4) w
     = Ok (with_calls w (calls w ++ [CReturned OpReset]) ac')) /\
  (forall es w' j,
     exec arch es w = Ok w' ->
     (length (calls w) <= j)%nat ->
     calls w' !! j = Some (CReturned OpReset) ->
     currentDuration (clock w') = 0 /\
     Now (clock w') = startTime (clock w0)).
Proof.
  intros Hi He0 Hl. split.
  - intros Hmu. destruct (Reset_sequential (real w) (clock w) Hmu) as (ac' & Hr & _).
    exists ac'. split; [assumption | apply Reset_alone; assumption].
  - intros es w' j He Hj Hc.
    assert (H0 : currentDuration (clock w') = 0).
    { destruct (exec_late_Reset (length (calls w)) _ _ _ Hl He) as [H0 | Hn].
      - right. intros k c Hk Hkc. apply lookup_ge_None_2 in Hk. congruence.
      - assumption.
      - specialize (Hn _ _ Hj Hc). discriminate. }
    split; [assumption|].
    destruct (exec_frame arch _ _ _ He0) as ((_ & _ & Hst0) & _).
    destruct (exec_frame arch _ _ _ He) as ((_ & _ & Hst) & _).
    destruct (Initial_fresh _ Hi) as (Hwf & _).
    rewrite <- Hst0, <- Hst. apply Now_fresh; [|assumption].
    rewrite Hst, Hst0. assumption.
Qed.

End AfterExit.

(** ** Cancellation *)

Section Cancellation.

Variable arch : float64 -> Z.

Lemma Stop_loop_alone (w : World) :
  loop w = LSelect -> kind w = RunWithContext -> ctx_done w = true ->
  once_m (once (clock w)) = false ->
  done (clock w) = once_done (once (clock w)) ->
  exists ac' n,
    Stop (clock w) = Ok ac' /\ done ac' = true /\
    exec arch (repeat (EvLoop CaseCtx) n) w = Ok (loop_return w ac').
Proof.
  destruct w as [[m ti st srt cd dn mx [od om]] rc k cx tk lp cs]. simpl.
  intros -> -> -> -> ->. unfold Stop, Once_Do. simpl. destruct od; simpl.
  - eexists. exists 2%nat. repeat split.
  - eexists. exists 7%nat. repeat split.
Qed.

Lemma Stop_call_alone (w : World) :
  loop w = LSelect ->
  once_m (once (clock w)) = false ->
  done (clock w) = once_done (once (clock w)) ->
  exists ac' n,
    Stop (clock w) = Ok ac' /\
    exec arch (call_alone OpStop (length (calls w)) n ++ [EvLoop CaseDone]) w
    = Ok (loop_return (with_calls w (calls w ++ [CReturned OpStop]) ac') ac').
Proof.
  destruct w as [[m ti st srt cd dn mx [od om]] rc k cx tk lp cs]. simpl.
  intros -> -> ->. unfold Stop, Once_Do. simpl. destruct od, k; simpl.
  - eexists. exists 1%nat. split; [reflexivity|]. simpl.
    unfold call_step; simpl. rewrite lookup_last; simpl. rewrite insert_last.
    reflexivity.
  - eexists. exists 1%nat. split; [reflexivity|]. simpl.
    unfold call_step; simpl. rewrite lookup_last; simpl. rewrite insert_last.
    reflexivity.
  - eexists. exists 6%nat. split; [reflexivity|]. simpl.
    do 6 (unfold call_step; simpl; rewrite lookup_last; simpl; rewrite insert_last).
    reflexivity.
  - eexists. exists 6%nat. split; [reflexivity|]. simpl.
    do 6 (unfold call_step; simpl; rewrite lookup_last; simpl; rewrite insert_last).
    reflexivity.
Qed.

(** C9.  For a clock built with a context, once the context is cancelled
    and the loop is at its [select], the context case can be taken and
    leads into [ac.Stop()].  Whatever the callers do meanwhile, nothing
    panics, and whenever the loop has returned the channel is closed and
    the ticker stopped.  Left alone while no one holds the mutex of
    [once], the loop ends in the clock state that [Stop()] returns: the
    very state reached by an explicit [Stop()] of a caller followed by
    the loop's return. *)
Theorem C9_cancellation_stops_like_Stop (w0 : World) (es : list Event) (w : World) :
  Initial w0 -> exec arch es w0 = Ok w ->
  kind w = RunWithContext -> ctx_done w = true -> loop w = LSelect ->
  step arch (EvLoop CaseCtx) w = Ok (with_loop w (LStop SFast) (clock w)) /\
  (forall es', exec arch es' w <> Panic) /\
  (forall es' w', exec arch es' w = Ok w' -> loop w' = LExit ->
     done (clock w') = true /\ ticker w' = None) /\
  (once_m (once (clock w)) = false ->
   exists ac' n n',
     Stop (clock w) = Ok ac' /\ done ac' = true /\
     exec arch (repeat (EvLoop CaseCtx) n) w = Ok (loop_return w ac') /\
     exec arch (call_alone OpStop (length (calls w)) n' ++ [EvLoop CaseDone]) w
     = Ok (loop_return (with_calls w (calls w ++ [CReturned OpStop]) ac') ac')).
Proof.
  intros Hi He Hk Hc Hl.
  pose proof (reachable_Inv arch _ _ _ Hi He) as HI.
  split; [simpl; rewrite loop_step_cases, Hl, Hk, Hc; reflexivity|].
  split; [intros es'; apply Inv_no_panic, HI|].
  split.
  { intros es' w' He' Hl'.
    assert (HI' : Inv w').
    { apply (reachable_Inv arch w0 (es ++ es')); [assumption|].
      rewrite exec_app, He. exact He'. }
    destruct HI' as [_ _ [Hx Ht] _]. rewrite Hl' in Ht. auto. }
  intros Hm. destruct HI as [[_ Hf _ _ _ _] _ _ _]. specialize (Hf Hm).
  destruct (Stop_loop_alone w Hl Hk Hc Hm Hf) as (ac' & n & Hs & Hd & Hr).
  destruct (Stop_call_alone w Hl Hm Hf) as (ac'' & n' & Hs' & Hr').
  assert (ac'' = ac') as -> by congruence.
  exists ac', n, n'. auto.
Qed.

End Cancellation.

(** ** The sample runs, evaluated *)

Lemma Initial_custom_500ms : Initial custom_500ms.
Proof. apply Initial_NewCustom; [reflexivity | exact I]. Qed.

Lemma Initial_twice_as_fast : Initial twice_as_fast.
Proof. apply Initial_New. reflexivity. Qed.

Lemma Initial_with_context : Initial with_context.
Proof. apply Initial_NewCtx. reflexivity. Qed.

Lemma run_one_tick :
  exec arch_amd64 one_tick custom_500ms = Ok ticked_500ms.
Proof. vm_compute. reflexivity. Qed.

Lemma run_tick_overtaken_by_Reset :
  exec arch_amd64 tick_overtaken_by_Reset twice_as_fast = Ok overtaken.
Proof. vm_compute. reflexivity. Qed.

Lemma run_two_racing_Stops :
  exec arch_amd64 two_racing_Stops twice_as_fast = Ok stopped_twice.
Proof. vm_compute. reflexivity. Qed.

Lemma run_tick_then_Stop :
  exec arch_amd64 tick_then_Stop custom_500ms = Ok stopped_500ms.
Proof. vm_compute. reflexivity. Qed.

Lemma run_an_hour_later :
  exec arch_amd64 an_hour_later stopped_500ms = Ok stopped_500ms_later.
Proof. vm_compute. reflexivity. Qed.

Lemma run_Reset_an_hour_later :
  exec arch_amd64 Reset_an_hour_later stopped_500ms
  = Ok (reset_500ms [CReturned OpStop; CReturned OpReset]).
Proof. vm_compute. reflexivity. Qed.

Lemma run_Reset_and_more_calls :
  exec arch_amd64 (Reset_an_hour_later ++ and_more_calls) stopped_500ms
  = Ok (reset_500ms [CReturned OpStop; CReturned OpReset;
                     CReturned OpStop; CReturned OpReset]).
Proof. vm_compute. reflexivity. Qed.

Lemma run_start_then_cancel :
  exec arch_amd64 start_then_cancel with_context = Ok cancelled.
Proof. vm_compute. reflexivity. Qed.

(** ** The claims on the sample runs *)

(** C1 (the code departs from its documentation).  [NewCustom] documents
    [updateInterval] as the interval at which the clock will update, but
    [run] and [runWithContext] create their ticker with
    [time.NewTicker(time.Millisecond)] and never read [tickerInterval].
    On [NewCustom(epoch, 1.5, 500*time.Millisecond)], one millisecond
    after the start: the stored interval is 500 ms, the period of the
    ticker is 1 ms, and a tick has already published 1.5 ms of virtual
    time. *)
Theorem C1_ticker_ignores_updateInterval :
  exec arch_amd64 one_tick custom_500ms = Ok ticked_500ms /\
  tickerInterval (clock ticked_500ms) = 500 * Millisecond /\
  option_map period (ticker ticked_500ms) = Some Millisecond /\
  time_Since (real ticked_500ms) (startRealTime (clock ticked_500ms)) = Millisecond /\
  currentDuration (clock ticked_500ms) = 1500000.
Proof. split; [exact run_one_tick|]. vm_compute. auto. Qed.

(** C4 (a slip in [updateClock]).  [updateClock] releases [mu] right after
    reading the elapsed time and stores its result outside the critical
    section, whereas [Reset] keeps its store of zero inside it.  On
    [New(2.0)] a tick reads one second of elapsed time and unlocks,
    [Reset()] then runs from start to end, and only then does the tick
    store: [Reset()] has returned, the real epoch is the new one, no real
    time has passed since (a tick against the new epoch would publish
    zero), and yet the published duration is two seconds. *)
Theorem C4_stale_tick_published_after_Reset :
  exec arch_amd64 tick_overtaken_by_Reset twice_as_fast = Ok overtaken /\
  calls overtaken = [CReturned OpReset] /\
  startRealTime (clock overtaken) = time_Now rc_1s /\
  time_Since (real overtaken) (startRealTime (clock overtaken)) = 0 /\
  accelerated arch_amd64 (multiplier (clock overtaken)) 0 = 0 /\
  currentDuration (clock overtaken) = 2 * Second.
Proof. split; [exact run_tick_overtaken_by_Reset|]. vm_compute. auto 10. Qed.

Lemma C2_witness :
  Initial custom_500ms /\
  exec arch_amd64 one_tick custom_500ms = Ok ticked_500ms /\
  Now (clock ticked_500ms)
  = Time_Add (startTime (clock custom_500ms)) (currentDuration (clock ticked_500ms)) /\
  wall (Now (clock ticked_500ms))
  = wall (startTime (clock custom_500ms)) + currentDuration (clock ticked_500ms).
Proof.
  split; [exact Initial_custom_500ms|]. split; [exact run_one_tick|].
  split.
  - exact (proj1 (C2_Now_is_epoch_plus_published arch_amd64 custom_500ms one_tick
                    ticked_500ms Initial_custom_500ms run_one_tick)).
  - exact (proj1 (proj2 (C2_Now_is_epoch_plus_published arch_amd64 custom_500ms
                           one_tick ticked_500ms Initial_custom_500ms run_one_tick))).
Defined.

Lemma C5_witness :
  Initial twice_as_fast /\
  exec arch_amd64 two_racing_Stops twice_as_fast = Ok stopped_twice /\
  closes arch_amd64 two_racing_Stops twice_as_fast = 1%nat /\
  done (clock stopped_twice) = true.
Proof.
  split; [exact Initial_twice_as_fast|]. split; [exact run_two_racing_Stops|].
  exact (proj1 (proj2 (proj2
    (C5_Stop_idempotent_exactly_once arch_amd64 twice_as_fast two_racing_Stops
       stopped_twice Initial_twice_as_fast run_two_racing_Stops))) 0%nat eq_refl).
Defined.

(** C7 as stated fails when [Reset()] is called after the loop has
    returned: after one tick and a [Stop()] the loop returns with 1.5 ms
    published; an hour later [Reset()] runs, and [Now()] has moved back
    to the virtual epoch. *)
Lemma C7_Reset_after_exit_moves_Now :
  exec arch_amd64 tick_then_Stop custom_500ms = Ok stopped_500ms /\
  loop stopped_500ms = LExit /\
  exec arch_amd64 Reset_an_hour_later stopped_500ms
  = Ok (reset_500ms [CReturned OpStop; CReturned OpReset]) /\
  wall (Now (clock stopped_500ms)) = wall epoch_0 + 1500000 /\
  wall (Now (clock (reset_500ms [CReturned OpStop; CReturned OpReset])))
  = wall epoch_0.
Proof.
  split; [exact run_tick_then_Stop|]. split; [reflexivity|].
  split; [exact run_Reset_an_hour_later|]. split; reflexivity.
Qed.

Lemma C7_witness :
  Initial custom_500ms /\
  exec arch_amd64 tick_then_Stop custom_500ms = Ok stopped_500ms /\
  loop stopped_500ms = LExit /\
  exec arch_amd64 an_hour_later stopped_500ms = Ok stopped_500ms_later /\
  real stopped_500ms_later = rc_1h /\
  Now (clock stopped_500ms_later) = Now (clock stopped_500ms).
Proof.
  split; [exact Initial_custom_500ms|]. split; [exact run_tick_then_Stop|].
  split; [reflexivity|]. split; [exact run_an_hour_later|].
  split; [reflexivity|].
  exact (proj2 (proj2
    (C7_frozen_after_exit arch_amd64 custom_500ms tick_then_Stop stopped_500ms
       an_hour_later stopped_500ms_later
       Initial_custom_500ms run_tick_then_Stop eq_refl run_an_hour_later))
    eq_refl eq_refl).
Defined.

Lemma C8_witness :
  Initial custom_500ms /\
  exec arch_amd64 tick_then_Stop custom_500ms = Ok stopped_500ms /\
  loop stopped_500ms = LExit /\
  currentDuration (clock stopped_500ms) = 1500000 /\
  exec arch_amd64 (Reset_an_hour_later ++ and_more_calls) stopped_500ms
  = Ok (reset_500ms [CReturned OpStop; CReturned OpReset;
                     CReturned OpStop; CReturned OpReset]) /\
  currentDuration
    (clock (reset_500ms [CReturned OpStop; CReturned OpReset;
                         CReturned OpStop; CReturned OpReset])) = 0 /\
  Now (clock (reset_500ms [CReturned OpStop; CReturned OpReset;
                           CReturned OpStop; CReturned OpReset]))
  = startTime (clock custom_500ms).
Proof.
  split; [exact Initial_custom_500ms|]. split; [exact run_tick_then_Stop|].
  split; [reflexivity|]. split; [reflexivity|].
  split; [exact run_Reset_and_more_calls|].
  exact (proj2
    (C8_Reset_after_exit_is_permanent arch_amd64 custom_500ms tick_then_Stop
       stopped_500ms Initial_custom_500ms run_tick_then_Stop eq_refl)
    (Reset_an_hour_later ++ and_more_calls) _ 1%nat
    run_Reset_and_more_calls (le_n 1) eq_refl).
Defined.

Lemma C9_witness :
  Initial with_context /\
  exec arch_amd64 start_then_cancel with_context = Ok cancelled /\
  kind cancelled = RunWithContext /\ ctx_done cancelled = true /\
  loop cancelled = LSelect /\
  step arch_amd64 (EvLoop CaseCtx) cancelled
  = Ok (with_loop cancelled (LStop SFast) (clock cancelled)) /\
  exists ac' n n',
    Stop (clock cancelled) = Ok ac' /\ done ac' = true /\
    exec arch_amd64 (repeat (EvLoop CaseCtx) n) cancelled
    = Ok (loop_return cancelled ac') /\
    exec arch_amd64
      (call_alone OpStop (length (calls cancelled)) n' ++ [EvLoop CaseDone]) cancelled
    = Ok (loop_return
            (with_calls cancelled (calls cancelled ++ [CReturned OpStop]) ac') ac').
Proof.
  split; [exact Initial_with_context|]. split; [exact run_start_then_cancel|].
  split; [reflexivity|]. split; [reflexivity|]. split; [reflexivity|].
  split.
  - exact (proj1
      (C9_cancellation_stops_like_Stop arch_amd64 with_context start_then_cancel
         cancelled Initial_with_context run_start_then_cancel
         eq_refl eq_refl eq_refl)).
  - exact (proj2 (proj2 (proj2
      (C9_cancellation_stops_like_Stop arch_amd64 with_context start_then_cancel
         cancelled Initial_with_context run_start_then_cancel
         eq_refl eq_refl eq_refl))) eq_refl).
Defined.

(** * Further properties of the code *)

(** ** The critical sections of [mu] *)

Lemma sum_list_with_pos {A : Type} (f : A -> nat) (l : list A) :
  (0 < sum_list_with f l)%nat -> exists i x, l !! i = Some x /\ (0 < f x)%nat.
Proof.
  induction l as [|y l IH]; simpl; [lia|]. intros H.
  destruct (f y) as [|n] eqn:E.
  - destruct IH as (i & x & Hi & Hx); [lia|]. exists (S i), x. auto.
  - exists 0%nat, y. split; [reflexivity | lia].
Qed.

Lemma call_in_mu_holds (c : CallPC) :
  call_in_mu c = true <-> call_holds_mu c = 1%nat.
Proof. unfold call_in_mu. destruct c as [pc|[]|op]; simpl; split; congruence. Qed.

Lemma loop_in_mu_holds (l : LoopPC) :
  loop_in_mu l = true <-> loop_holds_mu l = 1%nat.
Proof. unfold loop_in_mu. destruct l as [| |[]|pc|]; simpl; split; congruence. Qed.

Lemma Inv_mu_held_by_call (w : World) (i : nat) (c : CallPC) :
  Inv w -> calls w !! i = Some c -> call_in_mu c = true -> mu (clock w) = true.
Proof.
  intros [_ Hmu _ _] Hi Hc. apply call_in_mu_holds in Hc.
  pose proof (sum_list_with_lookup call_holds_mu _ _ _ Hi) as Hs.
  unfold mu_holders in Hmu. destruct (mu (clock w)); [reflexivity|].
  simpl in Hmu. lia.
Qed.

Lemma Inv_mu_held_by_loop (w : World) :
  Inv w -> loop_in_mu (loop w) = true -> mu (clock w) = true.
Proof.
  intros [_ Hmu _ _] Hl. apply loop_in_mu_holds in Hl.
  unfold mu_holders in Hmu. destruct (mu (clock w)); [reflexivity|].
  simpl in Hmu. lia.
Qed.

Lemma Inv_mu_holder (w : World) :
  Inv w -> mu (clock w) = true ->
  loop_in_mu (loop w) = true \/
  exists i c, calls w !! i = Some c /\ call_in_mu c = true.
Proof.
  intros [_ Hmu _ _] Hm. unfold mu_holders in Hmu. rewrite Hm in Hmu. simpl in Hmu.
  destruct (loop_holds_mu (loop w)) as [|n] eqn:El.
  - right. destruct (sum_list_with_pos call_holds_mu (calls w)) as (i & c & Hi & Hc);
      [lia|].
    exists i, c. split; [assumption|]. unfold call_in_mu.
    destruct (call_holds_mu c); [lia | reflexivity].
  - left. unfold loop_in_mu. rewrite El. reflexivity.
Qed.

Section CriticalSections.

Variable arch : float64 -> Z.

(** X1.  In every reachable state at most one goroutine is between
    [Lock] and [Unlock] of [mu]: never two calls of [Reset()], and never a
    [Reset()] together with the loop at its read of [startRealTime]; and
    [mu] is held exactly when one of them is there. *)
Theorem mu_mutual_exclusion (w0 : World) (es : list Event) (w : World) :
  Initial w0 -> exec arch es w0 = Ok w ->
  (forall i j ci cj,
     calls w !! i = Some ci -> calls w !! j = Some cj ->
     call_in_mu ci = true -> call_in_mu cj = true -> i = j) /\
  (forall i c, calls w !! i = Some c -> call_in_mu c = true ->
               loop_in_mu (loop w) = false) /\
  (mu (clock w) = true <->
   loop_in_mu (loop w) = true \/
   exists i c, calls w !! i = Some c /\ call_in_mu c = true).
Proof.
  intros Hi He. pose proof (reachable_Inv arch _ _ _ Hi He) as HI.
  assert (Hle : (mu_holders w <= 1)%nat).
  { destruct HI as [_ Hmu _ _]. rewrite Hmu. destruct (mu (clock w)); simpl; lia. }
  unfold mu_holders in Hle.
  split; [|split; [|split]].
  - intros i j ci cj Hci Hcj Hi1 Hj1.
    apply call_in_mu_holds in Hi1, Hj1.
    destruct (decide (i = j)) as [|Hne]; [assumption|].
    pose proof (sum_list_with_two call_holds_mu _ _ _ _ _ Hne Hci Hcj). lia.
  - intros i c Hc Hc1. apply call_in_mu_holds in Hc1.
    pose proof (sum_list_with_lookup call_holds_mu _ _ _ Hc) as Hs.
    unfold loop_in_mu. destruct (loop_holds_mu (loop w)); [reflexivity | lia].
  - apply Inv_mu_holder, HI.
  - intros [Hl | (i & c & Hc & Hc1)].
    + apply Inv_mu_held_by_loop; assumption.
    + eapply Inv_mu_held_by_call; eauto.
Qed.

End CriticalSections.

(** ** The elapsed real time *)

Lemma subMono_exact (t u : Z) :
  0 <= u -> u <= t -> t <= maxInt64 -> subMono t u = t - u.
Proof.
  intros H0 Hu Ht. unfold subMono.
  assert (Hw : wrap64 (t - u) = t - u).
  { apply wrap64_small, in_int64_spec. unfold minInt64, maxInt64 in *. lia. }
  rewrite Hw.
  assert (E1 : (t - u <? 0) = false) by (apply Z.ltb_ge; lia).
  assert (E2 : (t <? u) = false) by (apply Z.ltb_ge; lia).
  rewrite E1, E2, andb_false_r. reflexivity.
Qed.

Section Elapsed.

Variable arch : float64 -> Z.

(** X2.  In every reachable state the real epoch carries a monotonic
    reading that is not in the future, so the elapsed time a tick would
    read is between zero and the largest duration and does not depend on
    the wall clock, whatever jumps it made; it is the plain difference of
    the two monotonic readings when these are not negative. *)
Theorem elapsed_is_monotonic (w0 : World) (es : list Event) (w : World) :
  Initial w0 -> exec arch es w0 = Ok w ->
  exists ext,
    mono (startRealTime (clock w)) = Some ext /\
    ext <= rmono (real w) /\
    0 <= time_Since (real w) (startRealTime (clock w)) <= maxInt64 /\
    (forall wall_now,
       time_Since (mkReal wall_now (rmono (real w))) (startRealTime (clock w))
       = time_Since (real w) (startRealTime (clock w))) /\
    (0 <= ext ->
     time_Since (real w) (startRealTime (clock w)) = rmono (real w) - ext).
Proof.
  intros Hi He. pose proof (reachable_Inv arch _ _ _ Hi He) as HI.
  pose proof (Inv_elapsed_nonneg w HI) as Hn.
  destruct HI as [_ _ _ (ext & Hm & Hle & Hr & Hwf)].
  exists ext. split; [assumption|]. split; [assumption|]. split; [assumption|].
  unfold time_Since. rewrite Hm. simpl. split; [reflexivity|].
  intros H0. apply subMono_exact; try assumption.
  apply in_int64_spec in Hwf. lia.
Qed.

End Elapsed.

(** ** Where the published duration comes from *)

Lemma f64_trunc_signed_false (f : float64) (z : Z) :
  f64_signed false f -> f64_trunc f = Some z -> 0 <= z.
Proof.
  destruct f as [s|s| |s m e]; simpl; try discriminate.
  - intros _ [= <-]. lia.
  - intros -> [= <-]. apply Z.shiftl_nonneg. lia.
Qed.

Lemma accelerated_float_signed (s : bool) (mm : positive) (em : Z) (d : Duration) :
  0 <= d -> in_int64 d = true ->
  f64_signed s (accelerated_float (S754_finite s mm em) d).
Proof.
  intros H0 Hd. unfold accelerated_float. rewrite f64_of_int_Second.
  pose proof (Duration_Seconds_below d Hd) as Hs.
  assert (E : (d <? 0) = false) by (apply Z.ltb_ge; lia). rewrite E in Hs.
  apply f64_below_signed in Hs.
  pose proof (f64_mul_signed false _ s mm em Hs) as H1. simpl in H1.
  pose proof (f64_mul_signed s _ false 8388608000000000 (-23) H1) as H2.
  rewrite xorb_false_r in H2. exact H2.
Qed.

Section Provenance.

Variable arch : float64 -> Z.

Lemma accelerated_range (m : float64) (d : Duration) :
  in_int64 (accelerated arch m d) = true.
Proof.
  rewrite accelerated_eq. unfold int64_of_float64.
  destruct (f64_trunc _) as [z|]; [|apply wrap64_range].
  destruct (in_int64 z) eqn:E; [exact E | apply wrap64_range].
Qed.

Lemma accelerated_fits_or_not (m : float64) (d : Duration) :
  (exists z, f64_trunc (accelerated_float m d) = Some z /\ in_int64 z = true /\
             accelerated arch m d = z) \/
  (f64_fits_int64 (accelerated_float m d) = false /\
   accelerated arch m d = wrap64 (arch (accelerated_float m d))).
Proof.
  rewrite accelerated_eq. unfold int64_of_float64, f64_fits_int64.
  destruct (f64_trunc _) as [z|]; [|right; auto].
  destruct (in_int64 z) eqn:E; [left; eauto | right; auto].
Qed.

Lemma step_loop_elapsed (e : Event) (w w' : World) :
  Inv w -> step arch e w = Ok w' -> loop_elapsed_ok w -> loop_elapsed_ok w'.
Proof.
  intros HI Hs Hok.
  destruct e as [rc| | |c|op|i].
  - simpl in Hs. destruct (_ && _); [|discriminate]. injection Hs as <-. exact Hok.
  - simpl in Hs. destruct (ticker w) as [t|]; [|discriminate].
    destruct (Ticker_fire (real w) t); simpl in Hs; try discriminate.
    injection Hs as <-. exact Hok.
  - simpl in Hs. destruct (kind w); [discriminate|]. injection Hs as <-. exact Hok.
  - simpl in Hs. rewrite loop_step_cases in Hs. unfold loop_elapsed_ok in *.
    destruct (loop w) as [| |pc|pc|] eqn:El; simpl in Hs.
    + injection Hs as <-. simpl. intros el [H|H]; discriminate.
    + destruct c.
      * destruct (ticker w) as [t|]; [|discriminate].
        destruct (pending t); [|discriminate]. injection Hs as <-. simpl.
        intros el [H|H]; discriminate.
      * destruct (kind w); [discriminate|].
        destruct (ctx_done w); [|discriminate]. injection Hs as <-. simpl.
        intros el [H|H]; discriminate.
      * destruct (done (clock w)); [|discriminate]. injection Hs as <-. simpl.
        intros el [H|H]; discriminate.
    + destruct pc as [| |el0|el0]; simpl in Hs.
      * destruct (mu_Lock (clock w)); simpl in Hs; try discriminate.
        injection Hs as <-. simpl. intros el [H|H]; discriminate.
      * injection Hs as <-. simpl. intros el [[= <-]|H]; [|discriminate].
        apply Inv_elapsed_nonneg, HI.
      * destruct (mu_Unlock (clock w)); simpl in Hs; try discriminate.
        injection Hs as <-. simpl. intros el [H|[= <-]]; [discriminate|].
        apply Hok. left. reflexivity.
      * injection Hs as <-. simpl. intros el [H|H]; discriminate.
    + destruct (kind w); [discriminate|].
      destruct (Stop_step pc (clock w)) as [[[pc'|] ac']| |]; simpl in Hs;
        try discriminate; injection Hs as <-; simpl; intros el [H|H]; discriminate.
    + discriminate.
  - assert (El : loop w' = loop w) by (destruct op; injection Hs as <-; reflexivity).
    unfold loop_elapsed_ok. rewrite El. exact Hok.
  - destruct (call_step_inv arch _ _ _ Hs) as (c & c' & _ & _ & El & _).
    unfold loop_elapsed_ok. rewrite El. exact Hok.
Qed.

Lemma step_published_from (e : Event) (w w' : World) :
  step arch e w = Ok w' -> loop_elapsed_ok w ->
  published_from arch (multiplier (clock w)) (currentDuration (clock w)) ->
  published_from arch (multiplier (clock w')) (currentDuration (clock w')).
Proof.
  intros Hs Hok Hp.
  destruct (step_frame arch _ _ _ Hs) as ((Hm & _ & _) & _ & _ & Hpub).
  rewrite Hm.
  destruct Hpub as [E | [(el & c & _ & El & E) | (i & _ & _ & _ & E)]].
  - rewrite E. exact Hp.
  - right. exists el. split; [|exact E]. apply Hok. right. exact El.
  - left. exact E.
Qed.

Lemma exec_published_from (es : list Event) (w w' : World) :
  Inv w -> exec arch es w = Ok w' -> loop_elapsed_ok w ->
  published_from arch (multiplier (clock w)) (currentDuration (clock w)) ->
  loop_elapsed_ok w' /\
  published_from arch (multiplier (clock w')) (currentDuration (clock w')).
Proof.
  revert w. induction es as [|e es IH]; intros w HI; simpl.
  - intros [= <-]. auto.
  - destruct (step arch e w) as [w1| |] eqn:Es; simpl; try discriminate.
    intros He Hok Hp.
    pose proof (step_sound arch e w HI) as HI1. rewrite Es in HI1.
    apply (IH w1 HI1 He).
    + exact (step_loop_elapsed e w w1 HI Es Hok).
    + exact (step_published_from e w w1 Es Hok Hp).
Qed.

Lemma reachable_published_from (w0 : World) (es : list Event) (w : World) :
  Initial w0 -> exec arch es w0 = Ok w ->
  loop_elapsed_ok w /\
  published_from arch (multiplier (clock w0)) (currentDuration (clock w)).
Proof.
  intros Hi He.
  destruct (Initial_fresh _ Hi) as (_ & H0 & Hl & _).
  destruct (exec_frame arch _ _ _ He) as ((Hm & _ & _) & _).
  rewrite <- Hm.
  apply (exec_published_from es w0); auto using Initial_Inv.
  - intros el [H|H]; congruence.
  - left. exact H0.
Qed.

(** X3.  In every reachable state the published duration is zero or
    [int64(Seconds(el) * multiplier * 1e9)] for an elapsed time [el]
    between zero and the largest duration.  It is an [int64], and the
    elapsed time the loop holds on its way to the store is in that range
    as well. *)
Theorem published_is_zero_or_a_tick (w0 : World) (es : list Event) (w : World) :
  Initial w0 -> exec arch es w0 = Ok w ->
  (currentDuration (clock w) = 0 \/
   exists el, 0 <= el <= maxInt64 /\
     currentDuration (clock w)
     = int64_of_float64 arch (accelerated_float (multiplier (clock w0)) el)) /\
  minInt64 <= currentDuration (clock w) <= maxInt64 /\
  (forall el, loop w = LUpdate (UStore el) -> 0 <= el <= maxInt64).
Proof.
  intros Hi He.
  destruct (reachable_published_from _ _ _ Hi He) as (Hok & Hp).
  split; [exact Hp|]. split.
  - apply in_int64_spec. destruct Hp as [-> | (el & _ & ->)]; [reflexivity|].
    apply accelerated_range.
  - intros el El. apply Hok. right. exact El.
Qed.

(** X4.  With a zero multiplier the clock is paused: in every reachable
    state, whatever the schedule and however much time passed, the
    published duration is zero and [Now()] is the virtual epoch. *)
Theorem zero_multiplier_pauses (w0 : World) (es : list Event) (w : World) :
  Initial w0 -> exec arch es w0 = Ok w ->
  f64_is_zero (multiplier (clock w0)) = true ->
  currentDuration (clock w) = 0 /\ Now (clock w) = startTime (clock w0).
Proof.
  intros Hi He Hz.
  destruct (reachable_published_from _ _ _ Hi He) as (_ & Hp).
  assert (H0 : currentDuration (clock w) = 0).
  { destruct Hp as [E | (el & Hel & E)]; [exact E|]. rewrite E.
    apply accelerated_zero; [exact Hz|]. apply in_int64_spec.
    unfold minInt64, maxInt64 in *. lia. }
  split; [exact H0|].
  destruct (exec_frame arch _ _ _ He) as ((_ & _ & Hst) & _).
  destruct (Initial_fresh _ Hi) as (Hwf & _).
  rewrite <- Hst. apply Now_fresh; [rewrite Hst|]; assumption.
Qed.

(** X5.  With a finite multiplier the published duration has the sign
    of the multiplier in every reachable state: never negative when the
    multiplier is not negative, never positive when it is; the one
    exception is the result of a conversion [int64(f)] whose product did
    not fit. *)
Theorem published_sign_follows_multiplier
  (w0 : World) (es : list Event) (w : World) :
  Initial w0 -> exec arch es w0 = Ok w ->
  f64_is_finite (multiplier (clock w0)) = true ->
  (f64_ltz (multiplier (clock w0)) = false ->
   0 <= currentDuration (clock w) \/
   overflowed arch (multiplier (clock w0)) (currentDuration (clock w))) /\
  (f64_ltz (multiplier (clock w0)) = true ->
   currentDuration (clock w) <= 0 \/
   overflowed arch (multiplier (clock w0)) (currentDuration (clock w))).
Proof.
  intros Hi He Hfin.
  destruct (reachable_published_from _ _ _ Hi He) as (_ & Hp).
  assert (Hs : forall s mm em, multiplier (clock w0) = S754_finite s mm em ->
             (if s then currentDuration (clock w) <= 0
              else 0 <= currentDuration (clock w)) \/
             overflowed arch (multiplier (clock w0)) (currentDuration (clock w))).
  { intros s mm em Em.
    destruct Hp as [-> | (el & Hel & E)]; [left; destruct s; lia|].
    assert (Hr : in_int64 el = true)
      by (apply in_int64_spec; unfold minInt64, maxInt64 in *; lia).
    destruct (accelerated_fits_or_not (multiplier (clock w0)) el)
      as [(z & Hz & Hin & Ez) | (Hf & Ez)].
    - left. rewrite E, Ez.
      pose proof (accelerated_float_signed s mm em el (proj1 Hel) Hr) as Hsg.
      rewrite Em in Hz. destruct s.
      + eapply f64_trunc_signed_true; eauto.
      + eapply f64_trunc_signed_false; eauto.
    - right. exists el. rewrite E. auto. }
  destruct (multiplier (clock w0)) as [s|s| |s mm em] eqn:Em; try discriminate.
  - assert (H0 : currentDuration (clock w) = 0).
    { destruct Hp as [E | (el & Hel & E)]; [exact E|]. rewrite E.
      apply accelerated_zero; [reflexivity|]. apply in_int64_spec.
      unfold minInt64, maxInt64 in *. lia. }
    rewrite H0. split; intros _; left; lia.
  - specialize (Hs s mm em eq_refl).
    destruct s; simpl; split; intros H; try discriminate; exact Hs.
Qed.

End Provenance.

(** ** Reading the virtual time back *)

Lemma wrap64_over (z : Z) :
  maxInt64 < z <= maxInt64 + 2 ^ 64 -> wrap64 z = z - 2 ^ 64.
Proof.
  unfold wrap64, maxInt64. intros H.
  replace (z + 2 ^ 63) with (z - 2 ^ 64 + 2 ^ 63 + 1 * 2 ^ 64) by lia.
  rewrite Z_mod_plus_full, Z.mod_small; lia.
Qed.

Lemma wrap64_under (z : Z) :
  minInt64 - 2 ^ 64 <= z < minInt64 -> wrap64 z = z + 2 ^ 64.
Proof.
  unfold wrap64, minInt64. intros H.
  replace (z + 2 ^ 63) with (z + 2 ^ 64 + 2 ^ 63 + (-1) * 2 ^ 64) by lia.
  rewrite Z_mod_plus_full, Z.mod_small; lia.
Qed.

(** [t.Add(d).Sub(t)] is [d], and [t.Add(d).Before(t)] tells whether
    [d] is negative, whether or not the monotonic reading survives. *)
Lemma Time_Add_Sub (t : Time) (d : Duration) :
  Time_wf t -> in_int64 d = true ->
  Time_Sub (Time_Add t d) t = d /\
  Time_Before (Time_Add t d) t = (d <? 0).
Proof.
  destruct t as [wl [ext|]]; unfold Time_wf, Time_Sub, Time_Before, Time_Add; simpl;
    intros Hwf Hd; apply in_int64_spec in Hd.
  - apply in_int64_spec in Hwf.
    assert (Hcases : in_int64 (ext + d) = true /\ wrap64 (ext + d) = ext + d \/
                     maxInt64 < ext + d /\ wrap64 (ext + d) = ext + d - 2 ^ 64 \/
                     ext + d < minInt64 /\ wrap64 (ext + d) = ext + d + 2 ^ 64).
    { destruct (in_int64 (ext + d)) eqn:E.
      - left. split; [reflexivity | apply wrap64_small, E].
      - right. unfold in_int64 in E. apply andb_false_iff in E as [E|E].
        + right. apply Z.leb_gt in E. split; [assumption|].
          apply wrap64_under. unfold minInt64, maxInt64 in *. lia.
        + left. apply Z.leb_gt in E. split; [assumption|].
          apply wrap64_over. unfold minInt64, maxInt64 in *. lia. }
    destruct Hcases as [(_ & ->) | [(Ho & ->) | (Hu & ->)]].
    + assert (E : ((d <? 0) && (ext <? ext + d) || (0 <? d) && (ext + d <? ext))
                  = false).
      { apply orb_false_iff. split; apply andb_false_iff.
        - destruct (Z.ltb_spec d 0); [right; apply Z.ltb_ge; lia | left; reflexivity].
        - destruct (Z.ltb_spec 0 d); [right; apply Z.ltb_ge; lia | left; reflexivity]. }
      rewrite E. simpl. unfold subMono.
      replace (ext + d - ext) with d by lia.
      rewrite (wrap64_small d) by (apply in_int64_spec; assumption).
      split.
      * destruct (Z.ltb_spec d 0); simpl.
        -- assert (E1 : (ext <? ext + d) = false) by (apply Z.ltb_ge; lia).
           rewrite E1. simpl. assert (E2 : (0 <? d) = false) by (apply Z.ltb_ge; lia).
           rewrite E2. reflexivity.
        -- destruct (Z.ltb_spec 0 d); simpl; [|reflexivity].
           assert (E1 : (ext + d <? ext) = false) by (apply Z.ltb_ge; lia).
           rewrite E1. reflexivity.
      * destruct (Z.ltb_spec d 0), (Z.ltb_spec (ext + d) ext); try reflexivity; lia.
    + assert (E : ((d <? 0) && (ext <? ext + d - 2 ^ 64)
                   || (0 <? d) && (ext + d - 2 ^ 64 <? ext)) = true).
      { apply orb_true_iff. right. apply andb_true_iff.
        unfold minInt64, maxInt64 in *. split; apply Z.ltb_lt; lia. }
      rewrite E. simpl. replace (wl + d - wl) with d by lia.
      unfold minDuration, maxDuration.
      assert (E1 : (d <? minInt64) = false) by (apply Z.ltb_ge; lia).
      assert (E2 : (maxInt64 <? d) = false) by (apply Z.ltb_ge; lia).
      rewrite E1, E2. split; [reflexivity|].
      destruct (Z.ltb_spec (wl + d) wl), (Z.ltb_spec d 0); try reflexivity; lia.
    + assert (E : ((d <? 0) && (ext <? ext + d + 2 ^ 64)
                   || (0 <? d) && (ext + d + 2 ^ 64 <? ext)) = true).
      { apply orb_true_iff. left. apply andb_true_iff.
        unfold minInt64, maxInt64 in *. split; apply Z.ltb_lt; lia. }
      rewrite E. simpl. replace (wl + d - wl) with d by lia.
      unfold minDuration, maxDuration.
      assert (E1 : (d <? minInt64) = false) by (apply Z.ltb_ge; lia).
      assert (E2 : (maxInt64 <? d) = false) by (apply Z.ltb_ge; lia).
      rewrite E1, E2. split; [reflexivity|].
      destruct (Z.ltb_spec (wl + d) wl), (Z.ltb_spec d 0); try reflexivity; lia.
  - replace (wl + d - wl) with d by lia.
    unfold minDuration, maxDuration.
    assert (E1 : (d <? minInt64) = false) by (apply Z.ltb_ge; lia).
    assert (E2 : (maxInt64 <? d) = false) by (apply Z.ltb_ge; lia).
    rewrite E1, E2. split; [reflexivity|].
    destruct (Z.ltb_spec (wl + d) wl), (Z.ltb_spec d 0); try reflexivity; lia.
Qed.

Section ReadBack.

Variable arch : float64 -> Z.

(** X6.  In every reachable state [Now().Sub(startTime)] is exactly the
    published duration, and [Now().Before(startTime)] holds exactly when
    that duration is negative, whether or not the monotonic reading of
    the virtual epoch survives the addition; the virtual epoch is the one
    given at construction. *)
Theorem Now_Sub_startTime_is_published (w0 : World) (es : list Event) (w : World) :
  Initial w0 -> exec arch es w0 = Ok w ->
  Time_Sub (Now (clock w)) (startTime (clock w)) = currentDuration (clock w) /\
  Time_Before (Now (clock w)) (startTime (clock w))
  = (currentDuration (clock w) <? 0) /\
  startTime (clock w) = startTime (clock w0).
Proof.
  intros Hi He.
  destruct (reachable_published_from arch _ _ _ Hi He) as (_ & Hp).
  destruct (exec_frame arch _ _ _ He) as ((_ & _ & Hst) & _).
  destruct (Initial_fresh _ Hi) as (Hwf & _).
  assert (Hr : in_int64 (currentDuration (clock w)) = true).
  { destruct Hp as [-> | (el & _ & ->)]; [reflexivity | apply accelerated_range]. }
  rewrite <- Hst in Hwf.
  destruct (Time_Add_Sub _ _ Hwf Hr) as [H1 H2].
  unfold Now. auto.
Qed.

End ReadBack.

(** ** Multipliers that are not numbers *)

Lemma accelerated_float_not_finite (m : float64) (d : Duration) :
  f64_is_finite m = false -> in_int64 d = true ->
  f64_is_finite (accelerated_float m d) = false.
Proof.
  intros Hm Hd. unfold accelerated_float. rewrite f64_of_int_Second.
  pose proof (Duration_Seconds_below d Hd) as Hs.
  destruct (Duration_Seconds d) as [s|s| |s ms es_]; simpl in Hs; try contradiction;
    destruct m as [sm|sm| |sm mm em]; try discriminate; reflexivity.
Qed.

Section NotFinite.

Variable arch : float64 -> Z.

Lemma accelerated_not_finite (m : float64) (d : Duration) :
  f64_is_finite m = false -> in_int64 d = true ->
  accelerated arch m d = wrap64 (arch (accelerated_float m d)).
Proof.
  intros Hm Hd. pose proof (accelerated_float_not_finite m d Hm Hd) as Hf.
  rewrite accelerated_eq. unfold int64_of_float64.
  destruct (accelerated_float m d); try discriminate; reflexivity.
Qed.

(** X7.  The constructors accept a multiplier that is NaN or infinite.
    Then no tick publishes a computed duration: in every reachable state
    the published duration is zero or the result of converting a float
    that is not finite, which Go leaves to the implementation; one run of
    [updateClock] stores exactly that. *)
Theorem not_finite_multiplier_publishes_no_product
  (w0 : World) (es : list Event) (w : World) :
  Initial w0 -> exec arch es w0 = Ok w ->
  f64_is_finite (multiplier (clock w0)) = false ->
  (currentDuration (clock w) = 0 \/
   exists f, f64_is_finite f = false /\ currentDuration (clock w) = wrap64 (arch f)) /\
  (forall rc ac, mu ac = false -> multiplier ac = multiplier (clock w0) ->
     exists ac',
       updateClock arch rc ac = Ok ac' /\
       currentDuration ac'
       = wrap64 (arch (accelerated_float (multiplier ac)
                         (time_Since rc (startRealTime ac))))).
Proof.
  intros Hi He Hm. split.
  - destruct (reachable_published_from arch _ _ _ Hi He) as (_ & [E | (el & Hel & E)]);
      [left; exact E|].
    assert (Hr : in_int64 el = true)
      by (apply in_int64_spec; unfold minInt64, maxInt64 in *; lia).
    right. exists (accelerated_float (multiplier (clock w0)) el).
    split; [apply accelerated_float_not_finite; assumption|].
    rewrite E. apply accelerated_not_finite; assumption.
  - intros rc ac Hmu Eq. eexists. split; [apply updateClock_sequential, Hmu|].
    simpl. apply accelerated_not_finite; [congruence | apply time_Since_range].
Qed.

End NotFinite.

(** ** [Reset], then a tick *)

Lemma subMono_same (t : Z) : subMono t t = 0.
Proof.
  unfold subMono. replace (t - t) with 0 by lia.
  change (wrap64 0) with 0. simpl. reflexivity.
Qed.

Lemma Duration_Seconds_0 : Duration_Seconds 0 = S754_zero false.
Proof. vm_compute. reflexivity. Qed.

Section ResetThenTick.

Variable arch : float64 -> Z.

Lemma accelerated_at_0 (m : float64) :
  f64_is_finite m = true -> accelerated arch m 0 = 0.
Proof.
  intros Hm. rewrite accelerated_eq. unfold accelerated_float.
  rewrite Duration_Seconds_0, f64_of_int_Second.
  destruct m as [s|s| |s mm em]; try discriminate; reflexivity.
Qed.

(** X8.  [Reset()] followed by a tick: the tick measures from the
    instant of the reset, whatever the real epoch and the published
    duration were before.  It publishes the product for the difference of
    the two monotonic readings, and zero when no time has passed and the
    multiplier is finite. *)
Theorem tick_after_Reset_measures_from_Reset
  (rc0 rc1 : RealClock) (ac : QuickTick) :
  mu ac = false ->
  exists ac1 ac2,
    Reset rc0 ac = Ok ac1 /\
    updateClock arch rc1 ac1 = Ok ac2 /\
    startRealTime ac2 = time_Now rc0 /\
    currentDuration ac2
    = accelerated arch (multiplier ac) (subMono (rmono rc1) (rmono rc0)) /\
    (0 <= rmono rc0 -> rmono rc0 <= rmono rc1 -> rmono rc1 <= maxInt64 ->
     currentDuration ac2 = accelerated arch (multiplier ac) (rmono rc1 - rmono rc0)) /\
    (f64_is_finite (multiplier ac) = true -> rmono rc1 = rmono rc0 ->
     currentDuration ac2 = 0 /\ Now ac2 = Time_Add (startTime ac) 0).
Proof.
  intros Hmu.
  destruct ac as [m ti st srt cd dn mx o]. simpl in Hmu. subst mx.
  exists (mkQuickTick m ti st (time_Now rc0) 0 dn false o),
    (mkQuickTick m ti st (time_Now rc0)
       (accelerated arch m (subMono (rmono rc1) (rmono rc0))) dn false o).
  split; [reflexivity|]. split; [reflexivity|].
  unfold Now. cbn [currentDuration startRealTime multiplier startTime].
  split; [reflexivity|]. split; [reflexivity|]. split.
  - intros H0 H1 H2. rewrite subMono_exact by assumption. reflexivity.
  - intros Hm E. rewrite E, subMono_same, (accelerated_at_0 m Hm). auto.
Qed.

End ResetThenTick.

(** ** What [Stop] and a tick leave alone *)

Section Frames.

Variable arch : float64 -> Z.

(** X9.  [Stop()] leaves the time alone: run on a clock nobody is
    stopping it returns a clock with the same [Now()], published
    duration, epochs, multiplier, interval and [mu]; and so does every
    single step of [Stop()], in any state. *)
Theorem Stop_leaves_the_time_alone (ac : QuickTick) :
  once_m (once ac) = false -> done ac = once_done (once ac) ->
  exists ac',
    Stop ac = Ok ac' /\
    Now ac' = Now ac /\
    (currentDuration ac' = currentDuration ac /\
     startRealTime ac' = startRealTime ac /\ startTime ac' = startTime ac) /\
    (multiplier ac' = multiplier ac /\ tickerInterval ac' = tickerInterval ac /\
     mu ac' = mu ac) /\
    (forall pc ac0 pc1 ac1,
       Stop_step pc ac0 = Ok (pc1, ac1) ->
       Now ac1 = Now ac0 /\ currentDuration ac1 = currentDuration ac0 /\
       startRealTime ac1 = startRealTime ac0 /\ startTime ac1 = startTime ac0 /\
       multiplier ac1 = multiplier ac0 /\ tickerInterval ac1 = tickerInterval ac0 /\
       mu ac1 = mu ac0).
Proof.
  intros Hm Hd.
  destruct (Stop_sequential ac Hm Hd)
    as (ac' & Hs & _ & _ & (E1 & E2 & E3) & E4 & E5 & E6 & _).
  exists ac'. split; [exact Hs|]. split.
  { unfold Now. rewrite E3, E4. reflexivity. }
  split; [auto|]. split; [auto|].
  intros pc ac0 pc1 ac1 H.
  destruct (Stop_step_frame _ _ _ _ H) as ((F1 & F2 & F3) & F4 & F5 & F6).
  unfold Now. rewrite F3, F5. auto 10.
Qed.

(** X10.  A tick writes the published duration and nothing else: after
    [updateClock] both epochs, the multiplier, the interval, the channel,
    [once] and [mu] are as before; every single step of it leaves them
    alone, and only its last step touches the published duration. *)
Theorem tick_writes_only_the_published_duration (rc : RealClock) (ac : QuickTick) :
  mu ac = false ->
  exists ac',
    updateClock arch rc ac = Ok ac' /\
    (startRealTime ac' = startRealTime ac /\ startTime ac' = startTime ac) /\
    (multiplier ac' = multiplier ac /\ tickerInterval ac' = tickerInterval ac) /\
    (done ac' = done ac /\ once ac' = once ac /\ mu ac' = mu ac) /\
    (forall pc ac0 pc1 ac1,
       updateClock_step arch rc pc ac0 = Ok (pc1, ac1) ->
       startRealTime ac1 = startRealTime ac0 /\ startTime ac1 = startTime ac0 /\
       multiplier ac1 = multiplier ac0 /\ tickerInterval ac1 = tickerInterval ac0 /\
       done ac1 = done ac0 /\ once ac1 = once ac0 /\
       ((forall el, pc <> UStore el) -> currentDuration ac1 = currentDuration ac0)).
Proof.
  intros Hmu. eexists. split; [apply updateClock_sequential, Hmu|].
  destruct ac as [m ti st srt cd dn mx o]. simpl in *. subst mx.
  split; [auto|]. split; [auto|]. split; [auto|].
  intros pc ac0 pc1 ac1 H.
  destruct ac0 as [m0 ti0 st0 srt0 cd0 dn0 mx0 o0].
  destruct pc as [| |el|el], mx0; simpl in H; try discriminate;
    injection H as <- <-; simpl; repeat split; auto;
    intros Hne; try reflexivity; exfalso; apply (Hne el); reflexivity.
Qed.

End Frames.

(** ** The loop runs until it is stopped *)

Section RunsUntilStopped.

Variable arch : float64 -> Z.

Lemma step_never_stopped (e : Event) (w w' : World) :
  is_stop_call e = false -> is_cancel e = false ->
  step arch e w = Ok w' -> never_stopped w -> never_stopped w'.
Proof.
  intros Hsc Hc Hs (Hx & Hd & Hl & Hls & Hcs). unfold never_stopped.
  destruct e as [rc| | |c|op|i]; try discriminate.
  - simpl in Hs. destruct (_ && _); [|discriminate]. injection Hs as <-. simpl. auto.
  - simpl in Hs. destruct (ticker w) as [t|]; [|discriminate].
    destruct (Ticker_fire (real w) t); simpl in Hs; try discriminate.
    injection Hs as <-. simpl. auto.
  - simpl in Hs. rewrite loop_step_cases in Hs.
    destruct (loop w) as [| |pc|pc|] eqn:El; simpl in Hs.
    + injection Hs as <-. simpl. repeat split; auto; intros; discriminate.
    + destruct c.
      * destruct (ticker w) as [t|]; [|discriminate].
        destruct (pending t); [|discriminate]. injection Hs as <-. simpl.
        repeat split; auto; intros; discriminate.
      * destruct (kind w); [discriminate|]. rewrite Hx in Hs. discriminate.
      * rewrite Hd in Hs. discriminate.
    + destruct (updateClock_step arch (real w) pc (clock w)) as [[pc' ac']| |] eqn:Es;
        simpl in Hs; try discriminate.
      destruct (updateClock_step_done _ _ _ _ _ _ Es) as [Hd' _].
      destruct pc'; injection Hs as <-; simpl;
        repeat split; auto; try congruence; try (intros; discriminate).
    + exfalso. eapply Hls; eauto.
    + congruence.
  - destruct op; [discriminate|]. injection Hs as <-. simpl.
    repeat split; auto. intros i pc Hi.
    apply lookup_app_Some in Hi as [Hi | [_ Hi]]; [eapply Hcs; eauto|].
    destruct (i - length (calls w))%nat; simpl in Hi; discriminate.
  - simpl in Hs. unfold call_step in Hs.
    destruct (calls w !! i) as [[pc|pc|op]|] eqn:Ei; try discriminate.
    + exfalso. eapply Hcs; eauto.
    + destruct (Reset_step (real w) pc (clock w)) as [[pc' ac']| |] eqn:Es;
        simpl in Hs; try discriminate.
      destruct (Reset_step_done _ _ _ _ _ Es) as [Hd' _].
      destruct pc'; injection Hs as <-; simpl;
        (repeat split; auto; try congruence; intros j q Hj;
         destruct (lookup_insert_cases _ _ _ _ _ _ Ei Hj) as [[_ [=]]|[_ Hj']];
         eapply Hcs; eauto).
Qed.

Lemma exec_never_stopped (es : list Event) (w w' : World) :
  forallb (fun e => negb (is_stop_call e) && negb (is_cancel e)) es = true ->
  exec arch es w = Ok w' -> never_stopped w ->
  never_stopped w' /\ closes arch es w = 0%nat.
Proof.
  revert w. induction es as [|e es IH]; intros w; simpl.
  - intros _ [= <-]. auto.
  - rewrite !andb_true_iff, !negb_true_iff. intros [[H1 H2] Hes].
    destruct (step arch e w) as [w1| |] eqn:Es; simpl; try discriminate.
    intros He Hn.
    destruct (IH w1 Hes He (step_never_stopped e w w1 H1 H2 Es Hn)) as [Hn' Hc].
    split; [exact Hn'|]. rewrite Hc.
    destruct Hn as (_ & _ & _ & Hls & Hcs).
    assert (E : closing e w = false).
    { unfold closing. destruct e as [rc| | |c|op|i]; try reflexivity.
      - destruct (loop w) as [| |pc|pc|] eqn:El; try reflexivity.
        exfalso. eapply Hls; eauto.
      - destruct (calls w !! i) as [[pc|pc|op]|] eqn:Ei; try reflexivity.
        exfalso. eapply Hcs; eauto. }
    rewrite E. reflexivity.
Qed.

(** X11.  The loop runs until it is stopped.  Whenever it has returned,
    the channel is closed, [close(ac.done)] has run exactly once and the
    ticker is stopped.  And as long as no caller enters [Stop()] and the
    context, live at construction, is not cancelled, the loop has not
    returned and the channel is open. *)
Theorem loop_runs_until_stopped (w0 : World) (es : list Event) (w : World) :
  Initial w0 -> exec arch es w0 = Ok w ->
  (loop w = LExit ->
   done (clock w) = true /\ closes arch es w0 = 1%nat /\ ticker w = None) /\
  (ctx_done w0 = false ->
   forallb (fun e => negb (is_stop_call e) && negb (is_cancel e)) es = true ->
   loop w <> LExit /\ done (clock w) = false /\ closes arch es w0 = 0%nat).
Proof.
  intros Hi He.
  pose proof (reachable_Inv arch _ _ _ Hi He) as HI.
  pose proof (closes_done arch _ _ _ He) as Hc.
  destruct (Initial_fresh _ Hi) as (_ & _ & Hl0 & _ & Hcs0 & Hd0).
  rewrite Hd0 in Hc. simpl in Hc.
  split.
  - intros Hl. destruct HI as [_ _ [Hx Ht] _]. rewrite Hl in Ht.
    rewrite (Hx Hl) in Hc. simpl in Hc. rewrite (Hx Hl). split; [reflexivity|].
    split; [lia | exact Ht].
  - intros Hx Hes.
    assert (Hn : never_stopped w0).
    { unfold never_stopped. rewrite Hl0, Hcs0.
      repeat split; auto; try discriminate;
        try (intros i pc; destruct i; discriminate). }
    destruct (exec_never_stopped es w0 w Hes He Hn) as [(_ & Hd & Hl & _) Hcl].
    auto.
Qed.

End RunsUntilStopped.

(** ** The update interval and the context, when they play no part *)

Section Unused.

Variable arch : float64 -> Z.




Lemma step_with_kind (e : Event) (w : World) :
  kind w = Run -> ctx_done w = false -> (forall pc, loop w <> LStop pc) ->
  is_cancel e = false ->
  step arch e (with_kind RunWithContext w)
  = outcome_map (with_kind RunWithContext) (step arch e w) /\
  forall w', step arch e w = Ok w' ->
             kind w' = Run /\ ctx_done w' = false /\ (forall pc, loop w' <> LStop pc).
Proof.
  destruct w as [[m ti st srt cd dn mx [od om]] rc k cx tk lp cs]. simpl.
  intros -> -> Hl Hc.
  destruct e as [rc'| | |c|op|i]; simpl; try discriminate.
  - destruct (_ && _); split; try reflexivity; try discriminate.
    intros w' [= <-]. auto.
  - destruct tk as [t|]; [|split; [reflexivity | discriminate]]. unfold Ticker_fire.
    destruct (rmono rc <? next t); split; try reflexivity; try discriminate.
    intros w' [= <-]. auto.
  - unfold loop_step, run, runWithContext, with_kind; simpl.
    destruct lp as [| |pc|pc|]; simpl.
    + split; [reflexivity|]. intros w' [= <-]. simpl. repeat split; discriminate.
    + destruct c; unfold case_ticker, case_done, case_ctx; simpl.
      * destruct tk as [[p n []]|]; split; try reflexivity; try discriminate.
        intros w' [= <-]. simpl. repeat split; discriminate.
      * split; [reflexivity | discriminate].
      * destruct dn; split; try reflexivity; try discriminate.
        intros w' [= <-]. simpl. repeat split; discriminate.
    + unfold in_updateClock. destruct pc, mx; simpl; split; try reflexivity;
        try discriminate; intros w' [= <-]; simpl; repeat split; discriminate.
    + exfalso. eapply Hl; eauto.
    + split; [reflexivity | discriminate].
  - destruct op; (split; [reflexivity|]); intros w' [= <-]; auto.
  - unfold call_step, with_kind; simpl.
    destruct (cs !! i) as [[pc|pc|op]|]; try (split; [reflexivity | discriminate]).
    + destruct pc, od, om, dn; simpl; split; try reflexivity; try discriminate;
        intros w' [= <-]; auto.
    + destruct pc, mx; simpl; split; try reflexivity; try discriminate;
        intros w' [= <-]; auto.
Qed.

Lemma exec_with_kind (es : list Event) (w : World) :
  kind w = Run -> ctx_done w = false -> (forall pc, loop w <> LStop pc) ->
  forallb (fun e => negb (is_cancel e)) es = true ->
  exec arch es (with_kind RunWithContext w)
  = outcome_map (with_kind RunWithContext) (exec arch es w).
Proof.
  revert w. induction es as [|e es IH]; intros w Hk Hx Hl; simpl; [reflexivity|].
  rewrite andb_true_iff, negb_true_iff. intros [He Hes].
  destruct (step_with_kind e w Hk Hx Hl He) as [E Hnext]. rewrite E.
  destruct (step arch e w) as [w1| |]; simpl; [|reflexivity|reflexivity].
  destruct (Hnext w1 eq_refl) as (Hk1 & Hx1 & Hl1). apply IH; assumption.
Qed.

(** X13.  A context that is never cancelled changes nothing: under every
    schedule without a cancellation, [NewCtx] and [NewCustomCtx] with a
    live context run in lock-step with [New] and [NewCustom], reaching
    the same clock, program points and calls. *)
Theorem live_context_changes_nothing
  (rc : RealClock) (st : Time) (m : float64) (d : Duration) (es : list Event) :
  forallb (fun e => negb (is_cancel e)) es = true ->
  exec arch es (go_NewCtx false rc m)
  = outcome_map (with_kind RunWithContext) (exec arch es (go_New rc m)) /\
  exec arch es (go_NewCustomCtx false rc st m d)
  = outcome_map (with_kind RunWithContext) (exec arch es (go_NewCustom rc st m d)) /\
  (forall w, clock (with_kind RunWithContext w) = clock w /\
             loop (with_kind RunWithContext w) = loop w /\
             ticker (with_kind RunWithContext w) = ticker w /\
             calls (with_kind RunWithContext w) = calls w).
Proof.
  intros Hes. split; [|split].
  - rewrite <- exec_with_kind; auto; discriminate.
  - rewrite <- exec_with_kind; auto; discriminate.
  - intros w. auto.
Qed.

End Unused.

(** ** Nothing waits for ever *)

Ltac call_go Hi :=
  unfold call_step; cbn [calls clock real with_calls];
  first [rewrite Hi | rewrite list_lookup_insert_eq by (eapply lookup_lt_Some; eauto)];
  cbn; rewrite ?list_insert_insert_eq.

Ltac alone_n n :=
  exists n; eexists; split; [lia|]; split;
  [simpl; reflexivity | simpl; repeat split; auto; try discriminate].

Ltac call_alone_n Hi n :=
  exists n; eexists; split; [lia|]; split;
  [simpl; repeat call_go Hi; reflexivity
  | simpl; repeat split; auto; try discriminate].

Section Finish.

Variable arch : float64 -> Z.

Lemma Reset_call_finish (w : World) (i : nat) (pc : ResetPC) :
  calls w !! i = Some (CReset pc) -> reset_ready pc (clock w) ->
  exists n ac',
    (n <= 4)%nat /\
    exec arch (repeat (EvStep i) n) w
    = Ok (with_calls w (<[i := CReturned OpReset]> (calls w)) ac') /\
    mu ac' = false /\ done ac' = done (clock w) /\ once ac' = once (clock w).
Proof.
  destruct w as [[m ti st srt cd dn mx o] rc k cx tk lp cs]. simpl.
  intros Hi Hr. destruct pc; simpl in Hr; subst mx.
  - call_alone_n Hi 4%nat.
  - call_alone_n Hi 3%nat.
  - call_alone_n Hi 2%nat.
  - call_alone_n Hi 1%nat.
Qed.

Lemma Stop_call_finish (w : World) (i : nat) (pc : StopPC) :
  calls w !! i = Some (CStop pc) -> stop_ready pc (clock w) ->
  exists n ac',
    (n <= 6)%nat /\
    exec arch (repeat (EvStep i) n) w
    = Ok (with_calls w (<[i := CReturned OpStop]> (calls w)) ac') /\
    done ac' = true /\ once_done (once ac') = true /\
    (once_m (once (clock w)) = false \/ holds_once pc = 1%nat ->
     once_m (once ac') = false) /\
    mu ac' = mu (clock w).
Proof.
  destruct w as [[m ti st srt cd dn mx [od om]] rc k cx tk lp cs]. simpl.
  intros Hi Hr.
  destruct pc; simpl in Hr.
  - destruct od.
    + assert (dn = true) as -> by (destruct Hr as [[_ H]|[_ H]]; exact H).
      call_alone_n Hi 1%nat. intros [->|H]; [reflexivity | discriminate].
    + destruct Hr as [[Hr _] | [-> ->]]; [discriminate|].
      call_alone_n Hi 6%nat.
  - destruct Hr as [-> ->]. destruct od.
    + call_alone_n Hi 3%nat.
    + call_alone_n Hi 5%nat.
  - destruct Hr as [-> ->]. destruct od.
    + call_alone_n Hi 2%nat.
    + call_alone_n Hi 4%nat.
  - destruct Hr as [-> [-> ->]]. call_alone_n Hi 3%nat.
  - destruct Hr as [-> [-> ->]]. call_alone_n Hi 2%nat.
  - destruct Hr as [-> [-> ->]]. call_alone_n Hi 1%nat.
Qed.

Lemma Stop_loop_finish (w : World) (pc : StopPC) (c : SelectCase) :
  loop w = LStop pc -> kind w = RunWithContext -> stop_ready pc (clock w) ->
  exists n ac',
    (n <= 6)%nat /\
    exec arch (repeat (EvLoop c) n) w = Ok (loop_return w ac') /\
    done ac' = true /\ once_done (once ac') = true /\
    (once_m (once (clock w)) = false \/ holds_once pc = 1%nat ->
     once_m (once ac') = false) /\
    mu ac' = mu (clock w).
Proof.
  destruct w as [[m ti st srt cd dn mx [od om]] rc k cx tk lp cs]. simpl.
  intros -> -> Hr.
  destruct pc; simpl in Hr.
  - destruct od.
    + assert (dn = true) as -> by (destruct Hr as [[_ H]|[_ H]]; exact H).
      alone_n 1%nat. intros [->|H]; [reflexivity | discriminate].
    + destruct Hr as [[Hr _] | [-> ->]]; [discriminate|].
      alone_n 6%nat.
  - destruct Hr as [-> ->]. destruct od.
    + alone_n 3%nat.
    + alone_n 5%nat.
  - destruct Hr as [-> ->]. destruct od.
    + alone_n 2%nat.
    + alone_n 4%nat.
  - destruct Hr as [-> [-> ->]]. alone_n 3%nat.
  - destruct Hr as [-> [-> ->]]. alone_n 2%nat.
  - destruct Hr as [-> [-> ->]]. alone_n 1%nat.
Qed.

Lemma update_loop_finish (w : World) (pc : UpdPC) (c : SelectCase) :
  loop w = LUpdate pc -> update_ready pc (clock w) ->
  exists n ac',
    (n <= 4)%nat /\
    exec arch (repeat (EvLoop c) n) w = Ok (with_loop w LSelect ac') /\
    done ac' = done (clock w) /\ once ac' = once (clock w) /\
    ((forall el, pc <> UStore el) -> mu ac' = false).
Proof.
  destruct w as [[m ti st srt cd dn mx o] rc k cx tk lp cs]. simpl.
  intros -> Hr.
  destruct pc as [| |el|el]; simpl in Hr; try subst mx.
  - exists 4%nat. eexists. split; [lia|]. split; [destruct k; reflexivity|].
    simpl. auto.
  - exists 3%nat. eexists. split; [lia|]. split; [destruct k; reflexivity|].
    simpl. auto.
  - exists 2%nat. eexists. split; [lia|]. split; [destruct k; reflexivity|].
    simpl. auto.
  - exists 1%nat. eexists. split; [lia|]. split; [destruct k; reflexivity|].
    simpl. repeat split. intros H. exfalso. apply (H el). reflexivity.
Qed.

End Finish.

Lemma forallb_repeat {A : Type} (f : A -> bool) (x : A) (n : nat) :
  f x = true -> forallb f (repeat x n) = true.
Proof. intros H. induction n; simpl; [reflexivity|]. rewrite H, IHn. reflexivity. Qed.

Lemma Inv_once_held (w : World) (pc : StopPC) :
  Inv w -> holds_once pc = 1%nat ->
  loop w = LStop pc \/ (exists i, calls w !! i = Some (CStop pc)) ->
  once_m (once (clock w)) = true /\ stop_pc_ok (clock w) pc.
Proof.
  intros [[Hcount _ _ Hloop Hcall _] _ _ _] Hpc H. unfold once_holders in Hcount.
  split.
  - destruct (once_m (once (clock w))); [reflexivity|]. simpl in Hcount.
    destruct H as [El | (i & Hi)].
    + rewrite El in Hcount. simpl in Hcount. lia.
    + pose proof (sum_list_with_lookup call_holds_once _ _ _ Hi) as Hs.
      simpl in Hs. lia.
  - destruct H as [El | (i & Hi)]; eauto.
Qed.

Lemma Inv_once_holder (w : World) :
  Inv w -> once_m (once (clock w)) = true ->
  (exists pc, loop w = LStop pc /\ holds_once pc = 1%nat) \/
  (exists i pc, calls w !! i = Some (CStop pc) /\ holds_once pc = 1%nat).
Proof.
  intros [[Hcount _ _ _ _ _] _ _ _] Hm. unfold once_holders in Hcount.
  rewrite Hm in Hcount. simpl in Hcount.
  destruct (loop_holds_once (loop w)) as [|n] eqn:El.
  - right.
    destruct (sum_list_with_pos call_holds_once (calls w)) as (i & c & Hi & Hc); [lia|].
    destruct c as [pc|pc|op]; simpl in Hc; try lia.
    exists i, pc. split; [assumption|]. destruct pc; simpl in *; lia.
  - left. destruct (loop w) as [| |pc|pc|]; simpl in El; try discriminate.
    exists pc. split; [reflexivity|]. destruct pc; simpl in *; lia.
Qed.

Section Progress.

Variable arch : float64 -> Z.

Lemma step_kind_ok (e : Event) (w w' : World) :
  step arch e w = Ok w' -> kind_ok w -> kind_ok w'.
Proof.
  intros Hs Hk. unfold kind_ok in *.
  destruct (step_frame arch _ _ _ Hs) as (_ & Ek & _). rewrite Ek.
  destruct e as [rc| | |c|op|i].
  - simpl in Hs. destruct (_ && _); [|discriminate]. injection Hs as <-. exact Hk.
  - simpl in Hs. destruct (ticker w) as [t|]; [|discriminate].
    destruct (Ticker_fire (real w) t); simpl in Hs; try discriminate.
    injection Hs as <-. exact Hk.
  - simpl in Hs. destruct (kind w); [discriminate|]. injection Hs as <-. exact Hk.
  - simpl in Hs. rewrite loop_step_cases in Hs.
    destruct (loop w) as [| |pc|pc|] eqn:El; simpl in Hs.
    + injection Hs as <-. simpl. discriminate.
    + destruct c.
      * destruct (ticker w) as [t|]; [|discriminate].
        destruct (pending t); [|discriminate]. injection Hs as <-. simpl. discriminate.
      * destruct (kind w); [discriminate|]. reflexivity.
      * destruct (done (clock w)); [|discriminate]. injection Hs as <-. simpl.
        discriminate.
    + destruct (updateClock_step arch (real w) pc (clock w)) as [[[pc'|] ac']| |];
        simpl in Hs; try discriminate; injection Hs as <-; simpl; discriminate.
    + destruct (kind w); [discriminate|]. reflexivity.
    + discriminate.
  - assert (El : loop w' = loop w) by (destruct op; injection Hs as <-; reflexivity).
    rewrite El. exact Hk.
  - destruct (call_step_inv arch _ _ _ Hs) as (c & c' & _ & _ & El & _).
    rewrite El. exact Hk.
Qed.

Lemma exec_kind_ok (es : list Event) (w w' : World) :
  exec arch es w = Ok w' -> kind_ok w -> kind_ok w'.
Proof.
  revert w. induction es as [|e es IH]; intros w; simpl.
  - intros [= <-]. auto.
  - destruct (step arch e w) as [w1| |] eqn:Es; simpl; try discriminate.
    intros He Hk. eapply IH; eauto using step_kind_ok.
Qed.

Lemma exec_Inv (es : list Event) (w w' : World) :
  Inv w -> exec arch es w = Ok w' -> Inv w'.
Proof.
  intros HI He. pose proof (exec_sound arch es w HI) as H.
  rewrite He in H. exact H.
Qed.

Lemma Initial_kind_ok (w : World) : Initial w -> kind_ok w.
Proof. intros Hi pc. destruct Hi; discriminate. Qed.

(** Whoever holds [mu] gives it back, without help. *)
Lemma release_mu (w : World) :
  Inv w -> mu (clock w) = true ->
  exists es w',
    (length es <= 4)%nat /\ forallb is_move es = true /\
    exec arch es w = Ok w' /\
    mu (clock w') = false /\
    done (clock w') = done (clock w) /\
    kind w' = kind w /\ ctx_done w' = ctx_done w /\
    (forall j c, calls w !! j = Some c -> call_in_mu c = false ->
                 calls w' !! j = Some c) /\
    (loop_in_mu (loop w) = false -> loop w' = loop w).
Proof.
  intros HI Hm.
  destruct (Inv_mu_holder w HI Hm) as [Hl | (i & c & Hi & Hc)].
  - destruct (loop w) as [| |pc|pc|] eqn:El; try discriminate.
    assert (Hr : update_ready pc (clock w)) by (destruct pc; try discriminate; exact Hm).
    destruct (update_loop_finish arch w pc CaseTick El Hr)
      as (n & ac' & Hn & He & Hd & _ & Hmu).
    exists (repeat (EvLoop CaseTick) n), (with_loop w LSelect ac').
    rewrite repeat_length. split; [exact Hn|].
    split; [apply forallb_repeat; reflexivity|]. split; [exact He|]. simpl.
    split; [apply Hmu; intros el ->; discriminate|].
    repeat split; auto. intros H. congruence.
  - destruct c as [pc|pc|op]; try discriminate.
    assert (Hr : reset_ready pc (clock w)) by (destruct pc; try discriminate; exact Hm).
    destruct (Reset_call_finish arch w i pc Hi Hr) as (n & ac' & Hn & He & Hmu & Hd & _).
    exists (repeat (EvStep i) n), (with_calls w (<[i := CReturned OpReset]> (calls w)) ac').
    rewrite repeat_length. split; [exact Hn|].
    split; [apply forallb_repeat; reflexivity|]. split; [exact He|]. simpl.
    repeat split; auto.
    intros j c Hj Hcj. destruct (decide (j = i)) as [->|Hne].
    + rewrite Hi in Hj. injection Hj as <-. rewrite Hc in Hcj. discriminate.
    + rewrite list_lookup_insert_ne by congruence. exact Hj.
Qed.

(** Whoever holds the mutex of [once] gives it back, the channel closed. *)
Lemma release_once (w : World) :
  Inv w -> kind_ok w -> once_m (once (clock w)) = true ->
  exists es w',
    (length es <= 6)%nat /\ forallb is_move es = true /\
    exec arch es w = Ok w' /\
    once_m (once (clock w')) = false /\
    done (clock w') = true /\ once_done (once (clock w')) = true /\
    (forall j c, calls w !! j = Some c -> call_holds_once c = 0%nat ->
                 calls w' !! j = Some c) /\
    (loop_holds_once (loop w) = 0%nat -> loop w' = loop w).
Proof.
  intros HI Hk Hm.
  destruct (Inv_once_holder w HI Hm) as [(pc & El & Hpc) | (i & pc & Hi & Hpc)].
  - destruct (Inv_once_held w pc HI Hpc (or_introl El)) as [_ Hok].
    assert (Hr : stop_ready pc (clock w)) by (destruct pc; try discriminate; simpl; auto).
    destruct (Stop_loop_finish arch w pc CaseTick El (Hk _ El) Hr)
      as (n & ac' & Hn & He & Hd & Hod & Hom & _).
    exists (repeat (EvLoop CaseTick) n), (loop_return w ac').
    rewrite repeat_length. split; [exact Hn|].
    split; [apply forallb_repeat; reflexivity|]. split; [exact He|]. simpl.
    repeat split; auto. rewrite El. simpl. lia.
  - destruct (Inv_once_held w pc HI Hpc (or_intror (ex_intro _ i Hi))) as [_ Hok].
    assert (Hr : stop_ready pc (clock w)) by (destruct pc; try discriminate; simpl; auto).
    destruct (Stop_call_finish arch w i pc Hi Hr)
      as (n & ac' & Hn & He & Hd & Hod & Hom & _).
    exists (repeat (EvStep i) n), (with_calls w (<[i := CReturned OpStop]> (calls w)) ac').
    rewrite repeat_length. split; [exact Hn|].
    split; [apply forallb_repeat; reflexivity|]. split; [exact He|]. simpl.
    repeat split; auto.
    intros j c Hj Hcj. destruct (decide (j = i)) as [->|Hne].
    + rewrite Hi in Hj. injection Hj as <-. simpl in Hcj. lia.
    + rewrite list_lookup_insert_ne by congruence. exact Hj.
Qed.

(** X14.  [Reset()] never waits for ever.  From every reachable state,
    a call of [Reset()] that is in flight returns after at most 8 steps
    of goroutines already there: whoever holds [mu] gives it back without
    waiting for anything, and the call then runs to its end. *)
Theorem Reset_always_returns
  (w0 : World) (es : list Event) (w : World) (i : nat) (pc : ResetPC) :
  Initial w0 -> exec arch es w0 = Ok w ->
  calls w !! i = Some (CReset pc) ->
  exists es' w',
    (length es' <= 8)%nat /\ forallb is_move es' = true /\
    exec arch es' w = Ok w' /\
    calls w' !! i = Some (CReturned OpReset).
Proof.
  intros Hi He Hc. pose proof (reachable_Inv arch _ _ _ Hi He) as HI.
  assert (Hfin : forall w1, calls w1 !! i = Some (CReset pc) ->
             reset_ready pc (clock w1) ->
             exists n w', (n <= 4)%nat /\
               exec arch (repeat (EvStep i) n) w1 = Ok w' /\
               calls w' !! i = Some (CReturned OpReset)).
  { intros w1 Hc1 Hr.
    destruct (Reset_call_finish arch w1 i pc Hc1 Hr) as (n & ac' & Hn & He1 & _).
    exists n. eexists. split; [exact Hn|]. split; [exact He1|]. simpl.
    apply list_lookup_insert_eq. eapply lookup_lt_Some; eauto. }
  destruct (mu (clock w)) eqn:Hm.
  - destruct pc.
    + destruct (release_mu w HI Hm)
        as (es1 & w1 & Hn1 & Hmv & He1 & Hm1 & _ & _ & _ & Hcs & _).
      destruct (Hfin w1 (Hcs _ _ Hc eq_refl) Hm1) as (n & w' & Hn & He2 & Hret).
      exists (es1 ++ repeat (EvStep i) n), w'.
      rewrite length_app, repeat_length, forallb_app, Hmv, exec_app, He1.
      split; [lia|]. split; [apply forallb_repeat; reflexivity | auto].
    + destruct (Hfin w Hc Hm) as (n & w' & Hn & He2 & Hret).
      exists (repeat (EvStep i) n), w'. rewrite repeat_length.
      split; [lia|]. split; [apply forallb_repeat; reflexivity | auto].
    + destruct (Hfin w Hc Hm) as (n & w' & Hn & He2 & Hret).
      exists (repeat (EvStep i) n), w'. rewrite repeat_length.
      split; [lia|]. split; [apply forallb_repeat; reflexivity | auto].
    + destruct (Hfin w Hc Hm) as (n & w' & Hn & He2 & Hret).
      exists (repeat (EvStep i) n), w'. rewrite repeat_length.
      split; [lia|]. split; [apply forallb_repeat; reflexivity | auto].
  - assert (Hr : reset_ready pc (clock w)).
    { destruct pc; simpl; try exact Hm;
        pose proof (Inv_mu_held_by_call w i _ HI Hc eq_refl); congruence. }
    destruct (Hfin w Hc Hr) as (n & w' & Hn & He2 & Hret).
    exists (repeat (EvStep i) n), w'. rewrite repeat_length.
    split; [lia|]. split; [apply forallb_repeat; reflexivity | auto].
Qed.

Lemma stop_ready_now (w : World) (pc : StopPC) :
  Inv w ->
  loop w = LStop pc \/ (exists i, calls w !! i = Some (CStop pc)) ->
  once_m (once (clock w)) = false \/ holds_once pc = 1%nat ->
  stop_ready pc (clock w).
Proof.
  intros HI Hat H.
  assert (Hfree : once_m (once (clock w)) = false ->
                  done (clock w) = once_done (once (clock w)))
    by (destruct HI as [[_ Hf _ _ _ _] _ _ _]; exact Hf).
  destruct (holds_once pc) eqn:Hpc.
  - destruct H as [Hm | H]; [|discriminate].
    destruct pc; try discriminate; simpl; auto.
  - assert (Hh : holds_once pc = 1%nat) by (destruct pc; simpl in *; congruence).
    destruct (Inv_once_held w pc HI Hh Hat) as [Hm Hok].
    destruct pc; try discriminate; simpl; auto.
Qed.

(** X15.  [Stop()] never waits for ever.  From every reachable state, a
    call of [Stop()] that is in flight returns after at most 12 steps of
    goroutines already there, and the channel is closed when it does. *)
Theorem Stop_always_returns
  (w0 : World) (es : list Event) (w : World) (i : nat) (pc : StopPC) :
  Initial w0 -> exec arch es w0 = Ok w ->
  calls w !! i = Some (CStop pc) ->
  exists es' w',
    (length es' <= 12)%nat /\ forallb is_move es' = true /\
    exec arch es' w = Ok w' /\
    calls w' !! i = Some (CReturned OpStop) /\ done (clock w') = true.
Proof.
  intros Hi He Hc. pose proof (reachable_Inv arch _ _ _ Hi He) as HI.
  pose proof (exec_kind_ok _ _ _ He (Initial_kind_ok _ Hi)) as Hk.
  assert (Hfin : forall w1, calls w1 !! i = Some (CStop pc) ->
             stop_ready pc (clock w1) ->
             exists n w', (n <= 6)%nat /\
               exec arch (repeat (EvStep i) n) w1 = Ok w' /\
               calls w' !! i = Some (CReturned OpStop) /\ done (clock w') = true).
  { intros w1 Hc1 Hr.
    destruct (Stop_call_finish arch w1 i pc Hc1 Hr) as (n & ac' & Hn & He1 & Hd & _).
    exists n. eexists. split; [exact Hn|]. split; [exact He1|]. simpl.
    split; [|exact Hd]. apply list_lookup_insert_eq. eapply lookup_lt_Some; eauto. }
  assert (Hat : loop w = LStop pc \/ (exists j, calls w !! j = Some (CStop pc)))
    by (right; eauto).
  destruct (once_m (once (clock w))) eqn:Hm; [destruct (holds_once pc) eqn:Hpc|].
  - destruct (release_once w HI Hk Hm)
      as (es1 & w1 & Hn1 & Hmv & He1 & Hm1 & Hd1 & Hod1 & Hcs & _).
    assert (Hr : stop_ready pc (clock w1)).
    { destruct pc; try discriminate; simpl; rewrite ?Hd1, ?Hod1; auto. }
    destruct (Hfin w1 (Hcs _ _ Hc Hpc) Hr) as (n & w' & Hn & He2 & Hret).
    exists (es1 ++ repeat (EvStep i) n), w'.
    rewrite length_app, repeat_length, forallb_app, Hmv, exec_app, He1.
    split; [lia|]. split; [apply forallb_repeat; reflexivity | auto].
  - assert (Hh : holds_once pc = 1%nat) by (destruct pc; simpl in *; congruence).
    destruct (Hfin w Hc (stop_ready_now w pc HI Hat (or_intror Hh)))
      as (k & w' & Hn & He2 & Hret).
    exists (repeat (EvStep i) k), w'. rewrite repeat_length.
    split; [lia|]. split; [apply forallb_repeat; reflexivity | auto].
  - destruct (Hfin w Hc (stop_ready_now w pc HI Hat (or_introl Hm)))
      as (k & w' & Hn & He2 & Hret).
    exists (repeat (EvStep i) k), w'. rewrite repeat_length.
    split; [lia|]. split; [apply forallb_repeat; reflexivity | auto].
Qed.

End Progress.

Section LoopExits.

Variable arch : float64 -> Z.

Lemma loop_leaves_Stop (w : World) (pc : StopPC) :
  Inv w -> kind_ok w -> loop w = LStop pc ->
  exists es w',
    (length es <= 12)%nat /\ forallb is_move es = true /\
    exec arch es w = Ok w' /\ loop w' = LExit.
Proof.
  intros HI Hk El.
  assert (Hfin : forall w1, loop w1 = LStop pc -> kind w1 = RunWithContext ->
             stop_ready pc (clock w1) ->
             exists n w', (n <= 6)%nat /\
               exec arch (repeat (EvLoop CaseTick) n) w1 = Ok w' /\ loop w' = LExit).
  { intros w1 El1 Hk1 Hr.
    destruct (Stop_loop_finish arch w1 pc CaseTick El1 Hk1 Hr) as (n & ac' & Hn & He & _).
    exists n. eexists. split; [exact Hn|]. split; [exact He | reflexivity]. }
  destruct (once_m (once (clock w))) eqn:Hm; [destruct (holds_once pc) eqn:Hpc|].
  - destruct (release_once arch w HI Hk Hm)
      as (es1 & w1 & Hn1 & Hmv & He1 & Hm1 & Hd1 & Hod1 & _ & Hl1).
    assert (El1 : loop w1 = LStop pc).
    { rewrite Hl1; [exact El|]. rewrite El. exact Hpc. }
    assert (Hk1 : kind w1 = RunWithContext).
    { destruct (exec_frame arch _ _ _ He1) as (_ & -> & _). exact (Hk _ El). }
    assert (Hr : stop_ready pc (clock w1)).
    { destruct pc; try discriminate; simpl; rewrite ?Hd1, ?Hod1; auto. }
    destruct (Hfin w1 El1 Hk1 Hr) as (n & w' & Hn & He2 & Hx).
    exists (es1 ++ repeat (EvLoop CaseTick) n), w'.
    rewrite length_app, repeat_length, forallb_app, Hmv, exec_app, He1.
    split; [lia|]. split; [apply forallb_repeat; reflexivity | auto].
  - assert (Hh : holds_once pc = 1%nat) by (destruct pc; simpl in *; congruence).
    destruct (Hfin w El (Hk _ El)
                (stop_ready_now w pc HI (or_introl El) (or_intror Hh)))
      as (k & w' & Hn & He2 & Hx).
    exists (repeat (EvLoop CaseTick) k), w'. rewrite repeat_length.
    split; [lia|]. split; [apply forallb_repeat; reflexivity | auto].
  - destruct (Hfin w El (Hk _ El)
                (stop_ready_now w pc HI (or_introl El) (or_introl Hm)))
      as (n & w' & Hn & He2 & Hx).
    exists (repeat (EvLoop CaseTick) n), w'. rewrite repeat_length.
    split; [lia|]. split; [apply forallb_repeat; reflexivity | auto].
Qed.

Lemma loop_leaves_updateClock (w : World) (pc : UpdPC) :
  Inv w -> loop w = LUpdate pc ->
  exists es w',
    (length es <= 8)%nat /\ forallb is_move es = true /\
    exec arch es w = Ok w' /\ loop w' = LSelect /\
    done (clock w') = done (clock w) /\ ctx_done w' = ctx_done w.
Proof.
  intros HI El.
  assert (Hfin : forall w1, loop w1 = LUpdate pc -> update_ready pc (clock w1) ->
             exists n w', (n <= 4)%nat /\
               exec arch (repeat (EvLoop CaseTick) n) w1 = Ok w' /\ loop w' = LSelect /\
               done (clock w') = done (clock w1) /\ ctx_done w' = ctx_done w1).
  { intros w1 El1 Hr.
    destruct (update_loop_finish arch w1 pc CaseTick El1 Hr)
      as (n & ac' & Hn & He & Hd & _).
    exists n. eexists. split; [exact Hn|]. split; [exact He|]. simpl. auto. }
  assert (Hnow : mu (clock w) = false \/ pc <> ULock -> update_ready pc (clock w)).
  { intros H. destruct pc as [| |el|el]; simpl; auto.
    - destruct H as [H|H]; [exact H | congruence].
    - apply Inv_mu_held_by_loop; [exact HI | rewrite El; reflexivity].
    - apply Inv_mu_held_by_loop; [exact HI | rewrite El; reflexivity]. }
  assert (Hpc : pc = ULock \/ pc <> ULock)
    by (destruct pc; [left; reflexivity | right; discriminate ..]).
  destruct (mu (clock w)) eqn:Hm; [destruct Hpc as [->|Hne]|].
  - destruct (release_mu arch w HI Hm)
      as (es1 & w1 & Hn1 & Hmv & He1 & Hm1 & Hd1 & _ & Hx1 & _ & Hl1).
    assert (El1 : loop w1 = LUpdate ULock).
    { rewrite Hl1; [exact El|]. rewrite El. reflexivity. }
    destruct (Hfin w1 El1 Hm1) as (n & w' & Hn & He2 & Hl & Hd & Hx).
    exists (es1 ++ repeat (EvLoop CaseTick) n), w'.
    rewrite length_app, repeat_length, forallb_app, Hmv, exec_app, He1.
    split; [lia|]. split; [apply forallb_repeat; reflexivity|].
    split; [exact He2|]. split; [exact Hl|]. split; congruence.
  - destruct (Hfin w El (Hnow (or_intror Hne))) as (n & w' & Hn & He2 & Hl & Hd & Hx).
    exists (repeat (EvLoop CaseTick) n), w'. rewrite repeat_length.
    split; [lia|]. split; [apply forallb_repeat; reflexivity | auto].
  - destruct (Hfin w El (Hnow (or_introl eq_refl))) as (n & w' & Hn & He2 & Hl & Hd & Hx).
    exists (repeat (EvLoop CaseTick) n), w'. rewrite repeat_length.
    split; [lia|]. split; [apply forallb_repeat; reflexivity | auto].
Qed.

Lemma loop_leaves_select (w : World) :
  Inv w -> kind_ok w -> loop w = LSelect -> stop_requested w ->
  exists es w',
    (length es <= 13)%nat /\ forallb is_move es = true /\
    exec arch es w = Ok w' /\ loop w' = LExit.
Proof.
  intros HI Hk El Hreq.
  destruct (done (clock w)) eqn:Hd.
  - exists [EvLoop CaseDone], (loop_return w (clock w)).
    split; [simpl; lia|]. split; [reflexivity|]. split; [|reflexivity].
    simpl. rewrite loop_step_cases, El, Hd. reflexivity.
  - destruct Hreq as [H | [Hkind Hx]]; [congruence|].
    assert (Es : step arch (EvLoop CaseCtx) w = Ok (with_loop w (LStop SFast) (clock w))).
    { simpl. rewrite loop_step_cases, El, Hkind, Hx. reflexivity. }
    pose proof (step_sound arch (EvLoop CaseCtx) w HI) as HI1. rewrite Es in HI1.
    pose proof (step_kind_ok arch _ _ _ Es Hk) as Hk1.
    destruct (loop_leaves_Stop _ SFast HI1 Hk1 eq_refl) as (es1 & w' & Hn & Hmv & He & Hl).
    exists (EvLoop CaseCtx :: es1), w'.
    split; [simpl; lia|]. split; [simpl; exact Hmv|]. split; [|exact Hl].
    cbn [exec]. rewrite Es. exact He.
Qed.

(** X16.  Once the clock is asked to stop, the loop can always return.
    From every reachable state in which the channel is closed or the
    context of [runWithContext] is cancelled, at most 21 steps of
    goroutines already there bring the loop to its return, with the
    ticker stopped and the channel closed. *)
Theorem loop_always_exits (w0 : World) (es : list Event) (w : World) :
  Initial w0 -> exec arch es w0 = Ok w -> stop_requested w ->
  exists es' w',
    (length es' <= 21)%nat /\ forallb is_move es' = true /\
    exec arch es' w = Ok w' /\
    loop w' = LExit /\ ticker w' = None /\ done (clock w') = true.
Proof.
  intros Hi He Hreq. pose proof (reachable_Inv arch _ _ _ Hi He) as HI.
  pose proof (exec_kind_ok arch _ _ _ He (Initial_kind_ok _ Hi)) as Hk.
  assert (Hend : forall es' w', exec arch es' w = Ok w' -> loop w' = LExit ->
             ticker w' = None /\ done (clock w') = true).
  { intros es' w' He' Hl. destruct (exec_Inv arch _ _ _ HI He') as [_ _ [Hx Ht] _].
    rewrite Hl in Ht. auto. }
  assert (Hsel : forall es1 w1, (length es1 <= 8)%nat -> forallb is_move es1 = true ->
             exec arch es1 w = Ok w1 -> loop w1 = LSelect -> stop_requested w1 ->
             exists es' w',
               (length es' <= 21)%nat /\ forallb is_move es' = true /\
               exec arch es' w = Ok w' /\
               loop w' = LExit /\ ticker w' = None /\ done (clock w') = true).
  { intros es1 w1 Hn1 Hmv1 He1 El1 Hreq1.
    destruct (loop_leaves_select w1 (exec_Inv arch _ _ _ HI He1)
                (exec_kind_ok arch _ _ _ He1 Hk) El1 Hreq1)
      as (es2 & w' & Hn2 & Hmv2 & He2 & Hl).
    assert (He' : exec arch (es1 ++ es2) w = Ok w') by (rewrite exec_app, He1; exact He2).
    exists (es1 ++ es2), w'. rewrite length_app, forallb_app, Hmv1, Hmv2.
    split; [lia|]. split; [reflexivity|]. split; [exact He'|].
    split; [exact Hl | exact (Hend _ _ He' Hl)]. }
  destruct (loop w) as [| |pc|pc|] eqn:El.
  - assert (Es : exists w1, step arch (EvLoop CaseTick) w = Ok w1 /\ loop w1 = LSelect /\
                            clock w1 = clock w /\ kind w1 = kind w /\
                            ctx_done w1 = ctx_done w).
    { simpl. rewrite loop_step_cases, El. eexists. split; [reflexivity|]. auto. }
    destruct Es as (w1 & Es & El1 & Ec & Ek & Ex).
    apply (Hsel [EvLoop CaseTick] w1); auto.
    + simpl. lia.
    + cbn [exec]. rewrite Es. reflexivity.
    + unfold stop_requested. rewrite Ec, Ek, Ex. exact Hreq.
  - apply (Hsel [] w); auto. simpl. lia.
  - destruct (loop_leaves_updateClock w pc HI El)
      as (es1 & w1 & Hn1 & Hmv1 & He1 & El1 & Hd1 & Hx1).
    apply (Hsel es1 w1); auto.
    unfold stop_requested. destruct (exec_frame arch _ _ _ He1) as (_ & Ek & _).
    rewrite Hd1, Ek, Hx1. exact Hreq.
  - destruct (loop_leaves_Stop w pc HI Hk El) as (es1 & w' & Hn & Hmv & He1 & Hl).
    exists es1, w'. split; [lia|]. split; [exact Hmv|]. split; [exact He1|].
    split; [exact Hl | exact (Hend _ _ He1 Hl)].
  - exists [], w. split; [simpl; lia|]. split; [reflexivity|]. split; [reflexivity|].
    split; [exact El|]. apply (Hend [] w); [reflexivity | exact El].
Qed.

End LoopExits.

(** ** The pace of the ticker *)

Lemma Ticker_fire_pace (rc : RealClock) (t t' : Ticker) :
  period t = Millisecond -> Ticker_fire rc t = Ok t' ->
  period t' = Millisecond /\ pending t' = true /\
  next t <= rmono rc /\
  next t + Millisecond <= next t' <= rmono rc + Millisecond.
Proof.
  unfold Ticker_fire. intros Hp. destruct (Z.ltb_spec (rmono rc) (next t)); [discriminate|].
  intros [= <-]. simpl. rewrite Hp.
  assert (HM : Millisecond = 1000000) by reflexivity. rewrite HM.
  pose proof (Z.div_pos (rmono rc - next t) 1000000 ltac:(lia) ltac:(lia)).
  pose proof (Z.mul_div_le (rmono rc - next t) 1000000 ltac:(lia)).
  repeat split; try lia.
Qed.

Section Pace.

Variable arch : float64 -> Z.

Lemma step_ticker_pace (t0 : Z) (n : nat) (e : Event) (w w' : World) :
  Inv w -> step arch e w = Ok w' -> ticker_pace t0 n w ->
  ticker_pace t0 ((if publishing e w then 1 else 0) + n) w'.
Proof.
  intros HI Hs (H0 & Hnow & Hst & Ht).
  assert (HM : Millisecond = 1000000) by reflexivity.
  destruct HI as [_ _ [_ Hlt] _].
  unfold ticker_pace, ticks_in_flight in *.
  destruct e as [rc| | |c|op|i].
  - simpl in Hs. destruct (Z.leb_spec (rmono (real w)) (rmono rc)); simpl in Hs;
      [|discriminate].
    destruct (in_int64 (rmono rc)); [|discriminate]. injection Hs as <-. simpl.
    split; [lia|]. split; [lia|]. split; [exact Hst|].
    intros t Et. destruct (Ht t Et) as (Hp & Hn & Hx). repeat split; auto; lia.
  - simpl in Hs. destruct (ticker w) as [t|] eqn:Et; [|discriminate].
    destruct (Ht t eq_refl) as (Hp & Hn & Hx).
    destruct (Ticker_fire (real w) t) as [t'| |] eqn:Ef; simpl in Hs; try discriminate.
    injection Hs as <-. simpl.
    destruct (Ticker_fire_pace _ _ _ Hp Ef) as (Hp' & Hpd & Hdue & Hn1 & Hn2).
    rewrite Hpd. split; [lia|].
    assert (Hb : (if pending t then 1 else 0) <= 1) by (destruct (pending t); lia).
    split; [destruct (pending t); lia|]. split; [exact Hst|].
    intros t1 [= <-]. split; [exact Hp'|].
    split; [destruct (pending t); lia | lia].
  - simpl in Hs. destruct (kind w); [discriminate|]. injection Hs as <-. simpl. auto.
  - simpl in Hs. rewrite loop_step_cases in Hs. unfold publishing.
    destruct (loop w) as [| |pc|pc|] eqn:El; simpl in Hs.
    + rewrite Hlt in *. specialize (Hst eq_refl). subst n.
      injection Hs as <-. simpl. split; [lia|]. split; [lia|].
      split; [discriminate|]. intros t [= <-]. simpl. repeat split; lia.
    + destruct c.
      * destruct (ticker w) as [t|] eqn:Et; [|discriminate].
        destruct (pending t) eqn:Ep; [|discriminate]. injection Hs as <-. simpl.
        destruct (Ht t eq_refl) as (Hp & Hn & Hx).
        split; [lia|]. split; [lia|]. split; [discriminate|].
        intros t1 [= <-]. simpl. repeat split; auto; lia.
      * destruct (kind w); [discriminate|].
        destruct (ctx_done w); [|discriminate]. injection Hs as <-. simpl.
        split; [lia|]. split; [exact Hnow|]. split; [discriminate | exact Ht].
      * destruct (done (clock w)); [|discriminate]. injection Hs as <-. simpl.
        split; [lia|]. split; [|split; [discriminate | intros; discriminate]].
        destruct (ticker w) as [t|]; [destruct (pending t)|]; lia.
    + destruct (updateClock_step arch (real w) pc (clock w)) as [[pc' ac']| |] eqn:Es;
        simpl in Hs; try discriminate.
      destruct pc as [| |el|el]; simpl in Es.
      * destruct (mu_Lock (clock w)); simpl in Es; try discriminate.
        injection Es as <- <-. injection Hs as <-. simpl.
        split; [lia|]. split; [exact Hnow|]. split; [discriminate | exact Ht].
      * injection Es as <- <-. injection Hs as <-. simpl.
        split; [lia|]. split; [exact Hnow|]. split; [discriminate | exact Ht].
      * destruct (mu_Unlock (clock w)); simpl in Es; try discriminate.
        injection Es as <- <-. injection Hs as <-. simpl.
        split; [lia|]. split; [exact Hnow|]. split; [discriminate | exact Ht].
      * injection Es as <- <-. injection Hs as <-. simpl.
        split; [lia|]. split; [lia|]. split; [discriminate|].
        intros t Et. destruct (Ht t Et) as (Hp & Hn & Hx). repeat split; auto; lia.
    + destruct (kind w); [discriminate|].
      destruct (Stop_step pc (clock w)) as [[[pc'|] ac']| |]; simpl in Hs;
        try discriminate; injection Hs as <-; simpl.
      * split; [lia|]. split; [exact Hnow|]. split; [discriminate | exact Ht].
      * split; [lia|]. split; [|split; [discriminate | intros; discriminate]].
        destruct (ticker w) as [t|]; [destruct (pending t)|]; lia.
    + discriminate.
  - assert (E : loop w' = loop w /\ ticker w' = ticker w /\ real w' = real w)
      by (destruct op; injection Hs as <-; auto).
    destruct E as (-> & -> & ->). simpl. auto.
  - destruct (call_step_inv arch _ _ _ Hs) as (c & c' & _ & _ & -> & -> & -> & _).
    simpl. auto.
Qed.

Lemma exec_ticker_pace (t0 : Z) (n : nat) (es : list Event) (w w' : World) :
  Inv w -> exec arch es w = Ok w' -> ticker_pace t0 n w ->
  ticker_pace t0 (publications arch es w + n) w'.
Proof.
  revert n w. induction es as [|e es IH]; intros n w HI; simpl.
  - intros [= <-]. auto.
  - destruct (step arch e w) as [w1| |] eqn:Es; simpl; try discriminate.
    intros He Hp.
    pose proof (step_sound arch e w HI) as HI1. rewrite Es in HI1.
    pose proof (step_ticker_pace t0 n e w w1 HI Es Hp) as Hp1.
    pose proof (IH _ w1 HI1 He Hp1) as Hp'.
    replace ((if publishing e w then 1 else 0) + publications arch es w1 + n)%nat
      with (publications arch es w1 + ((if publishing e w then 1 else 0) + n))%nat
      by lia.
    exact Hp'.
Qed.

Lemma Initial_ticker_pace (w : World) :
  Initial w -> ticker_pace (rmono (real w)) 0 w.
Proof.
  intros Hi. destruct (Initial_fresh _ Hi) as (_ & _ & Hl & Ht & _).
  unfold ticker_pace, ticks_in_flight. rewrite Hl, Ht. simpl.
  split; [lia|]. split; [lia|]. split; [reflexivity | intros; discriminate].
Qed.

(** X17.  The loop publishes at most once per millisecond of real time:
    along every schedule the number of publications times one millisecond
    is at most the monotonic time elapsed since construction, whatever
    update interval was asked for.  The ticker, while the loop runs, has
    period one millisecond and is due at most one millisecond from
    now. *)
Theorem at_most_one_update_per_millisecond
  (w0 : World) (es : list Event) (w : World) :
  Initial w0 -> exec arch es w0 = Ok w ->
  Z.of_nat (publications arch es w0) * Millisecond
  <= rmono (real w) - rmono (real w0) /\
  (forall t, ticker w = Some t ->
     period t = Millisecond /\ next t <= rmono (real w) + Millisecond).
Proof.
  intros Hi He.
  pose proof (exec_ticker_pace _ 0 es w0 w (Initial_Inv _ Hi) He (Initial_ticker_pace _ Hi))
    as (H0 & Hnow & _ & Ht).
  rewrite Nat.add_0_r in *.
  assert (Hf : 0 <= ticks_in_flight w).
  { unfold ticks_in_flight.
    destruct (ticker w) as [t|]; [destruct (pending t)|]; destruct (loop w); lia. }
  assert (HM : Millisecond = 1000000) by reflexivity.
  split; [lia|].
  intros t Et. destruct (Ht t Et) as (Hp & Hn & Hx). auto.
Qed.

End Pace.

(** ** The clock catches up *)

Section CatchUp.

Variable arch : float64 -> Z.

Lemma step_move_real (e : Event) (w w' : World) :
  is_move e = true -> step arch e w = Ok w' -> real w' = real w.
Proof.
  destruct e as [rc| | |c|op|i]; try discriminate; intros _ Hs.
  - simpl in Hs. rewrite loop_step_cases in Hs.
    destruct (loop w) as [| |pc|pc|]; simpl in Hs.
    + injection Hs as <-. reflexivity.
    + destruct c.
      * destruct (ticker w) as [t|]; [|discriminate].
        destruct (pending t); [|discriminate]. injection Hs as <-. reflexivity.
      * destruct (kind w); [discriminate|].
        destruct (ctx_done w); [|discriminate]. injection Hs as <-. reflexivity.
      * destruct (done (clock w)); [|discriminate]. injection Hs as <-. reflexivity.
    + destruct (updateClock_step arch (real w) pc (clock w)) as [[[pc'|] ac']| |];
        simpl in Hs; try discriminate; injection Hs as <-; reflexivity.
    + destruct (kind w); [discriminate|].
      destruct (Stop_step pc (clock w)) as [[[pc'|] ac']| |]; simpl in Hs;
        try discriminate; injection Hs as <-; reflexivity.
    + discriminate.
  - destruct (call_step_inv arch _ _ _ Hs) as (c & c' & _ & _ & _ & _ & E & _).
    exact E.
Qed.

Lemma exec_moves_real (es : list Event) (w w' : World) :
  forallb is_move es = true -> exec arch es w = Ok w' -> real w' = real w.
Proof.
  revert w. induction es as [|e es IH]; intros w; simpl.
  - intros _ [= <-]. reflexivity.
  - rewrite andb_true_iff. intros [He Hes].
    destruct (step arch e w) as [w1| |] eqn:Es; simpl; try discriminate.
    intros Hx. rewrite (IH _ Hes Hx). eapply step_move_real; eauto.
Qed.

(** Time passes, the ticker fires, and the loop runs one tick alone. *)
Lemma tick_now (w : World) (rc' : RealClock) (t : Ticker) :
  loop w = LSelect -> mu (clock w) = false -> ticker w = Some t ->
  next t <= rmono rc' -> rmono (real w) <= rmono rc' -> in_int64 (rmono rc') = true ->
  exists w',
    exec arch (EvTime rc' :: EvTicker :: repeat (EvLoop CaseTick) 5) w = Ok w' /\
    real w' = rc' /\ loop w' = LSelect /\
    startRealTime (clock w') = startRealTime (clock w) /\
    currentDuration (clock w')
    = accelerated arch (multiplier (clock w))
        (time_Since rc' (startRealTime (clock w))).
Proof.
  destruct w as [[m ti st srt cd dn mx o] rc k cx tk lp cs]. simpl.
  intros -> -> -> Hn Hr Hi.
  apply Z.leb_le in Hr. apply Z.ltb_ge in Hn.
  eexists. split.
  - cbn [exec step real obind]. rewrite Hr, Hi. cbn [andb obind exec step ticker real].
    unfold Ticker_fire. cbn [rmono]. rewrite Hn.
    destruct k; reflexivity.
  - simpl. auto.
Qed.

(** X18.  The clock catches up.  From every reachable state in which
    the loop is neither inside [Stop()] nor returned, and for every later
    reading of the real clocks at least one millisecond ahead, some
    schedule leads to a state at that reading in which the published
    duration is the product for the time elapsed since the real epoch
    then in force. *)
Theorem clock_catches_up
  (w0 : World) (es : list Event) (w : World) (rc' : RealClock) :
  Initial w0 -> exec arch es w0 = Ok w ->
  loop_runs (loop w) = true ->
  rmono (real w) + Millisecond <= rmono rc' -> in_int64 (rmono rc') = true ->
  exists es' w',
    exec arch es' w = Ok w' /\
    real w' = rc' /\ loop w' = LSelect /\
    currentDuration (clock w')
    = int64_of_float64 arch
        (accelerated_float (multiplier (clock w0))
           (time_Since rc' (startRealTime (clock w')))) /\
    0 <= time_Since rc' (startRealTime (clock w')) <= maxInt64.
Proof.
  intros Hi He Hrun Hrc Hin.
  pose proof (reachable_Inv arch _ _ _ Hi He) as HI.
  assert (HM : Millisecond = 1000000) by reflexivity.
  (* the loop reaches its select *)
  assert (H1 : exists es1 w1, forallb is_move es1 = true /\
                 exec arch es1 w = Ok w1 /\ loop w1 = LSelect).
  { destruct (loop w) as [| |pc|pc|] eqn:El; try discriminate.
    - exists [EvLoop CaseTick]. eexists. split; [reflexivity|]. split.
      + cbn [exec step]. rewrite loop_step_cases, El. reflexivity.
      + reflexivity.
    - exists [], w. auto.
    - destruct (loop_leaves_updateClock arch w pc HI El)
        as (es1 & w1 & _ & Hmv & He1 & El1 & _).
      exists es1, w1. auto. }
  destruct H1 as (es1 & w1 & Hmv1 & He1 & El1).
  pose proof (exec_Inv arch _ _ _ HI He1) as HI1.
  (* [mu] is given back *)
  assert (H2 : exists es2 w2, forallb is_move es2 = true /\
                 exec arch es2 w1 = Ok w2 /\ loop w2 = LSelect /\
                 mu (clock w2) = false).
  { destruct (mu (clock w1)) eqn:Hm.
    - destruct (release_mu arch w1 HI1 Hm)
        as (es2 & w2 & _ & Hmv & He2 & Hm2 & _ & _ & _ & _ & Hl).
      exists es2, w2. split; [exact Hmv|]. split; [exact He2|].
      split; [|exact Hm2]. rewrite Hl; [exact El1|]. rewrite El1. reflexivity.
    - exists [], w1. auto. }
  destruct H2 as (es2 & w2 & Hmv2 & He2 & El2 & Hm2).
  assert (He12 : exec arch (es1 ++ es2) w = Ok w2) by (rewrite exec_app, He1; exact He2).
  assert (Hreal : real w2 = real w).
  { apply (exec_moves_real (es1 ++ es2)); [|exact He12].
    rewrite forallb_app, Hmv1, Hmv2. reflexivity. }
  assert (He02 : exec arch (es ++ es1 ++ es2) w0 = Ok w2)
    by (rewrite exec_app, He; exact He12).
  pose proof (reachable_Inv arch _ _ _ Hi He02) as HI2.
  pose proof (exec_ticker_pace arch _ 0 _ w0 w2 (Initial_Inv _ Hi) He02
                (Initial_ticker_pace _ Hi)) as (_ & _ & _ & Hpace).
  assert (Htk : exists t, ticker w2 = Some t).
  { destruct HI2 as [_ _ [_ Ht] _]. rewrite El2 in Ht.
    destruct Ht as (t & Ht & _). eauto. }
  destruct Htk as (t & Et). destruct (Hpace t Et) as (_ & _ & Hnext).
  rewrite Hreal in Hnext.
  destruct (tick_now w2 rc' t El2 Hm2 Et) as (w' & He3 & Hr & El' & Hsrt & Hcd);
    [lia | rewrite Hreal; lia | exact Hin |].
  exists ((es1 ++ es2) ++ EvTime rc' :: EvTicker :: repeat (EvLoop CaseTick) 5), w'.
  split; [rewrite exec_app, He12; exact He3|].
  split; [exact Hr|]. split; [exact El'|].
  destruct (exec_frame arch _ _ _ He02) as ((Hmul & _ & _) & _).
  rewrite Hcd, Hsrt, Hmul. split; [reflexivity|].
  destruct HI2 as [_ _ _ (ext & Hmono & Hle & Hext & Hwf)].
  unfold time_Since. rewrite Hmono.
  apply subMono_nonneg; [exact Hin | exact Hext | rewrite Hreal in Hle; lia].
Qed.

End CatchUp.

(** ** float64: rounding in the normal range *)

Lemma Zdigits2_eq (z n : Z) :
  0 < n -> 2 ^ (n - 1) <= z < 2 ^ n -> Zdigits2 z = n.
Proof.
  intros Hn [Hl Hu].
  assert (Hz : 0 < z).
  { eapply Z.lt_le_trans; [|exact Hl]. apply Z.pow_pos_nonneg; lia. }
  pose proof (Zdigits2_le z n ltac:(lia) ltac:(lia)) as H1.
  pose proof (Zdigits2_upper z ltac:(lia)) as H2.
  pose proof (Zdigits2_nonneg z) as H3.
  assert (Hlt : 2 ^ (n - 1) < 2 ^ Zdigits2 z) by lia.
  apply Z.pow_lt_mono_r_iff in Hlt; lia.
Qed.

Lemma Zdigits2_bounds (z : Z) :
  0 < z -> 2 ^ (Zdigits2 z - 1) <= z < 2 ^ Zdigits2 z.
Proof. destruct z as [|p|p]; try lia. intros _. apply digits2_pos_bounds. Qed.

(** Rounding a mantissa of at least 53 bits whose value is in the normal
    range: the result is a normal number whose mantissa is the first 53
    bits of the input or their successor. *)
Lemma binary_round_aux_normal (sx : bool) (mx ex : Z) (lx : location) :
  0 < mx -> 53 <= Zdigits2 mx ->
  -1074 <= Zdigits2 mx + ex - 53 -> Zdigits2 mx + ex <= 1023 ->
  exists m' e' m2,
    binary_round_aux f64_prec f64_emax sx mx ex lx = S754_finite sx m' e' /\
    Zpos (digits2_pos m') = 53 /\ -1074 <= e' <= 971 /\
    mx / 2 ^ (Zdigits2 mx - 53) <= m2 <= mx / 2 ^ (Zdigits2 mx - 53) + 1 /\
    ex + (Zdigits2 mx - 53) <= e' <= ex + (Zdigits2 mx - 53) + 1 /\
    Zpos m' * 2 ^ (e' - (ex + (Zdigits2 mx - 53))) = m2.
Proof.
  intros Hm Hd Hlo Hhi.
  set (k := Zdigits2 mx - 53) in *.
  assert (Hk : 0 <= k) by (subst k; lia).
  pose proof (Zdigits2_bounds mx Hm) as [Hbl Hbu].
  assert (Hpk : 0 < 2 ^ k) by (apply Z.pow_pos_nonneg; lia).
  assert (Hm1 : 2 ^ 52 <= mx / 2 ^ k < 2 ^ 53).
  { split.
    - apply Z.div_le_lower_bound; [lia|].
      rewrite <- Z.pow_add_r by lia.
      replace (k + 52) with (Zdigits2 mx - 1) by (subst k; lia). exact Hbl.
    - apply Z.div_lt_upper_bound; [lia|].
      rewrite <- Z.pow_add_r by lia.
      replace (k + 53) with (Zdigits2 mx) by (subst k; lia). exact Hbu. }
  unfold binary_round_aux, shr_fexp.
  rewrite fexp_64.
  replace (Z.max (Zdigits2 mx + ex - 53) (-1074) - ex) with k by (subst k; lia).
  destruct (shr_spec (shr_record_of_loc mx lx) ex k) as [H1 H2].
  { rewrite shr_record_of_loc_m. lia. }
  rewrite shr_record_of_loc_m in H1.
  replace (Z.max k 0) with k in H1, H2 by lia.
  destruct (shr (shr_record_of_loc mx lx) ex k) as [mrs' e']. simpl in H1, H2.
  subst e'. rewrite H1.
  pose proof (round_nearest_even_bounds (mx / 2 ^ k) (loc_of_shr_record mrs')) as Hr.
  set (m2 := round_nearest_even (mx / 2 ^ k) (loc_of_shr_record mrs')) in *.
  assert (Hcase : m2 < 2 ^ 53 \/ m2 = 2 ^ 53) by lia.
  destruct Hcase as [Hlt | Heq].
  - assert (Hd2 : Zdigits2 m2 = 53) by (apply Zdigits2_eq; lia).
    rewrite Hd2, fexp_64.
    replace (Z.max (53 + (ex + k) - 53) (-1074) - (ex + k)) with 0 by (subst k; lia).
    simpl shr. simpl shr_m.
    destruct m2 as [|p|p] eqn:E2; try lia.
    assert (Hle : (ex + k <=? f64_emax - f64_prec) = true).
    { apply Z.leb_le. unfold f64_emax, f64_prec. subst k. lia. }
    rewrite Hle. exists p, (ex + k), (Zpos p).
    split; [reflexivity|]. split; [exact Hd2|].
    split; [subst k; lia|]. split; [lia|]. split; [lia|].
    replace (ex + k - (ex + k)) with 0 by lia. simpl. lia.
  - rewrite Heq.
    change (2 ^ 53) with 9007199254740992.
    change (Zdigits2 9007199254740992) with 54. rewrite fexp_64.
    replace (Z.max (54 + (ex + k) - 53) (-1074) - (ex + k)) with 1 by (subst k; lia).
    cbn [shr shr_record_of_loc SpecFloat.iter_pos shr_1 shr_m].
    assert (Hle : (ex + k + 1 <=? f64_emax - f64_prec) = true).
    { apply Z.leb_le. unfold f64_emax, f64_prec. subst k. lia. }
    rewrite Hle. exists 4503599627370496%positive, (ex + k + 1), m2.
    split; [reflexivity|]. split; [reflexivity|].
    split; [subst k; lia|]. split; [lia|]. split; [lia|].
    replace (ex + k + 1 - (ex + k)) with 1 by lia. rewrite Heq. reflexivity.
Qed.

(** Rounding a mantissa of at most 53 bits that needs no shift changes
    nothing. *)
Lemma binary_round_aux_exact (sx : bool) (mx : positive) (ex : Z) :
  Zpos (digits2_pos mx) <= 53 -> -1074 <= ex <= 971 ->
  binary_round_aux f64_prec f64_emax sx (Zpos mx) ex loc_Exact
  = S754_finite sx mx ex.
Proof.
  intros Hd He. unfold binary_round_aux, shr_fexp. simpl Zdigits2.
  rewrite fexp_64.
  assert (Hn : Z.max (Zpos (digits2_pos mx) + ex - 53) (-1074) - ex <= 0) by lia.
  destruct (Z.max (Zpos (digits2_pos mx) + ex - 53) (-1074) - ex) as [|p|p] eqn:En;
    try lia; simpl; rewrite fexp_64, En; simpl;
    (assert (Hle : (ex <=? f64_emax - f64_prec) = true)
       by (apply Z.leb_le; unfold f64_emax, f64_prec; lia));
    rewrite Hle; reflexivity.
Qed.

(** The float of a positive integer below [2^53] is normal and exact. *)
Lemma f64_of_int_exact (z : Z) :
  0 < z < 2 ^ 53 ->
  exists m' e',
    f64_of_int z = S754_finite false m' e' /\
    Zpos (digits2_pos m') = 53 /\ -52 <= e' <= 0 /\
    Zpos m' = z * 2 ^ (- e').
Proof.
  intros [H0 Hz]. destruct z as [|p|p]; try lia.
  unfold f64_of_int, binary_normalize, binary_round.
  pose proof (Zdigits2_bounds (Zpos p) ltac:(lia)) as [Hbl Hbu]. simpl Zdigits2 in *.
  assert (Hd : 1 <= Zpos (digits2_pos p) <= 53).
  { split; [lia|].
    pose proof (Zdigits2_le (Zpos p) 53 ltac:(lia) ltac:(lia)) as H. exact H. }
  rewrite fexp_64.
  replace (Z.max (Zpos (digits2_pos p) + 0 - 53) (-1074))
    with (Zpos (digits2_pos p) - 53) by lia.
  unfold shl_align.
  destruct (Zpos (digits2_pos p) - 53 - 0) as [|d|d] eqn:Ed; try lia.
  - rewrite binary_round_aux_exact by lia.
    exists p, 0. split; [reflexivity|]. split; [lia|]. split; [lia|]. simpl. lia.
  - assert (Hdig : Zpos (digits2_pos (Pos.iter xO p d)) = 53)
      by (rewrite digits2_pos_iter_xO; lia).
    rewrite binary_round_aux_exact by lia.
    exists (Pos.iter xO p d), (Zpos (digits2_pos p) - 53).
    split; [reflexivity|]. split; [exact Hdig|]. split; [lia|].
    replace (- (Zpos (digits2_pos p) - 53)) with (Zpos d) by lia.
    clear. induction d as [|d IH] using Pos.peano_ind.
    + simpl. lia.
    + rewrite Pos.iter_succ, Pos2Z.inj_succ, Z.pow_succ_r by lia.
      rewrite Pos2Z.inj_xO, IH. lia.
Qed.

(** ** float64: the error of one rounding *)

Lemma pow2_pos (e : Z) : (0 < pow2 e)%R.
Proof. apply powerRZ_lt. lra. Qed.

Lemma pow2_add (a b : Z) : pow2 (a + b) = (pow2 a * pow2 b)%R.
Proof. apply powerRZ_add. lra. Qed.

Lemma pow2_IZR (k : Z) : 0 <= k -> pow2 k = IZR (2 ^ k).
Proof.
  intros Hk. pattern k. apply natlike_ind; [reflexivity | | exact Hk].
  intros x Hx IH. unfold Z.succ. rewrite pow2_add, IH, Z.pow_add_r by lia.
  rewrite mult_IZR. f_equal. unfold pow2. simpl. lra.
Qed.

Lemma pow2_le (a b : Z) : a <= b -> (pow2 a <= pow2 b)%R.
Proof.
  intros H. replace b with (a + (b - a)) by lia.
  rewrite pow2_add, (pow2_IZR (b - a)) by lia.
  assert (H1 : (1 <= IZR (2 ^ (b - a)))%R).
  { apply IZR_le. pose proof (Z.pow_pos_nonneg 2 (b - a)). lia. }
  pose proof (pow2_pos a). nra.
Qed.

Lemma pow2_lt_inv (a b : Z) : (pow2 a < pow2 b)%R -> a < b.
Proof.
  intros H. destruct (Z.lt_ge_cases a b) as [Hlt|Hge]; [exact Hlt|].
  pose proof (pow2_le b a Hge). lra.
Qed.

(** One rounding in the normal range: the result is within one part in
    [2^52] of any real number in the cell of the mantissa. *)
Lemma binary_round_aux_value (sx : bool) (mx ex : Z) (lx : location) (x : R) :
  0 < mx -> 53 <= Zdigits2 mx ->
  -1074 <= Zdigits2 mx + ex - 53 -> Zdigits2 mx + ex <= 1023 ->
  (IZR mx * pow2 ex <= x <= IZR (mx + 1) * pow2 ex)%R ->
  exists m' e',
    binary_round_aux f64_prec f64_emax sx mx ex lx = S754_finite sx m' e' /\
    Zpos (digits2_pos m') = 53 /\
    ex + (Zdigits2 mx - 53) <= e' <= ex + (Zdigits2 mx - 53) + 1 /\
    (x * (1 - pow2 (-52)) <= IZR (Zpos m') * pow2 e' <= x * (1 + pow2 (-52)))%R.
Proof.
  intros Hm Hd Hlo Hhi Hx.
  destruct (binary_round_aux_normal sx mx ex lx Hm Hd Hlo Hhi)
    as (m' & e' & m2 & Hr & Hdig & He' & Hm2 & Hee & Hv).
  exists m', e'. split; [exact Hr|]. split; [exact Hdig|]. split; [exact Hee|].
  set (k := Zdigits2 mx - 53) in *.
  assert (Hk : 0 <= k) by (subst k; lia).
  set (P := pow2 (ex + k)).
  assert (HP : (0 < P)%R) by apply pow2_pos.
  assert (Hval : (IZR (Zpos m') * pow2 e' = IZR m2 * P)%R).
  { replace e' with ((e' - (ex + k)) + (ex + k)) at 1 by lia.
    rewrite pow2_add, (pow2_IZR (e' - (ex + k))) by lia.
    rewrite <- Hv, mult_IZR. unfold P. ring. }
  rewrite Hval.
  assert (Hpk : 0 < 2 ^ k) by (apply Z.pow_pos_nonneg; lia).
  set (m1 := mx / 2 ^ k) in *.
  assert (Hdiv : m1 * 2 ^ k <= mx < (m1 + 1) * 2 ^ k).
  { pose proof (Z.mul_div_le mx (2 ^ k) Hpk).
    pose proof (Z.mul_succ_div_gt mx (2 ^ k) Hpk). subst m1. lia. }
  assert (HPk : P = (IZR (2 ^ k) * pow2 ex)%R).
  { unfold P. rewrite Z.add_comm, pow2_add, (pow2_IZR k) by lia. reflexivity. }
  pose proof (pow2_pos ex) as Hpe.
  assert (H1 : (IZR m1 * P <= x)%R).
  { apply Rle_trans with (IZR mx * pow2 ex)%R; [|lra].
    rewrite HPk, <- Rmult_assoc, <- mult_IZR.
    apply Rmult_le_compat_r; [lra|]. apply IZR_le. lia. }
  assert (H2 : (x <= (IZR m1 + 1) * P)%R).
  { apply Rle_trans with (IZR (mx + 1) * pow2 ex)%R; [lra|].
    rewrite HPk, <- Rmult_assoc. replace (IZR m1 + 1)%R with (IZR (m1 + 1))
      by (rewrite plus_IZR; reflexivity).
    rewrite <- mult_IZR. apply Rmult_le_compat_r; [lra|]. apply IZR_le. lia. }
  assert (Hm1 : 2 ^ 52 <= m1).
  { subst m1. apply Z.div_le_lower_bound; [lia|].
    rewrite <- Z.pow_add_r by lia.
    replace (k + 52) with (Zdigits2 mx - 1) by (subst k; lia).
    apply Zdigits2_bounds. exact Hm. }
  assert (H3 : (P <= x * pow2 (-52))%R).
  { assert (H52 : (pow2 (-52) * IZR (2 ^ 52) = 1)%R).
    { rewrite <- (pow2_IZR 52), <- pow2_add by lia. reflexivity. }
    assert (H4 : (IZR (2 ^ 52) * P <= x)%R).
    { apply Rle_trans with (IZR m1 * P)%R; [|exact H1].
      apply Rmult_le_compat_r; [lra|]. apply IZR_le. exact Hm1. }
    pose proof (pow2_pos (-52)) as Hp52.
    replace P with (pow2 (-52) * (IZR (2 ^ 52) * P))%R
      by (rewrite <- Rmult_assoc, H52; ring).
    rewrite (Rmult_comm x). apply Rmult_le_compat_l; lra. }
  assert (H5 : (IZR m1 <= IZR m2 <= IZR m1 + 1)%R).
  { split; [apply IZR_le; lia|].
    replace (IZR m1 + 1)%R with (IZR (m1 + 1)) by (rewrite plus_IZR; reflexivity).
    apply IZR_le. lia. }
  split; nra.
Qed.

(** ** float64: the error of the operations *)

Lemma normal_bounds (m : positive) :
  Zpos (digits2_pos m) = 53 -> 2 ^ 52 <= Zpos m < 2 ^ 53.
Proof. intros H. pose proof (digits2_pos_bounds m) as Hb. rewrite H in Hb. exact Hb. Qed.

Lemma iter_xO_pow2 (p d : positive) :
  Zpos (Pos.iter xO p d) = Zpos p * 2 ^ Zpos d.
Proof.
  induction d as [|d IH] using Pos.peano_ind.
  - simpl. lia.
  - rewrite Pos.iter_succ, Pos2Z.inj_succ, Z.pow_succ_r by lia.
    rewrite Pos2Z.inj_xO, IH. lia.
Qed.

Lemma shl_align_value (mx : positive) (ex ez : Z) :
  ez <= ex -> Zpos (fst (shl_align mx ex ez)) = Zpos mx * 2 ^ (ex - ez).
Proof.
  intros H. unfold shl_align.
  destruct (ez - ex) as [|d|d] eqn:E; simpl; try lia.
  - replace (ex - ez) with 0 by lia. simpl. lia.
  - rewrite iter_xO_pow2. replace (ex - ez) with (Zpos d) by lia. reflexivity.
Qed.

(** *** Multiplication *)

Lemma f64_mul_value (sx : bool) (mx : positive) (ex : Z)
  (sy : bool) (my : positive) (ey : Z) :
  Zpos (digits2_pos mx) = 53 -> Zpos (digits2_pos my) = 53 ->
  -1126 <= ex + ey <= 917 ->
  exists m' e',
    f64_mul (S754_finite sx mx ex) (S754_finite sy my ey)
    = S754_finite (xorb sx sy) m' e' /\
    Zpos (digits2_pos m') = 53 /\
    ex + ey + 52 <= e' <= ex + ey + 54 /\
    ((IZR (Zpos mx) * pow2 ex) * (IZR (Zpos my) * pow2 ey) * (1 - pow2 (-52))
     <= IZR (Zpos m') * pow2 e'
     <= (IZR (Zpos mx) * pow2 ex) * (IZR (Zpos my) * pow2 ey) * (1 + pow2 (-52)))%R.
Proof.
  intros Hdx Hdy He.
  pose proof (normal_bounds mx Hdx) as Hbx. pose proof (normal_bounds my Hdy) as Hby.
  assert (Hprod : 2 ^ 104 <= Zpos (mx * my) < 2 ^ 106).
  { rewrite Pos2Z.inj_mul.
    change (2 ^ 104) with (2 ^ 52 * 2 ^ 52). change (2 ^ 106) with (2 ^ 53 * 2 ^ 53).
    split; nia. }
  assert (Hd : 105 <= Zdigits2 (Zpos (mx * my)) <= 106).
  { pose proof (Zdigits2_bounds (Zpos (mx * my)) ltac:(lia)) as [Hl Hu].
    pose proof (Zdigits2_nonneg (Zpos (mx * my))) as Hn.
    split.
    - assert (H : 2 ^ 104 < 2 ^ Zdigits2 (Zpos (mx * my))) by lia.
      apply Z.pow_lt_mono_r_iff in H; lia.
    - assert (H : 2 ^ (Zdigits2 (Zpos (mx * my)) - 1) < 2 ^ 106) by lia.
      apply Z.pow_lt_mono_r_iff in H; lia. }
  unfold f64_mul, SFmul.
  destruct (binary_round_aux_value (xorb sx sy) (Zpos (mx * my)) (ex + ey) loc_Exact
              (IZR (Zpos (mx * my)) * pow2 (ex + ey))%R)
    as (m' & e' & Hr & Hdig & Hee & Hv); try lia.
  { split; [lra|]. apply Rmult_le_compat_r; [pose proof (pow2_pos (ex + ey)); lra|].
    apply IZR_le. lia. }
  exists m', e'. split; [exact Hr|]. split; [exact Hdig|]. split; [lia|].
  replace ((IZR (Zpos mx) * pow2 ex) * (IZR (Zpos my) * pow2 ey))%R
    with (IZR (Zpos (mx * my)) * pow2 (ex + ey))%R; [exact Hv|].
  rewrite Pos2Z.inj_mul, mult_IZR, pow2_add. ring.
Qed.

(** *** Division *)

Lemma f64_div_value (sx : bool) (mx : positive) (ex : Z)
  (sy : bool) (my : positive) (ey : Z) :
  Zpos (digits2_pos mx) = 53 -> Zpos (digits2_pos my) = 53 ->
  -1021 <= ex - ey <= 1022 ->
  exists m' e',
    f64_div (S754_finite sx mx ex) (S754_finite sy my ey)
    = S754_finite (xorb sx sy) m' e' /\
    Zpos (digits2_pos m') = 53 /\
    ex - ey - 53 <= e' <= ex - ey - 51 /\
    ((IZR (Zpos mx) * pow2 ex) / (IZR (Zpos my) * pow2 ey) * (1 - pow2 (-52))
     <= IZR (Zpos m') * pow2 e'
     <= (IZR (Zpos mx) * pow2 ex) / (IZR (Zpos my) * pow2 ey) * (1 + pow2 (-52)))%R.
Proof.
  intros Hdx Hdy He.
  pose proof (normal_bounds mx Hdx) as Hbx. pose proof (normal_bounds my Hdy) as Hby.
  unfold f64_div, SFdiv, SFdiv_core_binary. simpl Zdigits2. rewrite Hdx, Hdy, fexp_64.
  replace (Z.min (Z.max (53 + ex - (53 + ey) - 53) (-1074)) (ex - ey))
    with (ex - ey - 53) by lia.
  replace (ex - ey - (ex - ey - 53)) with 53 by lia.
  rewrite Z.shiftl_mul_pow2 by lia.
  set (m' := Zpos mx * 2 ^ 53).
  pose proof (Z_div_mod m' (Zpos my) ltac:(lia)) as Hdm.
  destruct (Z.div_eucl m' (Zpos my)) as [q r]. destruct Hdm as [Hq Hr].
  assert (Hm' : 2 ^ 105 <= m' < 2 ^ 106).
  { subst m'. change (2 ^ 105) with (2 ^ 52 * 2 ^ 53).
    change (2 ^ 106) with (2 ^ 53 * 2 ^ 53). lia. }
  assert (Hqb : 2 ^ 52 <= q < 2 ^ 54).
  { change (2 ^ 105) with (2 ^ 52 * 2 ^ 53) in Hm'.
    change (2 ^ 106) with (2 ^ 54 * 2 ^ 52) in Hm'. split; nia. }
  assert (Hd : 53 <= Zdigits2 q <= 54).
  { pose proof (Zdigits2_bounds q ltac:(lia)) as [Hl Hu].
    pose proof (Zdigits2_nonneg q) as Hn.
    split.
    - assert (H : 2 ^ 52 < 2 ^ Zdigits2 q) by lia.
      apply Z.pow_lt_mono_r_iff in H; lia.
    - assert (H : 2 ^ (Zdigits2 q - 1) < 2 ^ 54) by lia.
      apply Z.pow_lt_mono_r_iff in H; lia. }
  set (X := ((IZR (Zpos mx) * pow2 ex) / (IZR (Zpos my) * pow2 ey))%R).
  pose proof (pow2_pos ex) as Hpex. pose proof (pow2_pos ey) as Hpey.
  pose proof (pow2_pos (ex - ey - 53)) as Hpe'.
  assert (Hmy : (0 < IZR (Zpos my))%R) by (apply IZR_lt; lia).
  assert (HX : (X * IZR (Zpos my) = IZR m' * pow2 (ex - ey - 53))%R).
  { unfold X, m'. rewrite mult_IZR, <- (pow2_IZR 53) by lia.
    replace ex with ((ex - ey - 53) + 53 + ey) at 1 by lia.
    rewrite !pow2_add. field. split; lra. }
  destruct (binary_round_aux_value (xorb sx sy) q (ex - ey - 53)
              (new_location (Zpos my) r) X)
    as (mr & er & Hres & Hdig & Hee & Hv); try lia.
  { assert (H1 : (IZR q * IZR (Zpos my) <= IZR m')%R).
    { rewrite <- mult_IZR. apply IZR_le. lia. }
    assert (H2 : (IZR m' <= IZR (q + 1) * IZR (Zpos my))%R).
    { rewrite <- mult_IZR. apply IZR_le. lia. }
    split.
    - apply Rmult_le_reg_r with (IZR (Zpos my)); [exact Hmy|]. rewrite HX. nra.
    - apply Rmult_le_reg_r with (IZR (Zpos my)); [exact Hmy|]. rewrite HX. nra. }
  exists mr, er. split; [exact Hres|]. split; [exact Hdig|]. split; [lia | exact Hv].
Qed.

(** *** Addition of two positive numbers *)

Lemma f64_add_value (mx : positive) (ex : Z) (my : positive) (ey : Z) :
  Zpos (digits2_pos mx) = 53 -> Zpos (digits2_pos my) = 53 ->
  -1074 <= ex <= 900 -> -1074 <= ey <= 900 ->
  exists m' e',
    f64_add (S754_finite false mx ex) (S754_finite false my ey)
    = S754_finite false m' e' /\
    Zpos (digits2_pos m') = 53 /\
    Z.min ex ey <= e' <= Z.max ex ey + 2 /\
    ((IZR (Zpos mx) * pow2 ex + IZR (Zpos my) * pow2 ey) * (1 - pow2 (-52))
     <= IZR (Zpos m') * pow2 e'
     <= (IZR (Zpos mx) * pow2 ex + IZR (Zpos my) * pow2 ey) * (1 + pow2 (-52)))%R.
Proof.
  intros Hdx Hdy Hex Hey.
  pose proof (normal_bounds mx Hdx) as Hbx. pose proof (normal_bounds my Hdy) as Hby.
  unfold f64_add, SFadd. cbn [cond_Zopp].
  set (ez := Z.min ex ey).
  pose proof (shl_align_value mx ex ez ltac:(subst ez; lia)) as Hax.
  pose proof (shl_align_value my ey ez ltac:(subst ez; lia)) as Hay.
  set (a := fst (shl_align mx ex ez)) in *. set (b := fst (shl_align my ey ez)) in *.
  change (Zpos a + Zpos b) with (Zpos (a + b)).
  unfold binary_normalize, binary_round.
  assert (Hpx : 1 <= 2 ^ (ex - ez)) by (pose proof (Z.pow_pos_nonneg 2 (ex - ez)); lia).
  assert (Hpy : 1 <= 2 ^ (ey - ez)) by (pose proof (Z.pow_pos_nonneg 2 (ey - ez)); lia).
  assert (HM : 2 ^ 52 <= Zpos (a + b) < 2 ^ (Z.max ex ey - ez + 54)).
  { rewrite Pos2Z.inj_add, Hax, Hay. split; [nia|].
    replace (Z.max ex ey - ez + 54) with (1 + (Z.max ex ey - ez + 53)) by lia.
    rewrite Z.pow_add_r, Z.pow_add_r by (subst ez; lia). change (2 ^ 1) with 2.
    assert (H1 : 2 ^ (ex - ez) <= 2 ^ (Z.max ex ey - ez))
      by (apply Z.pow_le_mono_r; subst ez; lia).
    assert (H2 : 2 ^ (ey - ez) <= 2 ^ (Z.max ex ey - ez))
      by (apply Z.pow_le_mono_r; subst ez; lia).
    nia. }
  assert (Hd : 53 <= Zdigits2 (Zpos (a + b)) <= Z.max ex ey - ez + 54).
  { pose proof (Zdigits2_bounds (Zpos (a + b)) ltac:(lia)) as [Hl Hu].
    pose proof (Zdigits2_nonneg (Zpos (a + b))) as Hn.
    split.
    - assert (H : 2 ^ 52 < 2 ^ Zdigits2 (Zpos (a + b))) by lia.
      apply Z.pow_lt_mono_r_iff in H; lia.
    - apply Zdigits2_le; [lia | subst ez; lia]. }
  simpl Zdigits2 in Hd. rewrite fexp_64.
  unfold shl_align.
  destruct (Z.max (Zpos (digits2_pos (a + b)) + ez - 53) (-1074) - ez) as [|d|d] eqn:Ed;
    try lia.
  - destruct (binary_round_aux_value false (Zpos (a + b)) ez loc_Exact
                (IZR (Zpos (a + b)) * pow2 ez)%R)
      as (m' & e' & Hr & Hdig & Hee & Hv); simpl Zdigits2; try lia.
    { split; [lra|]. apply Rmult_le_compat_r; [pose proof (pow2_pos ez); lra|].
      apply IZR_le. lia. }
    exists m', e'. split; [exact Hr|]. split; [exact Hdig|].
    split; [simpl Zdigits2 in Hee; subst ez; lia|].
    replace (IZR (Zpos mx) * pow2 ex + IZR (Zpos my) * pow2 ey)%R
      with (IZR (Zpos (a + b)) * pow2 ez)%R; [exact Hv|].
    rewrite Pos2Z.inj_add, plus_IZR, Hax, Hay, !mult_IZR.
    rewrite <- !pow2_IZR by (subst ez; lia).
    replace ex with ((ex - ez) + ez) at 2 by lia.
    replace ey with ((ey - ez) + ez) at 2 by lia.
    rewrite !pow2_add. ring.
  - destruct (binary_round_aux_value false (Zpos (a + b)) ez loc_Exact
                (IZR (Zpos (a + b)) * pow2 ez)%R)
      as (m' & e' & Hr & Hdig & Hee & Hv); simpl Zdigits2; try lia.
    { split; [lra|]. apply Rmult_le_compat_r; [pose proof (pow2_pos ez); lra|].
      apply IZR_le. lia. }
    exists m', e'. split; [exact Hr|]. split; [exact Hdig|].
    split; [simpl Zdigits2 in Hee; subst ez; lia|].
    replace (IZR (Zpos mx) * pow2 ex + IZR (Zpos my) * pow2 ey)%R
      with (IZR (Zpos (a + b)) * pow2 ez)%R; [exact Hv|].
    rewrite Pos2Z.inj_add, plus_IZR, Hax, Hay, !mult_IZR.
    rewrite <- !pow2_IZR by (subst ez; lia).
    replace ex with ((ex - ez) + ez) at 2 by lia.
    replace ey with ((ey - ez) + ez) at 2 by lia.
    rewrite !pow2_add. ring.
Qed.

(** ** float64: the error of a tick *)

Lemma u52_bounds : (0 < pow2 (-52) <= / 8)%R.
Proof.
  split; [apply pow2_pos|].
  apply Rle_trans with (pow2 (-3)); [apply pow2_le; lia|].
  unfold pow2. simpl. lra.
Qed.

Lemma pow2_49 : (pow2 (-49) = 8 * pow2 (-52))%R.
Proof.
  replace (-49) with (3 + -52) by lia. rewrite pow2_add.
  unfold pow2 at 1. simpl. lra.
Qed.

(** Errors that compose: [v] is within the factors [lo] and [hi] of [x]. *)
Lemma within_exact (x u : R) :
  (0 <= x -> 0 <= u <= 1 ->
   x * ((1 - u) * (1 - u)) <= x <= x * ((1 + u) * (1 + u)))%R.
Proof.
  intros Hx Hu.
  assert (H1 : ((1 - u) * (1 - u) <= 1)%R) by nra.
  assert (H2 : (1 <= (1 + u) * (1 + u))%R) by nra.
  split.
  - rewrite <- (Rmult_1_r x) at 2. apply Rmult_le_compat_l; assumption.
  - rewrite <- (Rmult_1_r x) at 1. apply Rmult_le_compat_l; assumption.
Qed.

Lemma within_once (x v u : R) :
  (0 <= x -> 0 <= u <= 1 ->
   x * (1 - u) <= v <= x * (1 + u) ->
   x * ((1 - u) * (1 - u)) <= v <= x * ((1 + u) * (1 + u)))%R.
Proof.
  intros Hx Hu [Hl Hh].
  assert (H1 : (x * ((1 - u) * (1 - u)) <= x * (1 - u))%R).
  { apply Rmult_le_compat_l; [assumption|]. nra. }
  assert (H2 : (x * (1 + u) <= x * ((1 + u) * (1 + u)))%R).
  { apply Rmult_le_compat_l; [assumption|]. nra. }
  lra.
Qed.

Lemma within_sum (a b vb v u : R) :
  (0 <= a -> 0 <= b -> 0 <= u <= 1 ->
   b * (1 - u) <= vb <= b * (1 + u) ->
   (a + vb) * (1 - u) <= v <= (a + vb) * (1 + u) ->
   (a + b) * ((1 - u) * (1 - u)) <= v <= (a + b) * ((1 + u) * (1 + u)))%R.
Proof.
  intros Ha Hb Hu [Hbl Hbh] [Hl Hh].
  assert (H1 : ((a + b) * (1 - u) <= a + vb)%R) by nra.
  assert (H2 : (a + vb <= (a + b) * (1 + u))%R) by nra.
  assert (H3 : ((a + b) * (1 - u) * (1 - u) <= (a + vb) * (1 - u))%R).
  { apply Rmult_le_compat_r; lra. }
  assert (H4 : ((a + vb) * (1 + u) <= (a + b) * (1 + u) * (1 + u))%R).
  { apply Rmult_le_compat_r; lra. }
  split; [rewrite <- Rmult_assoc | rewrite <- Rmult_assoc]; lra.
Qed.

Lemma f64_of_int_value (z : Z) :
  0 < z < 2 ^ 53 ->
  exists m' e',
    f64_of_int z = S754_finite false m' e' /\
    Zpos (digits2_pos m') = 53 /\ -52 <= e' <= 0 /\
    (IZR (Zpos m') * pow2 e' = IZR z)%R.
Proof.
  intros Hz. destruct (f64_of_int_exact z Hz) as (m' & e' & Hf & Hd & He & Hm).
  exists m', e'. split; [exact Hf|]. split; [exact Hd|]. split; [exact He|].
  rewrite Hm, mult_IZR, <- (pow2_IZR (- e')) by lia.
  rewrite Rmult_assoc, <- pow2_add. replace (- e' + e') with 0 by lia.
  unfold pow2. simpl. ring.
Qed.

Lemma value_1e9 : (IZR 8388608000000000 * pow2 (-23) = IZR 1000000000)%R.
Proof.
  change 8388608000000000 with (1000000000 * 2 ^ 23).
  rewrite mult_IZR, <- (pow2_IZR 23) by lia.
  rewrite Rmult_assoc, <- pow2_add. change (23 + -23) with 0.
  unfold pow2. simpl. ring.
Qed.

(** [Duration.Seconds] of a positive duration: a normal number within
    two roundings of the exact quotient. *)
Lemma Duration_Seconds_value (d : Duration) :
  0 < d <= maxInt64 ->
  exists m' e',
    Duration_Seconds d = S754_finite false m' e' /\
    Zpos (digits2_pos m') = 53 /\ -82 <= e' <= 2 /\
    (IZR d / IZR 1000000000 * ((1 - pow2 (-52)) * (1 - pow2 (-52)))
     <= IZR (Zpos m') * pow2 e'
     <= IZR d / IZR 1000000000 * ((1 + pow2 (-52)) * (1 + pow2 (-52))))%R.
Proof.
  intros [H0 Hmax]. unfold maxInt64 in Hmax.
  pose proof u52_bounds as [Hu0 Hu1].
  unfold Duration_Seconds. rewrite f64_of_int_1e9.
  assert (HS : Second = 1000000000) by reflexivity. rewrite HS.
  rewrite Z.quot_div_nonneg, Z.rem_mod_nonneg by lia.
  pose proof (Z.div_mod d 1000000000 ltac:(lia)) as Hdm.
  pose proof (Z.mod_pos_bound d 1000000000 ltac:(lia)) as Hrb.
  pose proof (Z.div_pos d 1000000000 ltac:(lia) ltac:(lia)) as Hq0.
  assert (Hqb : d / 1000000000 < 2 ^ 53).
  { apply Z.div_lt_upper_bound; lia. }
  set (sec := d / 1000000000) in *. set (nsec := d mod 1000000000) in *.
  assert (HR : (IZR d = IZR 1000000000 * IZR sec + IZR nsec)%R).
  { rewrite <- mult_IZR, <- plus_IZR. f_equal. exact Hdm. }
  assert (H9 : (0 < IZR 1000000000)%R) by (apply IZR_lt; lia).
  assert (Hsec : (0 <= IZR sec)%R) by (apply IZR_le; lia).
  assert (Hnsec : (0 <= IZR nsec)%R) by (apply IZR_le; lia).
  assert (Hd9 : Zpos (digits2_pos 8388608000000000) = 53) by reflexivity.
  destruct (Z.eq_dec nsec 0) as [En|Nn]; [|destruct (Z.eq_dec sec 0) as [Es|Ns]].
  - (* whole seconds *)
    rewrite En in *. change (f64_of_int 0) with (S754_zero false).
    cbn [f64_div SFdiv xorb].
    destruct (f64_of_int_value sec ltac:(lia)) as (ms & es_ & Hf & Hd & He & Hv).
    rewrite Hf. cbn [f64_add SFadd].
    exists ms, es_. split; [reflexivity|]. split; [exact Hd|]. split; [lia|].
    rewrite Hv. replace (IZR d / IZR 1000000000)%R with (IZR sec)
      by (rewrite HR; field; lra).
    apply within_exact; lra.
  - (* less than a second *)
    rewrite Es in *. change (f64_of_int 0) with (S754_zero false).
    destruct (f64_of_int_value nsec ltac:(lia)) as (mn & en & Hf & Hd & He & Hv).
    rewrite Hf.
    destruct (f64_div_value false mn en false 8388608000000000 (-23) Hd Hd9 ltac:(lia))
      as (mq & eq_ & Hq & Hdq & Heq & Hvq).
    rewrite Hq. cbn [f64_add SFadd xorb].
    exists mq, eq_. split; [reflexivity|]. split; [exact Hdq|]. split; [lia|].
    rewrite Hv, value_1e9 in Hvq.
    replace (IZR d / IZR 1000000000)%R with (IZR nsec / IZR 1000000000)%R
      by (rewrite HR; simpl; field; lra).
    assert (Hb : (0 <= IZR nsec / IZR 1000000000)%R).
    { apply Rmult_le_pos; [lra|]. apply Rlt_le, Rinv_0_lt_compat. lra. }
    apply within_once; [exact Hb | lra | exact Hvq].
  - (* seconds and a fraction *)
    destruct (f64_of_int_value sec ltac:(lia)) as (ms & es_ & Hfs & Hds & Hes & Hvs).
    destruct (f64_of_int_value nsec ltac:(lia)) as (mn & en & Hfn & Hdn & Hen & Hvn).
    rewrite Hfs, Hfn.
    destruct (f64_div_value false mn en false 8388608000000000 (-23) Hdn Hd9 ltac:(lia))
      as (mq & eq_ & Hq & Hdq & Heq & Hvq).
    rewrite Hq. cbn [xorb].
    destruct (f64_add_value ms es_ mq eq_ Hds Hdq ltac:(lia) ltac:(lia))
      as (ma & ea & Ha & Hda & Hea & Hva).
    rewrite Ha. exists ma, ea. split; [reflexivity|]. split; [exact Hda|].
    split; [lia|].
    rewrite Hvn, value_1e9 in Hvq. rewrite Hvs in Hva.
    replace (IZR d / IZR 1000000000)%R
      with (IZR sec + IZR nsec / IZR 1000000000)%R by (rewrite HR; field; lra).
    assert (Hb : (0 <= IZR nsec / IZR 1000000000)%R).
    { apply Rmult_le_pos; [lra|]. apply Rlt_le, Rinv_0_lt_compat. lra. }
    apply (within_sum _ _ (IZR (Zpos mq) * pow2 eq_)%R); try assumption; lra.
Qed.

Lemma within_mul (x c v w lo hi u : R) :
  (0 <= x -> 0 <= c -> 0 <= lo -> 0 <= u <= 1 ->
   x * lo <= v <= x * hi ->
   v * c * (1 - u) <= w <= v * c * (1 + u) ->
   x * c * (lo * (1 - u)) <= w <= x * c * (hi * (1 + u)))%R.
Proof.
  intros Hx Hc Hlo Hu [Hvl Hvh] [Hwl Hwh].
  assert (Hv : (0 <= v)%R).
  { apply Rle_trans with (x * lo)%R; [apply Rmult_le_pos; assumption | exact Hvl]. }
  assert (H1 : (x * lo * c <= v * c)%R) by (apply Rmult_le_compat_r; assumption).
  assert (H2 : (v * c <= x * hi * c)%R) by (apply Rmult_le_compat_r; assumption).
  assert (H3 : (x * lo * c * (1 - u) <= v * c * (1 - u))%R)
    by (apply Rmult_le_compat_r; lra).
  assert (H4 : (v * c * (1 + u) <= x * hi * c * (1 + u))%R)
    by (apply Rmult_le_compat_r; lra).
  split.
  - replace (x * c * (lo * (1 - u)))%R with (x * lo * c * (1 - u))%R by ring. lra.
  - replace (x * c * (hi * (1 + u)))%R with (x * hi * c * (1 + u))%R by ring. lra.
Qed.

Lemma four_roundings (u : R) :
  (0 < u <= / 8 ->
   1 - 8 * u <= (1 - u) * (1 - u) * (1 - u) * (1 - u) /\
   (1 + u) * (1 + u) * (1 + u) * (1 + u) <= 1 + 8 * u)%R.
Proof.
  intros [H0 H1].
  assert (Hs : (u * u <= u / 8)%R) by nra.
  assert (A1 : ((1 + u) * (1 + u) <= 1 + 3 * u)%R) by nra.
  assert (A0 : (0 <= (1 + u) * (1 + u))%R) by nra.
  assert (A2 : ((1 + u) * (1 + u) * (1 + u) <= 1 + 5 * u)%R) by nra.
  assert (A3 : (0 <= (1 + u) * (1 + u) * (1 + u))%R) by nra.
  assert (B1 : (1 - 2 * u <= (1 - u) * (1 - u))%R) by nra.
  assert (B0 : ((1 - u) * (1 - u) <= 1)%R) by nra.
  assert (B2 : (1 - 3 * u <= (1 - u) * (1 - u) * (1 - u))%R) by nra.
  assert (B3 : ((1 - u) * (1 - u) * (1 - u) <= 1)%R) by nra.
  split; nra.
Qed.

(** The product [updateClock] converts, for a positive elapsed time and
    an ordinary multiplier: within four roundings of the exact product. *)
Lemma accelerated_float_value (s : bool) (mm : positive) (em : Z) (d : Duration) :
  Zpos (digits2_pos mm) = 53 -> -600 <= em <= 400 -> 0 < d <= maxInt64 ->
  exists m' e',
    accelerated_float (S754_finite s mm em) d = S754_finite s m' e' /\
    (IZR (Zpos mm) * pow2 em * IZR d * (1 - pow2 (-49))
     <= IZR (Zpos m') * pow2 e'
     <= IZR (Zpos mm) * pow2 em * IZR d * (1 + pow2 (-49)))%R.
Proof.
  intros Hdm Hem Hd.
  pose proof u52_bounds as [Hu0 Hu1].
  destruct (Duration_Seconds_value d Hd) as (ms & es_ & Hs & Hds & Hes & Hvs).
  unfold accelerated_float. rewrite Hs, f64_of_int_Second.
  destruct (f64_mul_value false ms es_ s mm em Hds Hdm ltac:(lia))
    as (m1 & e1 & H1 & Hd1 & He1 & Hv1).
  rewrite H1. cbn [xorb].
  assert (Hd9 : Zpos (digits2_pos 8388608000000000) = 53) by reflexivity.
  destruct (f64_mul_value s m1 e1 false 8388608000000000 (-23) Hd1 Hd9 ltac:(lia))
    as (m2 & e2 & H2 & Hd2 & He2 & Hv2).
  rewrite H2, xorb_false_r. exists m2, e2. split; [reflexivity|].
  rewrite value_1e9 in Hv2.
  set (M := (IZR (Zpos mm) * pow2 em)%R) in *.
  set (Xs := (IZR d / IZR 1000000000)%R) in *.
  set (Vs := (IZR (Zpos ms) * pow2 es_)%R) in *.
  set (V1 := (IZR (Zpos m1) * pow2 e1)%R) in *.
  set (V2 := (IZR (Zpos m2) * pow2 e2)%R) in *.
  set (u := pow2 (-52)) in *.
  assert (H9 : (0 < IZR 1000000000)%R) by (apply IZR_lt; lia).
  assert (HXs : (0 <= Xs)%R).
  { unfold Xs. apply Rmult_le_pos; [apply IZR_le; lia|].
    apply Rlt_le, Rinv_0_lt_compat. exact H9. }
  assert (HM : (0 <= M)%R).
  { unfold M. apply Rmult_le_pos; [apply IZR_le; lia|].
    apply Rlt_le, pow2_pos. }
  assert (Hlo : (0 <= (1 - u) * (1 - u))%R) by nra.
  pose proof (within_mul Xs M Vs V1 _ _ u HXs HM Hlo ltac:(lra) Hvs Hv1) as W1.
  assert (Hlo1 : (0 <= (1 - u) * (1 - u) * (1 - u))%R).
  { apply Rmult_le_pos; [exact Hlo | lra]. }
  assert (HXM : (0 <= Xs * M)%R) by (apply Rmult_le_pos; assumption).
  pose proof (within_mul (Xs * M) (IZR 1000000000) V1 V2 _ _ u HXM ltac:(lra) Hlo1
                ltac:(lra) W1 Hv2) as W2.
  replace (Xs * M * IZR 1000000000)%R with (M * IZR d)%R in W2
    by (unfold Xs; field; lra).
  destruct (four_roundings u ltac:(lra)) as [F1 F2].
  rewrite pow2_49. fold u.
  assert (HX : (0 <= M * IZR d)%R).
  { apply Rmult_le_pos; [exact HM | apply IZR_le; lia]. }
  destruct W2 as [W2l W2h]. split.
  - apply Rle_trans with (M * IZR d * ((1 - u) * (1 - u) * (1 - u) * (1 - u)))%R;
      [apply Rmult_le_compat_l; assumption | exact W2l].
  - apply Rle_trans with (M * IZR d * ((1 + u) * (1 + u) * (1 + u) * (1 + u)))%R;
      [exact W2h | apply Rmult_le_compat_l; assumption].
Qed.

(** [int64(f)] drops less than one unit. *)
Lemma f64_trunc_value (s : bool) (m : positive) (e : Z) :
  exists z,
    f64_trunc (S754_finite s m e) = Some (if s then - z else z) /\
    0 <= z /\
    (IZR z <= IZR (Zpos m) * pow2 e < IZR z + 1)%R.
Proof.
  exists (Z.shiftl (Zpos m) e). split; [reflexivity|].
  pose proof (pow2_pos e) as Hp.
  destruct (Z.le_gt_cases 0 e) as [He|He].
  - rewrite Z.shiftl_mul_pow2 by lia.
    split; [pose proof (Z.pow_pos_nonneg 2 e); lia|].
    rewrite mult_IZR, <- (pow2_IZR e) by lia. lra.
  - rewrite Z.shiftl_div_pow2 by lia.
    assert (Hpk : 0 < 2 ^ (- e)) by (apply Z.pow_pos_nonneg; lia).
    pose proof (Z.mul_div_le (Zpos m) (2 ^ (- e)) Hpk) as H1.
    pose proof (Z.mul_succ_div_gt (Zpos m) (2 ^ (- e)) Hpk) as H2.
    set (z := Zpos m / 2 ^ (- e)) in *.
    split; [apply Z.div_pos; lia|].
    assert (Hinv : (pow2 e * IZR (2 ^ (- e)) = 1)%R).
    { rewrite <- (pow2_IZR (- e)), <- pow2_add by lia.
      replace (e + - e) with 0 by lia. reflexivity. }
    assert (Hq : (0 < IZR (2 ^ (- e)))%R) by (apply IZR_lt; lia).
    assert (G1 : (IZR z * IZR (2 ^ (- e)) <= IZR (Zpos m))%R).
    { rewrite <- mult_IZR. apply IZR_le. lia. }
    assert (G2 : (IZR (Zpos m) < (IZR z + 1) * IZR (2 ^ (- e)))%R).
    { replace (IZR z + 1)%R with (IZR (z + 1)) by (rewrite plus_IZR; reflexivity).
      rewrite <- mult_IZR. apply IZR_lt. lia. }
    split.
    + apply Rmult_le_reg_r with (IZR (2 ^ (- e))); [exact Hq|].
      rewrite Rmult_assoc, Hinv. lra.
    + apply Rmult_lt_reg_r with (IZR (2 ^ (- e))); [exact Hq|].
      rewrite Rmult_assoc, Hinv. lra.
Qed.

Section Accuracy.

Variable arch : float64 -> Z.

Lemma accelerated_accurate (m : float64) (d : Duration) :
  f64_is_ordinary m = true -> 0 <= d <= maxInt64 ->
  (Rabs (f64_value m) * IZR d <= IZR (2 ^ 62))%R ->
  f64_fits_int64 (accelerated_float m d) = true /\
  (Rabs (IZR (accelerated arch m d) - f64_value m * IZR d)
   <= 1 + Rabs (f64_value m) * IZR d * pow2 (-49))%R.
Proof.
  intros Ho Hd Hb.
  destruct m as [s0|s0| |s mm em]; try discriminate.
  unfold f64_is_ordinary in Ho. apply andb_true_iff in Ho as [Ho He2].
  apply andb_true_iff in Ho as [Hdm He1].
  apply Z.eqb_eq in Hdm. apply Z.leb_le in He1, He2.
  pose proof (pow2_pos (-49)) as Hp49.
  destruct (Z.eq_dec d 0) as [->|Hne].
  - rewrite (accelerated_eq arch).
    assert (E : accelerated_float (S754_finite s mm em) 0 = S754_zero s).
    { unfold accelerated_float. rewrite Duration_Seconds_0, f64_of_int_Second.
      destruct s; reflexivity. }
    rewrite E. split; [reflexivity|]. cbn [int64_of_float64 f64_trunc in_int64].
    simpl. rewrite Rmult_0_r, Rminus_0_r, Rabs_R0, Rmult_0_r, Rmult_0_l. lra.
  - destruct (accelerated_float_value s mm em d Hdm ltac:(lia) ltac:(lia))
      as (m' & e' & Ha & Hv).
    destruct (f64_trunc_value s m' e') as (z & Ht & Hz & Hzv).
    set (M := (IZR (Zpos mm) * pow2 em)%R) in *.
    assert (HM : (0 < M)%R).
    { unfold M. apply Rmult_lt_0_compat; [apply IZR_lt; lia | apply pow2_pos]. }
    assert (Hval : f64_value (S754_finite s mm em) = ((if s then -1 else 1) * M)%R).
    { unfold f64_value, M. ring. }
    assert (Habs : Rabs (f64_value (S754_finite s mm em)) = M).
    { rewrite Hval. destruct s.
      - replace (-1 * M)%R with (- M)%R by ring. rewrite Rabs_Ropp.
        apply Rabs_pos_eq. lra.
      - rewrite Rmult_1_l. apply Rabs_pos_eq. lra. }
    rewrite Habs in *.
    assert (Hd0 : (0 < IZR d)%R) by (apply IZR_lt; lia).
    assert (HX : (0 < M * IZR d)%R) by (apply Rmult_lt_0_compat; assumption).
    assert (H49 : (pow2 (-49) <= / 2)%R).
    { apply Rle_trans with (pow2 (-1)); [apply pow2_le; lia|].
      unfold pow2. simpl. lra. }
    set (V := (IZR (Zpos m') * pow2 e')%R) in *.
    assert (H62 : (IZR (2 ^ 63) = 2 * IZR (2 ^ 62))%R).
    { change (2 ^ 63) with (2 * 2 ^ 62). rewrite mult_IZR. reflexivity. }
    assert (HV : (V < IZR (2 ^ 63))%R).
    { apply Rle_lt_trans with (M * IZR d * (1 + pow2 (-49)))%R; [lra|].
      rewrite H62. nra. }
    assert (Hzlt : z < 2 ^ 63).
    { apply lt_IZR. lra. }
    assert (Hin : in_int64 (if s then - z else z) = true).
    { apply in_int64_spec. unfold minInt64, maxInt64. destruct s; lia. }
    split.
    + unfold f64_fits_int64. rewrite Ha, Ht. exact Hin.
    + rewrite (accelerated_eq arch). unfold int64_of_float64. rewrite Ha, Ht, Hin.
      rewrite Hval.
      assert (Hdiff : (- (1 + M * IZR d * pow2 (-49)) <= IZR z - M * IZR d
                       <= 1 + M * IZR d * pow2 (-49))%R) by (split; nra).
      destruct s.
      * rewrite opp_IZR.
        replace (- IZR z - -1 * M * IZR d)%R with (- (IZR z - M * IZR d))%R by ring.
        rewrite Rabs_Ropp. apply Rabs_le. exact Hdiff.
      * replace (IZR z - 1 * M * IZR d)%R with (IZR z - M * IZR d)%R by ring.
        apply Rabs_le. exact Hdiff.
Qed.

End Accuracy.

(** ** How close the virtual time is to the product *)

Lemma subMono_le (t u : Z) :
  in_int64 t = true -> in_int64 u = true -> u <= t -> subMono t u <= t - u.
Proof.
  intros Ht Hu Hle. apply in_int64_spec in Ht, Hu. unfold subMono.
  destruct (in_int64 (t - u)) eqn:E.
  - rewrite (wrap64_small _ E).
    destruct ((t - u <? 0) && (u <? t)) eqn:E1.
    + apply andb_true_iff in E1 as [E1 _]. apply Z.ltb_lt in E1. lia.
    + destruct ((0 <? t - u) && (t <? u)) eqn:E2; [|lia].
      apply andb_true_iff in E2 as [_ E2]. apply Z.ltb_lt in E2. lia.
  - assert (Hbig : maxInt64 < t - u).
    { unfold in_int64 in E. apply andb_false_iff in E as [E|E];
        [apply Z.leb_gt in E | apply Z.leb_gt in E]; unfold minInt64 in *; lia. }
    rewrite wrap64_over by (unfold minInt64, maxInt64 in *; lia).
    assert (E1 : (t - u - 2 ^ 64 <? 0) = true)
      by (apply Z.ltb_lt; unfold minInt64, maxInt64 in *; lia).
    assert (E2 : (u <? t) = true) by (apply Z.ltb_lt; unfold maxInt64 in *; lia).
    rewrite E1, E2. simpl. unfold maxDuration. lia.
Qed.

Lemma f64_value_1_5 : f64_value f64_1_5 = (3 / 2)%R.
Proof.
  change f64_1_5 with (S754_finite false 6755399441055744 (-52)).
  unfold f64_value.
  assert (H : (pow2 (-52) * IZR (2 ^ 52) = 1)%R).
  { rewrite <- (pow2_IZR 52), <- pow2_add by lia. reflexivity. }
  change (2 ^ 52) with 4503599627370496 in H.
  change (Z.pos 6755399441055744) with (3 * 2251799813685248).
  rewrite mult_IZR. lra.
Qed.

Section NeverAhead.

Variable arch : float64 -> Z.

(** X19.  A tick is accurate.  For a multiplier that is a normal number
    of magnitude between [2^-548] and [2^453], and a non-negative elapsed
    time whose exact product with it is at most [2^62] nanoseconds,
    [updateClock] on a clock whose [mu] is free returns, the float
    product fits an [int64], and the duration it publishes differs from
    the exact product multiplier times elapsed by at most one nanosecond
    plus one part in [2^49] of that product. *)
Theorem tick_is_accurate (rc : RealClock) (ac : QuickTick) :
  mu ac = false -> f64_is_ordinary (multiplier ac) = true ->
  0 <= time_Since rc (startRealTime ac) ->
  (Rabs (f64_value (multiplier ac)) * IZR (time_Since rc (startRealTime ac))
   <= IZR (2 ^ 62))%R ->
  exists ac',
    updateClock arch rc ac = Ok ac' /\
    f64_fits_int64
      (accelerated_float (multiplier ac) (time_Since rc (startRealTime ac))) = true /\
    (Rabs (IZR (currentDuration ac')
           - f64_value (multiplier ac) * IZR (time_Since rc (startRealTime ac)))
     <= 1 + Rabs (f64_value (multiplier ac))
            * IZR (time_Since rc (startRealTime ac)) * pow2 (-49))%R.
Proof.
  intros Hmu Ho H0 Hb. eexists. split; [apply updateClock_sequential, Hmu|].
  simpl. apply accelerated_accurate; [exact Ho | | exact Hb].
  split; [exact H0|]. pose proof (time_Since_range rc (startRealTime ac)) as Hr.
  apply in_int64_spec in Hr. lia.
Qed.

Lemma step_epoch (e : Event) (w w' : World) :
  step arch e w = Ok w' ->
  startRealTime (clock w') = startRealTime (clock w) \/
  startRealTime (clock w') = time_Now (real w).
Proof.
  intros Hs. destruct e as [rc| | |c|op|i].
  - simpl in Hs. destruct (_ && _); [|discriminate]. injection Hs as <-. auto.
  - simpl in Hs. destruct (ticker w) as [t|]; [|discriminate].
    destruct (Ticker_fire (real w) t); simpl in Hs; try discriminate.
    injection Hs as <-. auto.
  - simpl in Hs. destruct (kind w); [discriminate|]. injection Hs as <-. auto.
  - simpl in Hs. rewrite loop_step_cases in Hs.
    destruct (loop w) as [| |pc|pc|]; simpl in Hs.
    + injection Hs as <-. auto.
    + destruct c.
      * destruct (ticker w) as [t|]; [|discriminate].
        destruct (pending t); [|discriminate]. injection Hs as <-. auto.
      * destruct (kind w); [discriminate|].
        destruct (ctx_done w); [|discriminate]. injection Hs as <-. auto.
      * destruct (done (clock w)); [|discriminate]. injection Hs as <-. auto.
    + destruct (updateClock_step arch (real w) pc (clock w)) as [[pc' ac']| |] eqn:Es;
        simpl in Hs; try discriminate.
      left. assert (E : clock w' = ac') by (destruct pc'; injection Hs as <-; auto).
      rewrite E. clear Hs E. destruct (clock w) as [m ti st srt cd dn mx o].
      destruct pc, mx; simpl in Es; try discriminate; injection Es as <- <-; reflexivity.
    + destruct (kind w); [discriminate|].
      destruct (Stop_step pc (clock w)) as [[pc' ac']| |] eqn:Es; simpl in Hs;
        try discriminate.
      left. assert (E : clock w' = ac') by (destruct pc'; injection Hs as <-; auto).
      rewrite E. apply (Stop_step_frame _ _ _ _ Es).
    + discriminate.
  - left. destruct op; injection Hs as <-; reflexivity.
  - simpl in Hs. unfold call_step in Hs.
    destruct (calls w !! i) as [[pc|pc|op]|]; try discriminate.
    + destruct (Stop_step pc (clock w)) as [[pc' ac']| |] eqn:Es; simpl in Hs;
        try discriminate.
      left. assert (E : clock w' = ac') by (destruct pc'; injection Hs as <-; auto).
      rewrite E. apply (Stop_step_frame _ _ _ _ Es).
    + destruct (Reset_step (real w) pc (clock w)) as [[pc' ac']| |] eqn:Es;
        simpl in Hs; try discriminate.
      assert (E : clock w' = ac') by (destruct pc'; injection Hs as <-; auto).
      rewrite E. clear Hs E. destruct (clock w) as [m ti st srt cd dn mx o].
      destruct pc, mx; simpl in Es; try discriminate; injection Es as <- <-; auto.
Qed.

Lemma step_real (e : Event) (w w' : World) :
  step arch e w = Ok w' ->
  rmono (real w) <= rmono (real w') /\
  (RealClock_wf (real w) -> RealClock_wf (real w')) /\
  (is_move e = true -> real w' = real w).
Proof.
  intros Hs. destruct e as [rc| | |c|op|i].
  - simpl in Hs. destruct (Z.leb_spec (rmono (real w)) (rmono rc)); simpl in Hs;
      [|discriminate].
    destruct (in_int64 (rmono rc)) eqn:E; [|discriminate]. injection Hs as <-. simpl.
    split; [lia|]. split; [intros _; exact E | discriminate].
  - simpl in Hs. destruct (ticker w) as [t|]; [|discriminate].
    destruct (Ticker_fire (real w) t); simpl in Hs; try discriminate.
    injection Hs as <-. simpl. split; [lia|]. split; [auto | discriminate].
  - simpl in Hs. destruct (kind w); [discriminate|]. injection Hs as <-. simpl.
    split; [lia|]. split; [auto | discriminate].
  - rewrite (step_move_real arch (EvLoop c) _ _ eq_refl Hs). split; [lia | auto].
  - assert (E : real w' = real w) by (destruct op; injection Hs as <-; reflexivity).
    rewrite E. split; [lia | auto].
  - rewrite (step_move_real arch (EvStep i) _ _ eq_refl Hs). split; [lia | auto].
Qed.

Lemma step_since_ok (t0 : Z) (e : Event) (w w' : World) :
  step arch e w = Ok w' -> since_ok arch t0 w -> since_ok arch t0 w'.
Proof.
  intros Hs (H0 & Hwf & (ext & Hmono & Hext & Hle) & Hloop & Hpub).
  destruct (step_real e w w' Hs) as (Hr & Hwf' & Hmv).
  destruct (step_frame arch _ _ _ Hs) as ((Hm & _ & _) & _ & _ & Hp).
  unfold since_ok. split; [lia|]. split; [auto|].
  assert (Hep : exists ext', mono (startRealTime (clock w')) = Some ext' /\
                  in_int64 ext' = true /\ t0 <= ext' <= rmono (real w')).
  { destruct (step_epoch e w w' Hs) as [E|E]; rewrite E.
    - exists ext. split; [exact Hmono|]. split; [exact Hext | lia].
    - exists (rmono (real w)). split; [reflexivity|]. split; [exact Hwf | lia]. }
  split; [exact Hep|].
  assert (Hloop' : forall el,
             loop w' = LUpdate (UUnlock el) \/ loop w' = LUpdate (UStore el) ->
             0 <= el <= rmono (real w') - t0 /\ el <= maxInt64).
  { intros el Hel.
    assert (Hold : (loop w = LUpdate (UUnlock el) \/ loop w = LUpdate (UStore el)) \/
                   (loop w = LUpdate USince /\
                    el = time_Since (real w) (startRealTime (clock w)))).
    { destruct e as [rc| | |c|op|i].
      - simpl in Hs. destruct (_ && _); [|discriminate]. injection Hs as <-. auto.
      - simpl in Hs. destruct (ticker w) as [t|]; [|discriminate].
        destruct (Ticker_fire (real w) t); simpl in Hs; try discriminate.
        injection Hs as <-. auto.
      - simpl in Hs. destruct (kind w); [discriminate|]. injection Hs as <-. auto.
      - simpl in Hs. rewrite loop_step_cases in Hs.
        destruct (loop w) as [| |pc|pc|] eqn:El; simpl in Hs.
        + injection Hs as <-. simpl in Hel. destruct Hel; discriminate.
        + destruct c.
          * destruct (ticker w) as [t|]; [|discriminate].
            destruct (pending t); [|discriminate]. injection Hs as <-.
            simpl in Hel. destruct Hel; discriminate.
          * destruct (kind w); [discriminate|].
            destruct (ctx_done w); [|discriminate]. injection Hs as <-.
            simpl in Hel. destruct Hel; discriminate.
          * destruct (done (clock w)); [|discriminate]. injection Hs as <-.
            simpl in Hel. destruct Hel; discriminate.
        + destruct pc as [| |el0|el0]; simpl in Hs.
          * destruct (mu_Lock (clock w)); simpl in Hs; try discriminate.
            injection Hs as <-. simpl in Hel. destruct Hel; discriminate.
          * injection Hs as <-. simpl in Hel. right.
            destruct Hel as [[= <-]|]; [auto | discriminate].
          * destruct (mu_Unlock (clock w)); simpl in Hs; try discriminate.
            injection Hs as <-. simpl in Hel. left. left.
            destruct Hel as [|[= <-]]; [discriminate | reflexivity].
          * injection Hs as <-. simpl in Hel. destruct Hel; discriminate.
        + destruct (kind w); [discriminate|].
          destruct (Stop_step pc (clock w)) as [[[pc'|] ac']| |]; simpl in Hs;
            try discriminate; injection Hs as <-; simpl in Hel;
            destruct Hel; discriminate.
        + discriminate.
      - assert (E : loop w' = loop w) by (destruct op; injection Hs as <-; reflexivity).
        rewrite E in Hel. auto.
      - destruct (call_step_inv arch _ _ _ Hs) as (c & c' & _ & _ & E & _).
        rewrite E in Hel. auto. }
    destruct Hold as [Hold | [El ->]].
    - destruct (Hloop el Hold) as [Ha Hb]. split; [lia | exact Hb].
    - unfold time_Since. rewrite Hmono.
      pose proof (subMono_nonneg (rmono (real w)) ext Hwf Hext ltac:(lia)) as Hn.
      pose proof (subMono_le (rmono (real w)) ext Hwf Hext ltac:(lia)) as Hl.
      split; lia. }
  split; [exact Hloop'|].
  rewrite Hm. unfold published_since in *.
  destruct Hp as [E | [(el & c & _ & El & E) | (i & _ & _ & _ & E)]].
  - rewrite E. destruct Hpub as [Hz | (el & Hel & Hmax & Hcd)]; [left; exact Hz|].
    right. exists el. split; [lia|]. split; [exact Hmax | exact Hcd].
  - right. exists el. destruct (Hloop el (or_intror El)) as [Ha Hb].
    split; [lia|]. split; [exact Hb | exact E].
  - left. exact E.
Qed.

Lemma exec_since_ok (t0 : Z) (es : list Event) (w w' : World) :
  exec arch es w = Ok w' -> since_ok arch t0 w -> since_ok arch t0 w'.
Proof.
  revert w. induction es as [|e es IH]; intros w; simpl.
  - intros [= <-]. auto.
  - destruct (step arch e w) as [w1| |] eqn:Es; simpl; try discriminate.
    intros He Hok. eapply IH; eauto using step_since_ok.
Qed.

Lemma Initial_since_ok (w : World) :
  Initial w -> since_ok arch (rmono (real w)) w.
Proof.
  intros Hi. unfold since_ok, published_since.
  destruct Hi; simpl; (split; [lia|]); (split; [assumption|]);
    (split; [exists (rmono rc); split; [reflexivity|]; split; [assumption | lia]|]);
    (split; [intros el [Hx|Hx]; discriminate | left; reflexivity]).
Qed.

(** X20.  The virtual time never runs ahead of the real time scaled.
    In every reachable state, for an ordinary multiplier [m] and a real
    time [T] passed on the monotonic clock since construction with
    [|m| * T <= 2^62] nanoseconds, the published duration is at most
    [1 + |m| * T * (1 + 2^-49)] nanoseconds in magnitude, whatever calls
    of [Reset] and [Stop] were interleaved. *)
Theorem virtual_time_never_runs_ahead (w0 : World) (es : list Event) (w : World) :
  Initial w0 -> exec arch es w0 = Ok w ->
  f64_is_ordinary (multiplier (clock w0)) = true ->
  (Rabs (f64_value (multiplier (clock w0)))
   * IZR (rmono (real w) - rmono (real w0)) <= IZR (2 ^ 62))%R ->
  (Rabs (IZR (currentDuration (clock w)))
   <= 1 + Rabs (f64_value (multiplier (clock w0)))
          * IZR (rmono (real w) - rmono (real w0)) * (1 + pow2 (-49)))%R.
Proof.
  intros Hi He Ho Hb.
  pose proof (exec_since_ok _ es w0 w He (Initial_since_ok _ Hi))
    as (H0 & _ & _ & _ & Hpub).
  destruct (exec_frame arch _ _ _ He) as ((Hm & _ & _) & _).
  rewrite Hm in Hpub.
  set (m := multiplier (clock w0)) in *.
  set (T := rmono (real w) - rmono (real w0)) in *.
  pose proof (pow2_pos (-49)) as Hp.
  pose proof (Rabs_pos (f64_value m)) as Ha.
  assert (HT : (0 <= IZR T)%R) by (apply IZR_le; subst T; lia).
  assert (HAT : (0 <= Rabs (f64_value m) * IZR T)%R) by (apply Rmult_le_pos; assumption).
  assert (HATp : (0 <= Rabs (f64_value m) * IZR T * pow2 (-49))%R)
    by (apply Rmult_le_pos; [assumption | lra]).
  destruct Hpub as [-> | (el & Hel & Hmax & ->)].
  - rewrite Rabs_R0. lra.
  - assert (Hel0 : (0 <= IZR el)%R) by (apply IZR_le; lia).
    assert (HelT : (IZR el <= IZR T)%R) by (apply IZR_le; lia).
    assert (Hle : (Rabs (f64_value m) * IZR el <= Rabs (f64_value m) * IZR T)%R)
      by (apply Rmult_le_compat_l; assumption).
    assert (Hb' : (Rabs (f64_value m) * IZR el <= IZR (2 ^ 62))%R) by lra.
    destruct (accelerated_accurate arch m el Ho ltac:(lia) Hb') as [_ Hacc].
    set (z := IZR (accelerated arch m el)) in *.
    assert (Htri : (Rabs z <= Rabs (z - f64_value m * IZR el)
                              + Rabs (f64_value m * IZR el))%R).
    { replace z with ((z - f64_value m * IZR el) + f64_value m * IZR el)%R at 1
        by ring. apply Rabs_triang. }
    rewrite Rabs_mult, (Rabs_pos_eq (IZR el)) in Htri by exact Hel0.
    assert (Hlep : (Rabs (f64_value m) * IZR el * pow2 (-49)
                    <= Rabs (f64_value m) * IZR T * pow2 (-49))%R)
      by (apply Rmult_le_compat_r; lra).
    lra.
Qed.

End NeverAhead.

(** ** The further properties on sample runs *)

Lemma run_contention :
  exec arch_amd64 contention twice_as_fast = Ok contended.
Proof. vm_compute. reflexivity. Qed.

Lemma Initial_paused : Initial paused.
Proof. apply Initial_New. reflexivity. Qed.

Lemma run_paused :
  exec arch_amd64 one_tick paused = Ok (ticked (f64_of_int 0) 0).
Proof. vm_compute. reflexivity. Qed.

Lemma Initial_not_a_number : Initial not_a_number.
Proof. apply Initial_New. reflexivity. Qed.

Lemma run_not_a_number :
  exec arch_amd64 one_tick not_a_number = Ok (ticked S754_nan minInt64).
Proof. vm_compute. reflexivity. Qed.

Lemma mu_mutual_exclusion_witness :
  Initial twice_as_fast /\
  exec arch_amd64 contention twice_as_fast = Ok contended /\
  calls contended !! 0%nat = Some (CReset RStore) /\
  call_in_mu (CReset RStore) = true /\
  loop_in_mu (loop contended) = false.
Proof.
  split; [exact Initial_twice_as_fast|]. split; [exact run_contention|].
  split; [reflexivity|]. split; [reflexivity|].
  exact (proj1 (proj2
    (mu_mutual_exclusion arch_amd64 twice_as_fast contention contended
       Initial_twice_as_fast run_contention)) 0%nat (CReset RStore) eq_refl eq_refl).
Defined.

Lemma elapsed_is_monotonic_witness :
  Initial custom_500ms /\
  exec arch_amd64 one_tick custom_500ms = Ok ticked_500ms /\
  exists ext,
    mono (startRealTime (clock ticked_500ms)) = Some ext /\
    ext <= rmono (real ticked_500ms) /\
    0 <= time_Since (real ticked_500ms) (startRealTime (clock ticked_500ms))
      <= maxInt64 /\
    (forall wall_now,
       time_Since (mkReal wall_now (rmono (real ticked_500ms)))
         (startRealTime (clock ticked_500ms))
       = time_Since (real ticked_500ms) (startRealTime (clock ticked_500ms))) /\
    (0 <= ext ->
     time_Since (real ticked_500ms) (startRealTime (clock ticked_500ms))
     = rmono (real ticked_500ms) - ext).
Proof.
  split; [exact Initial_custom_500ms|]. split; [exact run_one_tick|].
  exact (elapsed_is_monotonic arch_amd64 custom_500ms one_tick ticked_500ms
           Initial_custom_500ms run_one_tick).
Defined.

Lemma published_is_zero_or_a_tick_witness :
  Initial custom_500ms /\
  exec arch_amd64 one_tick custom_500ms = Ok ticked_500ms /\
  minInt64 <= currentDuration (clock ticked_500ms) <= maxInt64.
Proof.
  split; [exact Initial_custom_500ms|]. split; [exact run_one_tick|].
  exact (proj1 (proj2
    (published_is_zero_or_a_tick arch_amd64 custom_500ms one_tick ticked_500ms
       Initial_custom_500ms run_one_tick))).
Defined.

Lemma zero_multiplier_pauses_witness :
  Initial paused /\
  exec arch_amd64 one_tick paused = Ok (ticked (f64_of_int 0) 0) /\
  f64_is_zero (multiplier (clock paused)) = true /\
  real (ticked (f64_of_int 0) 0) = rc_1ms /\
  currentDuration (clock (ticked (f64_of_int 0) 0)) = 0 /\
  Now (clock (ticked (f64_of_int 0) 0)) = startTime (clock paused).
Proof.
  split; [exact Initial_paused|]. split; [exact run_paused|].
  split; [reflexivity|]. split; [reflexivity|].
  exact (zero_multiplier_pauses arch_amd64 paused one_tick (ticked (f64_of_int 0) 0)
           Initial_paused run_paused eq_refl).
Defined.

Lemma published_sign_follows_multiplier_witness :
  Initial custom_500ms /\
  exec arch_amd64 one_tick custom_500ms = Ok ticked_500ms /\
  f64_is_finite (multiplier (clock custom_500ms)) = true /\
  f64_ltz (multiplier (clock custom_500ms)) = false /\
  (0 <= currentDuration (clock ticked_500ms) \/
   overflowed arch_amd64 (multiplier (clock custom_500ms))
     (currentDuration (clock ticked_500ms))).
Proof.
  split; [exact Initial_custom_500ms|]. split; [exact run_one_tick|].
  split; [reflexivity|]. split; [reflexivity|].
  exact (proj1
    (published_sign_follows_multiplier arch_amd64 custom_500ms one_tick ticked_500ms
       Initial_custom_500ms run_one_tick eq_refl) eq_refl).
Defined.

Lemma Now_Sub_startTime_is_published_witness :
  Initial custom_500ms /\
  exec arch_amd64 one_tick custom_500ms = Ok ticked_500ms /\
  Time_Sub (Now (clock ticked_500ms)) (startTime (clock ticked_500ms))
  = currentDuration (clock ticked_500ms) /\
  Time_Before (Now (clock ticked_500ms)) (startTime (clock ticked_500ms))
  = (currentDuration (clock ticked_500ms) <? 0) /\
  startTime (clock ticked_500ms) = startTime (clock custom_500ms).
Proof.
  split; [exact Initial_custom_500ms|]. split; [exact run_one_tick|].
  exact (Now_Sub_startTime_is_published arch_amd64 custom_500ms one_tick ticked_500ms
           Initial_custom_500ms run_one_tick).
Defined.

Lemma not_finite_multiplier_publishes_no_product_witness :
  Initial not_a_number /\
  exec arch_amd64 one_tick not_a_number = Ok (ticked S754_nan minInt64) /\
  f64_is_finite (multiplier (clock not_a_number)) = false /\
  (currentDuration (clock (ticked S754_nan minInt64)) = 0 \/
   exists f, f64_is_finite f = false /\
             currentDuration (clock (ticked S754_nan minInt64))
             = wrap64 (arch_amd64 f)).
Proof.
  split; [exact Initial_not_a_number|]. split; [exact run_not_a_number|].
  split; [reflexivity|].
  exact (proj1
    (not_finite_multiplier_publishes_no_product arch_amd64 not_a_number one_tick
       (ticked S754_nan minInt64) Initial_not_a_number run_not_a_number eq_refl)).
Defined.

Lemma tick_after_Reset_measures_from_Reset_witness :
  mu (New rc_0 f64_2) = false /\
  exists ac1 ac2,
    Reset rc_1s (New rc_0 f64_2) = Ok ac1 /\
    updateClock arch_amd64 rc_1h ac1 = Ok ac2 /\
    startRealTime ac2 = time_Now rc_1s /\
    currentDuration ac2
    = accelerated arch_amd64 (multiplier (New rc_0 f64_2))
        (subMono (rmono rc_1h) (rmono rc_1s)) /\
    (0 <= rmono rc_1s -> rmono rc_1s <= rmono rc_1h -> rmono rc_1h <= maxInt64 ->
     currentDuration ac2
     = accelerated arch_amd64 (multiplier (New rc_0 f64_2))
         (rmono rc_1h - rmono rc_1s)) /\
    (f64_is_finite (multiplier (New rc_0 f64_2)) = true -> rmono rc_1h = rmono rc_1s ->
     currentDuration ac2 = 0 /\
     Now ac2 = Time_Add (startTime (New rc_0 f64_2)) 0).
Proof.
  split; [reflexivity|].
  exact (tick_after_Reset_measures_from_Reset arch_amd64 rc_1s rc_1h (New rc_0 f64_2)
           eq_refl).
Defined.

Lemma Stop_leaves_the_time_alone_witness :
  once_m (once (clock ticked_500ms)) = false /\
  done (clock ticked_500ms) = once_done (once (clock ticked_500ms)) /\
  exists ac',
    Stop (clock ticked_500ms) = Ok ac' /\
    Now ac' = Now (clock ticked_500ms).
Proof.
  split; [reflexivity|]. split; [reflexivity|].
  destruct (Stop_leaves_the_time_alone (clock ticked_500ms) eq_refl eq_refl)
    as (ac' & Hs & Hn & _).
  exists ac'. split; [exact Hs | exact Hn].
Defined.

Lemma tick_writes_only_the_published_duration_witness :
  mu (New rc_0 f64_2) = false /\
  exists ac',
    updateClock arch_amd64 rc_1s (New rc_0 f64_2) = Ok ac' /\
    (startRealTime ac' = startRealTime (New rc_0 f64_2) /\
     startTime ac' = startTime (New rc_0 f64_2)).
Proof.
  split; [reflexivity|].
  destruct (tick_writes_only_the_published_duration arch_amd64 rc_1s (New rc_0 f64_2)
              eq_refl) as (ac' & Hu & He & _).
  exists ac'. split; [exact Hu | exact He].
Defined.

Lemma loop_runs_until_stopped_witness :
  Initial custom_500ms /\
  exec arch_amd64 one_tick custom_500ms = Ok ticked_500ms /\
  ctx_done custom_500ms = false /\
  forallb (fun e => negb (is_stop_call e) && negb (is_cancel e)) one_tick = true /\
  done (clock ticked_500ms) = false /\
  closes arch_amd64 one_tick custom_500ms = 0%nat.
Proof.
  split; [exact Initial_custom_500ms|]. split; [exact run_one_tick|].
  split; [reflexivity|]. split; [reflexivity|].
  exact (proj2 (proj2
    (loop_runs_until_stopped arch_amd64 custom_500ms one_tick ticked_500ms
       Initial_custom_500ms run_one_tick) eq_refl eq_refl)).
Defined.

Lemma live_context_changes_nothing_witness :
  forallb (fun e => negb (is_cancel e)) one_tick = true /\
  exec arch_amd64 one_tick (go_NewCtx false rc_0 f64_2)
  = outcome_map (with_kind RunWithContext)
      (exec arch_amd64 one_tick (go_New rc_0 f64_2)).
Proof.
  split; [reflexivity|].
  exact (proj1
    (live_context_changes_nothing arch_amd64 rc_0 epoch_0 f64_2 Millisecond one_tick
       eq_refl)).
Defined.

Lemma Reset_always_returns_witness :
  Initial twice_as_fast /\
  exec arch_amd64 contention twice_as_fast = Ok contended /\
  calls contended !! 1%nat = Some (CReset RLock) /\
  mu (clock contended) = true /\
  exists es' w',
    (length es' <= 8)%nat /\ forallb is_move es' = true /\
    exec arch_amd64 es' contended = Ok w' /\
    calls w' !! 1%nat = Some (CReturned OpReset).
Proof.
  split; [exact Initial_twice_as_fast|]. split; [exact run_contention|].
  split; [reflexivity|]. split; [reflexivity|].
  exact (Reset_always_returns arch_amd64 twice_as_fast contention contended 1%nat RLock
           Initial_twice_as_fast run_contention eq_refl).
Defined.

Lemma Stop_always_returns_witness :
  Initial twice_as_fast /\
  exec arch_amd64 contention twice_as_fast = Ok contended /\
  calls contended !! 3%nat = Some (CStop SLock) /\
  once_m (once (clock contended)) = true /\
  exists es' w',
    (length es' <= 12)%nat /\ forallb is_move es' = true /\
    exec arch_amd64 es' contended = Ok w' /\
    calls w' !! 3%nat = Some (CReturned OpStop) /\ done (clock w') = true.
Proof.
  split; [exact Initial_twice_as_fast|]. split; [exact run_contention|].
  split; [reflexivity|]. split; [reflexivity|].
  exact (Stop_always_returns arch_amd64 twice_as_fast contention contended 3%nat SLock
           Initial_twice_as_fast run_contention eq_refl).
Defined.

Lemma loop_always_exits_witness :
  Initial with_context /\
  exec arch_amd64 start_then_cancel with_context = Ok cancelled /\
  stop_requested cancelled /\
  exists es' w',
    (length es' <= 21)%nat /\ forallb is_move es' = true /\
    exec arch_amd64 es' cancelled = Ok w' /\
    loop w' = LExit /\ ticker w' = None /\ done (clock w') = true.
Proof.
  split; [exact Initial_with_context|]. split; [exact run_start_then_cancel|].
  split; [right; split; reflexivity|].
  exact (loop_always_exits arch_amd64 with_context start_then_cancel cancelled
           Initial_with_context run_start_then_cancel
           (or_intror (conj eq_refl eq_refl))).
Defined.

Lemma at_most_one_update_per_millisecond_witness :
  Initial custom_500ms /\
  exec arch_amd64 one_tick custom_500ms = Ok ticked_500ms /\
  publications arch_amd64 one_tick custom_500ms = 1%nat /\
  Z.of_nat (publications arch_amd64 one_tick custom_500ms) * Millisecond
  <= rmono (real ticked_500ms) - rmono (real custom_500ms).
Proof.
  split; [exact Initial_custom_500ms|]. split; [exact run_one_tick|].
  split; [vm_compute; reflexivity|].
  exact (proj1
    (at_most_one_update_per_millisecond arch_amd64 custom_500ms one_tick ticked_500ms
       Initial_custom_500ms run_one_tick)).
Defined.

Lemma clock_catches_up_witness :
  Initial custom_500ms /\
  exec arch_amd64 one_tick custom_500ms = Ok ticked_500ms /\
  loop_runs (loop ticked_500ms) = true /\
  rmono (real ticked_500ms) + Millisecond <= rmono rc_1s /\
  in_int64 (rmono rc_1s) = true /\
  exists es' w',
    exec arch_amd64 es' ticked_500ms = Ok w' /\
    real w' = rc_1s /\ loop w' = LSelect /\
    currentDuration (clock w')
    = int64_of_float64 arch_amd64
        (accelerated_float (multiplier (clock custom_500ms))
           (time_Since rc_1s (startRealTime (clock w')))) /\
    0 <= time_Since rc_1s (startRealTime (clock w')) <= maxInt64.
Proof.
  assert (H : rmono (real ticked_500ms) + Millisecond <= rmono rc_1s)
    by (vm_compute; discriminate).
  split; [exact Initial_custom_500ms|]. split; [exact run_one_tick|].
  split; [reflexivity|]. split; [exact H|]. split; [reflexivity|].
  exact (clock_catches_up arch_amd64 custom_500ms one_tick ticked_500ms rc_1s
           Initial_custom_500ms run_one_tick eq_refl H eq_refl).
Defined.

Lemma tick_is_accurate_witness :
  mu (clock custom_500ms) = false /\
  f64_is_ordinary (multiplier (clock custom_500ms)) = true /\
  0 <= time_Since rc_1ms (startRealTime (clock custom_500ms)) /\
  (Rabs (f64_value (multiplier (clock custom_500ms)))
   * IZR (time_Since rc_1ms (startRealTime (clock custom_500ms)))
   <= IZR (2 ^ 62))%R /\
  exists ac',
    updateClock arch_amd64 rc_1ms (clock custom_500ms) = Ok ac' /\
    f64_fits_int64
      (accelerated_float (multiplier (clock custom_500ms))
         (time_Since rc_1ms (startRealTime (clock custom_500ms)))) = true /\
    (Rabs (IZR (currentDuration ac')
           - f64_value (multiplier (clock custom_500ms))
             * IZR (time_Since rc_1ms (startRealTime (clock custom_500ms))))
     <= 1 + Rabs (f64_value (multiplier (clock custom_500ms)))
            * IZR (time_Since rc_1ms (startRealTime (clock custom_500ms)))
            * pow2 (-49))%R.
Proof.
  assert (H0 : 0 <= time_Since rc_1ms (startRealTime (clock custom_500ms)))
    by (vm_compute; discriminate).
  assert (Hb : (Rabs (f64_value (multiplier (clock custom_500ms)))
                * IZR (time_Since rc_1ms (startRealTime (clock custom_500ms)))
                <= IZR (2 ^ 62))%R).
  { change (multiplier (clock custom_500ms)) with f64_1_5.
    change (time_Since rc_1ms (startRealTime (clock custom_500ms))) with 1000000.
    change (2 ^ 62) with 4611686018427387904.
    rewrite f64_value_1_5, Rabs_pos_eq by lra. lra. }
  split; [reflexivity|]. split; [reflexivity|]. split; [exact H0|].
  split; [exact Hb|].
  exact (tick_is_accurate arch_amd64 rc_1ms (clock custom_500ms)
           eq_refl eq_refl H0 Hb).
Defined.

Lemma virtual_time_never_runs_ahead_witness :
  Initial custom_500ms /\
  exec arch_amd64 one_tick custom_500ms = Ok ticked_500ms /\
  f64_is_ordinary (multiplier (clock custom_500ms)) = true /\
  (Rabs (f64_value (multiplier (clock custom_500ms)))
   * IZR (rmono (real ticked_500ms) - rmono (real custom_500ms))
   <= IZR (2 ^ 62))%R /\
  (Rabs (IZR (currentDuration (clock ticked_500ms)))
   <= 1 + Rabs (f64_value (multiplier (clock custom_500ms)))
          * IZR (rmono (real ticked_500ms) - rmono (real custom_500ms))
          * (1 + pow2 (-49)))%R.
Proof.
  assert (Hb : (Rabs (f64_value (multiplier (clock custom_500ms)))
                * IZR (rmono (real ticked_500ms) - rmono (real custom_500ms))
                <= IZR (2 ^ 62))%R).
  { change (multiplier (clock custom_500ms)) with f64_1_5.
    change (rmono (real ticked_500ms) - rmono (real custom_500ms)) with 1000000.
    change (2 ^ 62) with 4611686018427387904.
    rewrite f64_value_1_5, Rabs_pos_eq by lra. lra. }
  split; [exact Initial_custom_500ms|]. split; [exact run_one_tick|].
  split; [reflexivity|]. split; [exact Hb|].
  exact (virtual_time_never_runs_ahead arch_amd64 custom_500ms one_tick ticked_500ms
           Initial_custom_500ms run_one_tick eq_refl Hb).
Defined.

(** * The tick and [Reset], step by step under every schedule *)

Section UnderEverySchedule.

Variable arch : float64 -> Z.

(** ** The sign of what a tick publishes *)



(** ** The steps of a tick and of [Reset] in a state of the system *)



Lemma step_Reset_call (i : nat) (pc : ResetPC) (w : World) :
  calls w !! i = Some (CReset pc) ->
  step arch (EvStep i) w
  = (r <-- Reset_step (real w) pc (clock w) ;;
     match r with
     | (Some pc', ac) => Ok (with_calls w (<[i := CReset pc']> (calls w)) ac)
     | (None, ac) => Ok (with_calls w (<[i := CReturned OpReset]> (calls w)) ac)
     end).
Proof. intros Hi. simpl. unfold call_step. rewrite Hi. reflexivity. Qed.

(** While the loop does not publish, a published zero stays. *)
Lemma exec_quiet (es : list Event) (w w' : World) :
  exec arch es w = Ok w' -> publications arch es w = 0%nat ->
  currentDuration (clock w) = 0 -> currentDuration (clock w') = 0.
Proof.
  revert w. induction es as [|e es IH]; intros w; simpl.
  - intros [= <-] _ H0. exact H0.
  - destruct (step arch e w) as [w1| |] eqn:Es; simpl; try discriminate.
    intros He Hp H0. apply (IH w1 He); [lia|].
    destruct (step_frame arch _ _ _ Es) as (_ & _ & _ & Hpub).
    destruct Hpub as [E | [(el & c & -> & El & _) | (i & _ & _ & _ & E)]].
    + congruence.
    + unfold publishing in Hp. rewrite El in Hp. simpl in Hp. lia.
    + exact E.
Qed.

(** ** The two claims *)


(** C6.  [Reset()] sets the real epoch to the current real time and the
    published duration to zero, and changes nothing else, under every
    schedule.  In every reachable state:
    - the virtual epoch, the multiplier and the update interval are
      those of the construction;
    - a call at its [Lock] waits while [mu] is held and takes it
      otherwise; a call at its write holds [mu] and sets [startRealTime]
      to the current reading of the real clocks; a call at its store
      holds [mu] and stores zero, so that [Now()] is the virtual epoch
      right after the store, and remains so along every schedule in
      which the loop does not publish (a tick that read the old epoch
      before the call may still publish: this is C4); a call at its
      [Unlock] holds [mu] and releases it, without panic; each of these
      steps changes only the field named;
    - when [mu] is free, a call made now and run without interruption
      is [Reset()] as one piece: the real epoch is the current real
      time, the published duration is zero, [Now()] is the virtual
      epoch, and the channel and [once] are as before.
    Besides, on any clock whatever whose [mu] is free, [Reset()] returns
    with the same effect, and any single step of it leaves the
    configuration, the channel and [once] alone. *)
Theorem C6_Reset_sets_epoch_and_zero_only (w0 : World) (es : list Event) (w : World) :
  Initial w0 -> exec arch es w0 = Ok w ->
  (startTime (clock w) = startTime (clock w0) /\
   multiplier (clock w) = multiplier (clock w0) /\
   tickerInterval (clock w) = tickerInterval (clock w0)) /\
  (forall i, calls w !! i = Some (CReset RLock) ->
     step arch (EvStep i) w
     = if mu (clock w) then Blocked
       else Ok (with_calls w (<[i := CReset RWrite]> (calls w))
                  (set_mu true (clock w)))) /\
  (forall i, calls w !! i = Some (CReset RWrite) ->
     mu (clock w) = true /\
     step arch (EvStep i) w
     = Ok (with_calls w (<[i := CReset RStore]> (calls w))
             (set_startRealTime (time_Now (real w)) (clock w)))) /\
  (forall i, calls w !! i = Some (CReset RStore) ->
     mu (clock w) = true /\
     step arch (EvStep i) w
     = Ok (with_calls w (<[i := CReset RUnlock]> (calls w))
             (store_currentDuration 0 (clock w))) /\
     Now (store_currentDuration 0 (clock w)) = startTime (clock w0) /\
     (forall es2 w2,
        exec arch es2 (with_calls w (<[i := CReset RUnlock]> (calls w))
                         (store_currentDuration 0 (clock w))) = Ok w2 ->
        publications arch es2 (with_calls w (<[i := CReset RUnlock]> (calls w))
                                 (store_currentDuration 0 (clock w))) = 0%nat ->
        currentDuration (clock w2) = 0 /\ Now (clock w2) = startTime (clock w0))) /\
  (forall i, calls w !! i = Some (CReset RUnlock) ->
     mu (clock w) = true /\
     step arch (EvStep i) w
     = Ok (with_calls w (<[i := CReturned OpReset]> (calls w))
             (set_mu false (clock w)))) /\
  (mu (clock w) = false ->
   exists ac',
     Reset (real w) (clock w) = Ok ac' /\
     exec arch (call_alone OpReset (length (calls w)) 4) w
     = Ok (with_calls w (calls w ++ [CReturned OpReset]) ac') /\
     (startRealTime ac' = time_Now (real w) /\ currentDuration ac' = 0) /\
     (startTime ac' = startTime (clock w0) /\ multiplier ac' = multiplier (clock w0) /\
      tickerInterval ac' = tickerInterval (clock w0)) /\
     (done ac' = done (clock w) /\ once ac' = once (clock w) /\ mu ac' = false) /\
     Now ac' = startTime (clock w0)) /\
  (forall rc ac, mu ac = false -> Time_wf (startTime ac) ->
   exists ac',
     Reset rc ac = Ok ac' /\
     (startRealTime ac' = time_Now rc /\ currentDuration ac' = 0) /\
     (startTime ac' = startTime ac /\ multiplier ac' = multiplier ac /\
      tickerInterval ac' = tickerInterval ac) /\
     (done ac' = done ac /\ once ac' = once ac /\ mu ac' = mu ac) /\
     Now ac' = startTime ac) /\
  (forall rc pc ac0 pc1 ac1,
     Reset_step rc pc ac0 = Ok (pc1, ac1) ->
     startTime ac1 = startTime ac0 /\ multiplier ac1 = multiplier ac0 /\
     tickerInterval ac1 = tickerInterval ac0 /\
     done ac1 = done ac0 /\ once ac1 = once ac0).
Proof.
  intros Hi He.
  pose proof (reachable_Inv arch _ _ _ Hi He) as HI.
  destruct (exec_frame arch _ _ _ He) as ((Hm & Hti & Hst) & _).
  destruct (Initial_fresh _ Hi) as (Hwf & _).
  assert (Hheld : forall i pc, calls w !! i = Some (CReset pc) -> pc <> RLock ->
                               mu (clock w) = true).
  { intros i pc Hc Hpc. apply (Inv_mu_held_by_call w i (CReset pc) HI Hc).
    destruct pc; [contradiction | reflexivity ..]. }
  split; [auto|]. split; [|split; [|split; [|split; [|split; [|split]]]]].
  - intros i Hc. rewrite (step_Reset_call _ _ _ Hc). simpl. unfold mu_Lock.
    destruct (mu (clock w)); reflexivity.
  - intros i Hc. split; [apply (Hheld i RWrite Hc); discriminate|].
    rewrite (step_Reset_call _ _ _ Hc). reflexivity.
  - intros i Hc. split; [apply (Hheld i RStore Hc); discriminate|].
    split; [rewrite (step_Reset_call _ _ _ Hc); reflexivity|].
    assert (HN : forall ac, startTime ac = startTime (clock w0) ->
                            currentDuration ac = 0 -> Now ac = startTime (clock w0)).
    { intros ac E H0. rewrite <- E. apply Now_fresh; [rewrite E|]; assumption. }
    split; [apply HN; [exact Hst | reflexivity]|].
    intros es2 w2 He2 Hq.
    pose proof (exec_quiet es2 _ _ He2 Hq eq_refl) as H0.
    destruct (exec_frame arch _ _ _ He2) as ((_ & _ & Hst2) & _). simpl in Hst2.
    split; [exact H0|]. apply HN; [congruence | exact H0].
  - intros i Hc.
    assert (Hmu : mu (clock w) = true) by (apply (Hheld i RUnlock Hc); discriminate).
    split; [exact Hmu|].
    rewrite (step_Reset_call _ _ _ Hc). simpl. unfold mu_Unlock. rewrite Hmu.
    reflexivity.
  - intros Hmu.
    destruct (Reset_sequential (real w) (clock w) Hmu)
      as (ac' & Hr & Hep & H0 & (Hm' & Hti' & Hst') & Hd & Ho & Hx).
    exists ac'. split; [exact Hr|]. split; [apply Reset_alone, Hr|].
    split; [auto|]. split; [repeat split; congruence|].
    split; [repeat split; congruence|].
    assert (E : startTime ac' = startTime (clock w0)) by congruence.
    rewrite <- E. apply Now_fresh; [rewrite E|]; assumption.
  - intros rc ac Hmu Hwf'.
    destruct (Reset_sequential rc ac Hmu)
      as (ac' & Hr & Hep & H0 & (Hm' & Hti' & Hst') & Hd & Ho & Hx).
    exists ac'. split; [assumption|]. split; [auto|]. split; [auto|].
    split; [auto|]. rewrite <- Hst'. apply Now_fresh; [rewrite Hst'|]; assumption.
  - intros rc pc ac0 pc1 ac1 Hs.
    destruct (Reset_step_frame _ _ _ _ _ Hs) as ((E1 & E2 & E3) & _).
    destruct (Reset_step_done _ _ _ _ _ Hs) as (E4 & E5). auto.
Qed.

End UnderEverySchedule.


(** ** The two claims on sample runs *)



Lemma run_Reset_up_to_store :
  exec arch_amd64 Reset_up_to_store custom_500ms = Ok resetting_500ms.
Proof. vm_compute. reflexivity. Qed.



Lemma C6_witness :
  Initial custom_500ms /\
  exec arch_amd64 Reset_up_to_store custom_500ms = Ok resetting_500ms /\
  calls resetting_500ms !! 0%nat = Some (CReset RStore) /\
  currentDuration (clock resetting_500ms) = 1500000 /\
  step arch_amd64 (EvStep 0) resetting_500ms
  = Ok (with_calls resetting_500ms
          (<[0%nat := CReset RUnlock]> (calls resetting_500ms))
          (store_currentDuration 0 (clock resetting_500ms))) /\
  Now (store_currentDuration 0 (clock resetting_500ms)) = startTime (clock custom_500ms).
Proof.
  destruct (C6_Reset_sets_epoch_and_zero_only arch_amd64 custom_500ms Reset_up_to_store
              resetting_500ms Initial_custom_500ms run_Reset_up_to_store)
    as (_ & _ & _ & Hstore & _).
  destruct (Hstore 0%nat eq_refl) as (_ & Hstep & Hnow & _).
  split; [exact Initial_custom_500ms|]. split; [exact run_Reset_up_to_store|].
  split; [reflexivity|]. split; [reflexivity|]. split; [exact Hstep | exact Hnow].
Defined.
